(** * Novalayer order dashboard: order ingestion and shipping reconciliation

    A shallow embedding of [server/routes.ts], [server/storage.ts] and the
    Amazon SP-API client, together with the properties the specification
    states about them.

    Conventions of the embedding.
    - A JavaScript string is a sequence of UTF-16 code units; it is modelled
      by a Rocq [string], one character per code unit, for the code units
      below 256 (Latin-1).  White space, [trim] and [toLowerCase] are the
      JavaScript ones restricted to that range.
    - [undefined] and [null] are [None]; where the code tells the two apart
      (the partial update of [updateOrder]) the outer [option] is
      [undefined] and the inner one is [null].
    - JavaScript truthiness is written out: a string is truthy iff it is
      not empty, a number iff it is neither [0] nor [NaN].
    - A raw row ([Record<string, string>]) is a [gmap string string].
    - The [orders] table is the list of its rows together with the next
      value of the [serial] primary key.
    - Text outside Latin-1 that the code only concatenates (the arrow of
      the fuzzy-match explanation) is written as a literal.

    The first part of the file holds the embedding, the second part the
    lemmas and theorems about it. *)

From Stdlib Require Import ZArith Ascii String List Lia Bool.
From stdpp Require Import base list strings gmap.
From stdpp Require Import pretty.

Local Open Scope Z_scope.

(** * Part I: the embedding *)

(** ** JavaScript strings *)

Module JS.

Definition chars (s : string) : list ascii := String.list_ascii_of_string s.
Definition str (l : list ascii) : string := String.string_of_list_ascii l.

(** [s.length] *)
Definition length (s : string) : nat := List.length (chars s).

(** Truthiness of a string: [!!s]. *)
Definition truthy (s : string) : bool :=
  match s with "" => false | _ => true end.

(** [a || b] where [a] is a string that may be [undefined] or [null]. *)
Definition or_else (a : option string) (b : string) : string :=
  match a with
  | Some s => if truthy s then s else b
  | None => b
  end.

(** [a || null] on a string. *)
Definition or_null (s : string) : option string :=
  if truthy s then Some s else None.

(** Truthiness of a nullable string. *)
Definition truthy_opt (a : option string) : bool :=
  match a with Some s => truthy s | None => false end.

Definition TAB : ascii := ascii_of_nat 9.

(** White space and line terminators of ECMAScript ([\s], [trim],
    [parseInt]) below code unit 256: TAB, LF, VT, FF, CR, SP and NBSP. *)
Definition isWhiteSpace (c : ascii) : bool :=
  match nat_of_ascii c with
  | 9 | 10 | 11 | 12 | 13 | 32 | 160 => true
  | _ => false
  end%nat.

Fixpoint dropWhile (p : ascii → bool) (l : list ascii) : list ascii :=
  match l with
  | [] => []
  | c :: l' => if p c then dropWhile p l' else l
  end.

(** [s.trim()] *)
Definition trim (s : string) : string :=
  str (rev (dropWhile isWhiteSpace (rev (dropWhile isWhiteSpace (chars s))))).

(** [toLowerCase] on one code unit below 256: [A-Z], and the Latin-1
    capitals from A-grave to Thorn without the multiplication sign. *)
Definition lowerChar (c : ascii) : ascii :=
  let n := nat_of_ascii c in
  if ((65 <=? n) && (n <=? 90))%nat then ascii_of_nat (n + 32)
  else if ((192 <=? n) && (n <=? 222) && negb (n =? 215))%nat
       then ascii_of_nat (n + 32)
  else c.

(** [s.toLowerCase()] *)
Definition toLowerCase (s : string) : string :=
  str (map lowerChar (chars s)).

(** [s.replace(/[...]/g, "")] for a character class [cls]. *)
Definition removeAll (cls : ascii → bool) (s : string) : string :=
  str (List.filter (fun c => negb (cls c)) (chars s)).

Definition eqc (c x : ascii) : bool := if ascii_dec x c then true else false.

(** [s.replace(c, d)] for one-character strings: the first [c] becomes
    [d]. *)
Fixpoint replaceFirstL (c d : ascii) (l : list ascii) : list ascii :=
  match l with
  | [] => []
  | x :: l' => if eqc c x then d :: l' else x :: replaceFirstL c d l'
  end.

Definition replaceFirst (c d : ascii) (s : string) : string :=
  str (replaceFirstL c d (chars s)).

(** [s.includes(c)] for a one-character needle. *)
Definition includesChar (s : string) (c : ascii) : bool :=
  existsb (eqc c) (chars s).

(** [(s.match(/c/g) || []).length] for a one-character pattern. *)
Definition countMatches (s : string) (c : ascii) : nat :=
  List.length (List.filter (eqc c) (chars s)).

Fixpoint startsWithL (l t : list ascii) : bool :=
  match t, l with
  | [], _ => true
  | _ :: _, [] => false
  | a :: t', b :: l' => eqc a b && startsWithL l' t'
  end.

Fixpoint includesL (l t : list ascii) : bool :=
  startsWithL l t ||
  match l with
  | [] => false
  | _ :: l' => includesL l' t
  end.

(** [s.includes(t)] *)
Definition includes (s t : string) : bool := includesL (chars s) (chars t).

(** [s.slice(-n)]: the last [n] code units, the whole string when it is
    shorter. *)
Definition sliceLast (n : nat) (s : string) : string :=
  str (drop (List.length (chars s) - n) (chars s)).

(** [s.endsWith(t)] *)
Definition endsWith (s t : string) : bool :=
  let ls := chars s in
  let lt := chars t in
  (List.length lt <=? List.length ls)%nat
  && bool_decide (drop (List.length ls - List.length lt) ls = lt).

(** [s.split(/\s+/)]: the pieces between maximal runs of white space; a
    leading or trailing run leaves an empty first or last piece, and the
    empty string splits into one empty piece. *)
Fixpoint split_go (cur : list ascii) (l : list ascii) : list string :=
  match l with
  | [] => [str (rev cur)]
  | c :: l' =>
      if isWhiteSpace c
      then str (rev cur) ::
           (fix skip (k : list ascii) : list string :=
              match k with
              | [] => [""]
              | d :: k' => if isWhiteSpace d then skip k' else split_go [d] k'
              end) l'
      else split_go (c :: cur) l'
  end.

Definition splitWs (s : string) : list string := split_go [] (chars s).

(** [parts.join(sep)] *)
Fixpoint join (sep : string) (parts : list string) : string :=
  match parts with
  | [] => ""
  | [p] => p
  | p :: rest => p +:+ sep +:+ join sep rest
  end.

Definition digitVal (c : ascii) : option Z :=
  let n := nat_of_ascii c in
  if ((48 <=? n) && (n <=? 57))%nat then Some (Z.of_nat (n - 48)) else None.

Definition isDigit (c : ascii) : bool :=
  match digitVal c with Some _ => true | None => false end.

Fixpoint digitsPrefix (acc : option Z) (l : list ascii) : option Z :=
  match l with
  | [] => acc
  | c :: l' =>
      match digitVal c with
      | Some d => digitsPrefix (Some (10 * from_option id 0 acc + d)) l'
      | None => acc
      end
  end.

(** [parseInt(s, 10)]: leading white space is skipped, one sign is read,
    then the longest run of decimal digits; [None] is [NaN] (no digit);
    [-0] is [0].  The value given here is the integer that the digits
    denote.  The source holds the double nearest to it, which is the
    same number as long as its absolute value is at most [2^53]; what
    is stated below about the value of a parsed number is stated within
    that bound.  Whether the number is [0], what its sign is and
    whether it fits into 32 bits does not depend on the rounding. *)
Definition parseInt (s : string) : option Z :=
  match dropWhile isWhiteSpace (chars s) with
  | "-"%char :: l => Z.opp <$> digitsPrefix None l
  | "+"%char :: l => digitsPrefix None l
  | l => digitsPrefix None l
  end.

(** [n || d] on a number that may be [NaN]. *)
Definition num_or (n : option Z) (d : Z) : Z :=
  match n with
  | Some 0 | None => d
  | Some v => v
  end.

End JS.

(** One-character strings above the ASCII range, for the German column
    names of the eBay export. *)
Definition ae : string := String (ascii_of_nat 228) "".
Definition ue : string := String (ascii_of_nat 252) "".

(** ** Tabular parser: delimiter detection ([routes.ts], [detectDelimiter]) *)

Definition TABs : string := String JS.TAB "".

Definition detectDelimiter (firstLine : string) : string :=
  if JS.includesChar firstLine JS.TAB then TABs
  else
    let semicolonCount := JS.countMatches firstLine ";"%char in
    let commaCount := JS.countMatches firstLine ","%char in
    if (commaCount <? semicolonCount)%nat then ";" else ",".

(** ** Format detector ([routes.ts], [detectPlatform]) *)

Inductive Platform := Amazon | eBay.

Definition platformName (p : Platform) : string :=
  match p with Amazon => "Amazon" | eBay => "eBay" end.

Definition detectPlatform (headers : list string) : Platform :=
  let headerStr := JS.toLowerCase (JS.join "|" headers) in
  if JS.includes headerStr "order-item-id"
     || JS.includes headerStr "purchase-date"
     || JS.includes headerStr "buyer-email"
  then Amazon
  else if JS.includes headerStr "bestellnummer"
     || JS.includes headerStr "verkaufsprotokollnummer"
     || JS.includes headerStr ("k" +:+ ae +:+ "ufer")
     || JS.includes headerStr ("empf" +:+ ae +:+ "nger")
     || JS.includes headerStr "angebotstitel"
     || JS.includes headerStr "artikelnummer"
  then eBay
  else Amazon.

(** ** The canonical order ([shared/schema.ts]) *)

(** The columns of the [orders] table without the primary key: the type
    [InsertOrder], which is also what the field mappers build.  A nullable
    column is an [option]. *)
(** Modelled from the spec: the columns [shipper], [price] and
    [shippingCost], which [routes.ts] writes and the table of [schema.ts]
    does not declare; nullable text, like the other shipping fields. *)
Record InsertOrder := {
  platform : string;
  purchaseDate : string;
  orderId : string;
  orderItemId : string;
  email : option string;
  phone : option string;
  firstName : string;
  lastName : string;
  street : option string;
  contactPerson : option string;
  city : option string;
  postalCode : option string;
  country : option string;
  sku : option string;
  productName : option string;
  quantity : Z;
  price : option string;
  shippingCost : option string;
  customerType : string;
  shippingCarrier : option string;
  trackingNumber : option string;
  shippingDate : option string;
  shipper : option string;
  status : string
}.

(** A stored row: [Order = { id } & InsertOrder]. *)
Record Order := {
  id : Z;
  fields :> InsertOrder
}.

(** [Partial<InsertOrder>]: every key may be absent ([None]); a present
    key of a nullable column may hold [null] ([Some None]). *)
Module Partial.
Record t := {
  platform : option string;
  purchaseDate : option string;
  orderId : option string;
  orderItemId : option string;
  email : option (option string);
  phone : option (option string);
  firstName : option string;
  lastName : option string;
  street : option (option string);
  contactPerson : option (option string);
  city : option (option string);
  postalCode : option (option string);
  country : option (option string);
  sku : option (option string);
  productName : option (option string);
  quantity : option Z;
  price : option (option string);
  shippingCost : option (option string);
  customerType : option string;
  shippingCarrier : option (option string);
  trackingNumber : option (option string);
  shippingDate : option (option string);
  shipper : option (option string);
  status : option string
}.

(** The empty object [{}]. *)
Definition empty : t :=
  {| platform := None; purchaseDate := None; orderId := None;
     orderItemId := None; email := None; phone := None; firstName := None;
     lastName := None; street := None; contactPerson := None; city := None;
     postalCode := None; country := None; sku := None; productName := None;
     quantity := None; price := None; shippingCost := None;
     customerType := None; shippingCarrier := None; trackingNumber := None;
     shippingDate := None; shipper := None; status := None |}.

(** [updateData.status = v] *)
Definition set_status (v : string) (u : t) : t :=
  {| platform := platform u; purchaseDate := purchaseDate u;
     orderId := orderId u; orderItemId := orderItemId u; email := email u;
     phone := phone u; firstName := firstName u; lastName := lastName u;
     street := street u; contactPerson := contactPerson u; city := city u;
     postalCode := postalCode u; country := country u; sku := sku u;
     productName := productName u; quantity := quantity u; price := price u;
     shippingCost := shippingCost u; customerType := customerType u;
     shippingCarrier := shippingCarrier u;
     trackingNumber := trackingNumber u; shippingDate := shippingDate u;
     shipper := shipper u; status := Some v |}.
End Partial.

(** [UPDATE ... SET]: the keys present in [u] overwrite the columns of the
    row, the absent ones leave them as they are. *)
Definition applySet (u : Partial.t) (o : InsertOrder) : InsertOrder :=
  {| platform := default (platform o) (Partial.platform u);
     purchaseDate := default (purchaseDate o) (Partial.purchaseDate u);
     orderId := default (orderId o) (Partial.orderId u);
     orderItemId := default (orderItemId o) (Partial.orderItemId u);
     email := default (email o) (Partial.email u);
     phone := default (phone o) (Partial.phone u);
     firstName := default (firstName o) (Partial.firstName u);
     lastName := default (lastName o) (Partial.lastName u);
     street := default (street o) (Partial.street u);
     contactPerson := default (contactPerson o) (Partial.contactPerson u);
     city := default (city o) (Partial.city u);
     postalCode := default (postalCode o) (Partial.postalCode u);
     country := default (country o) (Partial.country u);
     sku := default (sku o) (Partial.sku u);
     productName := default (productName o) (Partial.productName u);
     quantity := default (quantity o) (Partial.quantity u);
     price := default (price o) (Partial.price u);
     shippingCost := default (shippingCost o) (Partial.shippingCost u);
     customerType := default (customerType o) (Partial.customerType u);
     shippingCarrier := default (shippingCarrier o) (Partial.shippingCarrier u);
     trackingNumber := default (trackingNumber o) (Partial.trackingNumber u);
     shippingDate := default (shippingDate o) (Partial.shippingDate u);
     shipper := default (shipper o) (Partial.shipper u);
     status := default (status o) (Partial.status u) |}.

(** ** Field mapper ([routes.ts]) *)

(** A raw row of a parsed file. *)
Abbreviation Row := (gmap string string).

Definition splitName (fullName : string) : string * string :=
  let parts := JS.splitWs (JS.trim fullName) in
  match parts with
  | [] => ("", "")
  | [p] => if JS.truthy p then (p, "") else ("", "")
  | _ =>
      let lastName := JS.or_else (last parts) "" in
      (JS.join " " (removelast parts), lastName)
  end.

(** The two built-ins of the JavaScript runtime that the normalisers rest
    on.  [Date_toISOString s] is [new Date(s).toISOString()], [None] when
    the date is invalid ([isNaN(d.getTime())]); [parseFloat_toFixed s] is
    [parseFloat(s).toFixed(2)], [None] when the number is [NaN]. *)
Class Runtime := {
  Date_toISOString : string → option string;
  parseFloat_toFixed : string → option string
}.

(** A runtime in which no text is a date or a number: every date and
    price passes through unchanged, which is what the normalisers do with
    text they cannot parse. *)
Definition noParse : Runtime :=
  {| Date_toISOString := fun _ => None;
     parseFloat_toFixed := fun _ => None |}.

(** The regular expression [(\d{2})\.(\d{2})\.(\d{4})] at the head of
    [l]: day, month and year. *)
Definition dottedAt (l : list ascii) : option (string * string * string) :=
  match l with
  | d1 :: d2 :: dot1 :: m1 :: m2 :: dot2 :: y1 :: y2 :: y3 :: y4 :: _ =>
      if forallb JS.isDigit [d1; d2; m1; m2; y1; y2; y3; y4]
         && JS.eqc "."%char dot1 && JS.eqc "."%char dot2
      then Some (JS.str [d1; d2], JS.str [m1; m2], JS.str [y1; y2; y3; y4])
      else None
  | _ => None
  end.

(** Its leftmost match in [l]. *)
Fixpoint findDotted (l : list ascii) : option (string * string * string) :=
  match dottedAt l with
  | Some found => Some found
  | None => match l with [] => None | _ :: l' => findDotted l' end
  end.

(** The class [\w]. *)
Definition isWordChar (c : ascii) : bool :=
  let n := nat_of_ascii c in
  (((65 <=? n) && (n <=? 90)) || ((97 <=? n) && (n <=? 122))
   || JS.isDigit c || (n =? 95))%nat.

(** The longest run of word characters at the head of [l], and the rest. *)
Fixpoint wordRun (l : list ascii) : list ascii * list ascii :=
  match l with
  | c :: l' =>
      if isWordChar c
      then let '(run, rest) := wordRun l' in (c :: run, rest)
      else ([], l)
  | [] => ([], [])
  end.

(** The regular expression [(\w+)-(\d{2})-(\d{4})] at the head of [l]:
    word, day and year.  The greedy [\w+] can only end where its run of
    word characters ends, since a hyphen has to follow. *)
Definition dashedAt (l : list ascii) : option (string * string * string) :=
  match wordRun l with
  | ((_ :: _) as word,
     dash1 :: d1 :: d2 :: dash2 :: y1 :: y2 :: y3 :: y4 :: _) =>
      if forallb JS.isDigit [d1; d2; y1; y2; y3; y4]
         && JS.eqc "-"%char dash1 && JS.eqc "-"%char dash2
      then Some (JS.str word, JS.str [d1; d2], JS.str [y1; y2; y3; y4])
      else None
  | _ => None
  end.

Fixpoint findDashed (l : list ascii) : option (string * string * string) :=
  match dashedAt l with
  | Some found => Some found
  | None => match l with [] => None | _ :: l' => findDashed l' end
  end.

(** The table [months] of [parseEbayDate].  Only its own keys are
    modelled, not the ones an object literal inherits. *)
Definition months : list (string * string) :=
  [ ("Jan", "01"); ("Feb", "02"); ("M" +:+ ae +:+ "r", "03"); ("Mar", "03");
    ("Apr", "04"); ("Mai", "05"); ("May", "05"); ("Jun", "06");
    ("Jul", "07"); ("Aug", "08"); ("Sep", "09"); ("Okt", "10");
    ("Oct", "10"); ("Nov", "11"); ("Dez", "12"); ("Dec", "12") ].

Definition lookupMonth (k : string) : option string :=
  snd <$> List.find (fun entry => String.eqb (fst entry) k) months.

(** The class [[€$£\s]] below code unit 256: the euro sign lies above. *)
Definition currencyNoise (c : ascii) : bool :=
  JS.eqc "$"%char c || (nat_of_ascii c =? 163)%nat || JS.isWhiteSpace c.

Section Normalizers.
Context {R : Runtime}.

Definition normalizeDate (dateStr : string) : string :=
  if negb (JS.truthy dateStr) then ""
  else match Date_toISOString dateStr with
       | None => dateStr
       | Some iso => iso
       end.

Definition parseEbayDate (dateStr : string) : string :=
  if negb (JS.truthy dateStr) then ""
  else
    match findDotted (JS.chars dateStr) with
    | Some (day, month, year) =>
        year +:+ "-" +:+ month +:+ "-" +:+ day +:+ "T00:00:00.000Z"
    | None =>
        match findDashed (JS.chars dateStr) with
        | Some (word, day, year) =>
            let month := JS.or_else (lookupMonth word) "01" in
            year +:+ "-" +:+ month +:+ "-" +:+ day +:+ "T00:00:00.000Z"
        | None => normalizeDate dateStr
        end
    end.

Definition parsePrice (priceStr : string) : string :=
  if negb (JS.truthy priceStr) then ""
  else
    let cleaned :=
      JS.replaceFirst ","%char "."%char
        (JS.removeAll (JS.eqc "."%char) (JS.removeAll currencyNoise priceStr)) in
    match parseFloat_toFixed cleaned with
    | None => priceStr
    | Some num => num
    end.

End Normalizers.

Section Mappers.
Context {R : Runtime}.

Definition mapAmazonRecord (r : Row) : InsertOrder :=
  let recipientName :=
    JS.or_else (r !! "recipient-name") (JS.or_else (r !! "buyer-name") "") in
  let '(firstName, lastName) := splitName recipientName in
  let contactPerson := JS.trim (JS.or_else (r !! "ship-address-2") "") in
  let customerType := if JS.truthy contactPerson then "Firma" else "Privat" in
  {| platform := "Amazon";
     purchaseDate := normalizeDate (JS.or_else (r !! "purchase-date") "");
     orderId := JS.or_else (r !! "order-id") "";
     orderItemId :=
       JS.or_else (r !! "order-item-id") (JS.or_else (r !! "order-id") "");
     email := Some (JS.or_else (r !! "buyer-email") "");
     phone := Some (JS.or_else (r !! "buyer-phone-number") "");
     firstName := firstName;
     lastName := lastName;
     street := Some (JS.or_else (r !! "ship-address-1") "");
     contactPerson := JS.or_null contactPerson;
     city := Some (JS.or_else (r !! "ship-city") "");
     postalCode := Some (JS.or_else (r !! "ship-postal-code") "");
     country := Some (JS.or_else (r !! "ship-country") "");
     sku := Some (JS.or_else (r !! "sku") "");
     productName := Some (JS.or_else (r !! "product-name") "");
     quantity :=
       JS.num_or (JS.parseInt (JS.or_else (r !! "quantity-purchased") "1")) 1;
     price :=
       JS.or_null (parsePrice
         (JS.or_else (r !! "item-price") (JS.or_else (r !! "price") "")));
     shippingCost :=
       JS.or_null (parsePrice
         (JS.or_else (r !! "shipping-price")
                     (JS.or_else (r !! "shipping-fee") "")));
     customerType := customerType;
     shippingCarrier := None;
     trackingNumber := None;
     shippingDate := None;
     shipper := None;
     status := "Offen" |}.

Definition mapEbayRecord (r : Row) : InsertOrder :=
  let recipientName :=
    JS.or_else (r !! ("Name des Empf" +:+ ae +:+ "ngers"))
               (JS.or_else (r !! ("Name des K" +:+ ae +:+ "ufers")) "") in
  let '(firstName, lastName) := splitName recipientName in
  let shippingAddress2 :=
    JS.trim (JS.or_else (r !! ("Adresse 2 des Empf" +:+ ae +:+ "ngers")) "") in
  let buyerAddress2 :=
    JS.trim (JS.or_else (r !! ("Adresse 2 des K" +:+ ae +:+ "ufers")) "") in
  let contactPerson :=
    JS.or_else (Some shippingAddress2) (JS.or_else (Some buyerAddress2) "") in
  let customerType := if JS.truthy contactPerson then "Firma" else "Privat" in
  let orderId := JS.or_else (r !! "Bestellnummer") "" in
  let salesRecordId := JS.or_else (r !! "Verkaufsprotokollnummer") "" in
  let transactionId := JS.or_else (r !! "Transaktionsnummer") "" in
  let lineItemId :=
    JS.or_else (Some salesRecordId) (JS.or_else (Some transactionId) orderId) in
  let orderItemId :=
    if JS.truthy lineItemId then "ebay-" +:+ lineItemId else "" in
  let purchaseDateRaw :=
    JS.or_else (r !! "Verkauft am") (JS.or_else (r !! "Zahlungsdatum") "") in
  let purchaseDate := parseEbayDate purchaseDateRaw in
  {| platform := "eBay";
     purchaseDate := purchaseDate;
     orderId := orderId;
     orderItemId := orderItemId;
     email := Some (JS.or_else (r !! ("E-Mail des K" +:+ ae +:+ "ufers")) "");
     phone :=
       Some (JS.or_else (r !! ("Telefonnummer des Empf" +:+ ae +:+ "ngers")) "");
     firstName := firstName;
     lastName := lastName;
     street :=
       Some (JS.or_else (r !! ("Adresse 1 des Empf" +:+ ae +:+ "ngers"))
               (JS.or_else (r !! ("Adresse 1 des K" +:+ ae +:+ "ufers")) ""));
     contactPerson := JS.or_null contactPerson;
     city :=
       Some (JS.or_else (r !! "Versand nach - Ort")
               (JS.or_else (r !! ("Wohnort des K" +:+ ae +:+ "ufers")) ""));
     postalCode :=
       Some (JS.or_else (r !! "Versand nach - PLZ")
               (JS.or_else (r !! ("PLZ des K" +:+ ae +:+ "ufers")) ""));
     country :=
       Some (JS.or_else (r !! "Versand nach - Land")
               (JS.or_else (r !! ("Land des K" +:+ ae +:+ "ufers")) ""));
     sku := Some (JS.or_else (r !! "Bestandseinheit") "");
     productName := Some (JS.or_else (r !! "Angebotstitel") "");
     quantity :=
       JS.num_or
         (JS.parseInt
            (JS.or_else (r !! "Anzahl") (JS.or_else (r !! "Menge") "1"))) 1;
     price :=
       JS.or_null (parsePrice
         (JS.or_else (r !! ("Verkauft f" +:+ ue +:+ "r"))
                     (JS.or_else (r !! "Gesamtbetrag") "")));
     shippingCost :=
       JS.or_null (parsePrice
         (JS.or_else (r !! "Verpackung und Versand") ""));
     customerType := customerType;
     shippingCarrier := JS.or_null (JS.or_else (r !! "Versandservice") "");
     trackingNumber := JS.or_null (JS.or_else (r !! "Sendungsnummer") "");
     shippingDate := None;
     shipper := None;
     status := "Offen" |}.

(** The dialect mapper the import route picks for a platform. *)
Definition mapRecord (p : Platform) (r : Row) : InsertOrder :=
  match p with
  | eBay => mapEbayRecord r
  | Amazon => mapAmazonRecord r
  end.

End Mappers.

(** ** Remote order client: the remote schema and its mapper *)

Record BuyerInfo := {
  BuyerEmail : option string;
  BuyerName : option string
}.

Record ShippingAddress := {
  Name : option string;
  AddressLine1 : option string;
  AddressLine2 : option string;
  City : option string;
  StateOrRegion : option string;
  PostalCode : option string;
  CountryCode : option string;
  Phone : option string
}.

Record AmazonOrder := {
  AmazonOrderId : string;
  PurchaseDate : string;
  OrderStatus : string;
  buyerInfo : option BuyerInfo;
  shippingAddress : option ShippingAddress
}.

Record Money := {
  Amount : option string;
  CurrencyCode : option string
}.

Record AmazonOrderItem := {
  OrderItemId : string;
  SellerSKU : option string;
  Title : option string;
  QuantityOrdered : Z;
  ItemPrice : option Money;
  ItemTax : option Money;
  ShippingPrice : option Money
}.

(** [order.ShippingAddress || {}] *)
Definition noAddress : ShippingAddress :=
  {| Name := None; AddressLine1 := None; AddressLine2 := None; City := None;
     StateOrRegion := None; PostalCode := None; CountryCode := None;
     Phone := None |}.

Definition mapOrderToSchema (order : AmazonOrder) (item : AmazonOrderItem)
  : InsertOrder :=
  let addr := default noAddress (shippingAddress order) in
  let recipientName :=
    JS.or_else (Name addr)
               (JS.or_else (buyerInfo order ≫= BuyerName) "") in
  let '(firstName, lastName) := splitName recipientName in
  let contactPerson := JS.trim (JS.or_else (AddressLine2 addr) "") in
  let customerType := if JS.truthy contactPerson then "Firma" else "Privat" in
  {| platform := "Amazon";
     purchaseDate := JS.or_else (Some (PurchaseDate order)) "";
     orderId := JS.or_else (Some (AmazonOrderId order)) "";
     orderItemId :=
       JS.or_else (Some (OrderItemId item))
                  (JS.or_else (Some (AmazonOrderId order)) "");
     email := Some (JS.or_else (buyerInfo order ≫= BuyerEmail) "");
     phone := Some (JS.or_else (Phone addr) "");
     firstName := firstName;
     lastName := lastName;
     street := Some (JS.or_else (AddressLine1 addr) "");
     contactPerson := JS.or_null contactPerson;
     city := Some (JS.or_else (City addr) "");
     postalCode := Some (JS.or_else (PostalCode addr) "");
     country := Some (JS.or_else (CountryCode addr) "");
     sku := Some (JS.or_else (SellerSKU item) "");
     productName := Some (JS.or_else (Title item) "");
     quantity := JS.num_or (Some (QuantityOrdered item)) 1;
     price := JS.or_null (JS.or_else (ItemPrice item ≫= Amount) "");
     shippingCost := JS.or_null (JS.or_else (ShippingPrice item ≫= Amount) "");
     customerType := customerType;
     shippingCarrier := None;
     trackingNumber := None;
     shippingDate := None;
     shipper := None;
     status := "Offen" |}.

(** ** Effects: state that survives a thrown error *)

(** A computation over a store [S] that returns a value or throws an [E];
    the writes made before a throw stay in the store. *)
Definition M (S E A : Type) : Type := S → (E + A) * S.

#[global] Instance M_ret {S E} : MRet (M S E) :=
  fun A (a : A) s => (inr a, s).

#[global] Instance M_bind {S E} : MBind (M S E) :=
  fun A B (k : A → M S E B) (m : M S E A) s =>
    match m s with
    | (inr a, s') => k a s'
    | (inl e, s') => (inl e, s')
    end.

Definition throw {S E A} (e : E) : M S E A := fun s => (inl e, s).

Definition gets {S E A} (f : S → A) : M S E A := fun s => (inr (f s), s).

Definition modify {S E} (f : S → S) : M S E unit := fun s => (inr tt, f s).

(** [for (const x of l) acc = body(x, acc)] *)
Fixpoint forEach {S E A B} (l : list A) (body : A → B → M S E B) (acc : B)
  : M S E B :=
  match l with
  | [] => mret acc
  | x :: rest => acc' ← body x acc; forEach rest body acc'
  end.

(** ** Order store ([storage.ts], [DatabaseStorage]) *)

(** The [orders] table: its rows in insertion order and the next value of
    the [serial] key. *)
Record Db := {
  rows : list Order;
  nextId : Z
}.

(** What the table refuses: a second row with the same [order_item_id]
    (the column is [unique]), a second row with the same [id] (the
    primary key), a [quantity] that the [integer] column cannot hold, and
    an insert when the sequence of the [serial] key has run out. *)
Inductive DbError :=
  | UniqueViolation (itemId : string)
  | PrimaryKeyViolation (key : Z)
  | OutOfRange (value : Z)
  | SequenceExhausted.

(** The values of an [integer] column and of a [serial] key: 32 bits,
    signed. *)
Definition int4 (z : Z) : bool :=
  (-2147483648 <=? z) && (z <=? 2147483647).

Abbreviation Store := (M Db DbError).

(** [db.select().from(orders).where(eq(orders.id, i))] *)
Definition selectById (i : Z) (db : Db) : list Order :=
  List.filter (fun o => id o =? i) (rows db).

(** [db.select().from(orders).where(eq(orders.orderItemId, k))] *)
Definition selectByItemId (k : string) (db : Db) : list Order :=
  List.filter (fun o : Order => String.eqb (orderItemId o) k) (rows db).

Definition getOrderByItemId (k : string) : Store (option Order) :=
  gets (fun db => head (selectByItemId k db)).

(** [db.insert(orders).values(order)].  A quantity outside the
    [integer] column is refused when the statement is bound, before the
    sequence is touched; a key that is already there is refused when the
    row is written, after the sequence has given out its value. *)
Definition dbInsert (order : InsertOrder) : Store unit :=
  fun db =>
    if negb (int4 (quantity order))
    then (inl (OutOfRange (quantity order)), db)
    else if negb (int4 (nextId db))
    then (inl SequenceExhausted, db)
    else
      let drawn := {| rows := rows db; nextId := nextId db + 1 |} in
      if existsb (fun o => id o =? nextId db) (rows db)
      then (inl (PrimaryKeyViolation (nextId db)), drawn)
      else
        match selectByItemId (orderItemId order) db with
        | _ :: _ => (inl (UniqueViolation (orderItemId order)), drawn)
        | [] =>
            (inr tt,
             {| rows := rows db ++ [ {| id := nextId db; fields := order |} ];
                nextId := nextId db + 1 |})
        end.

Record ImportReport := {
  imported : nat;
  duplicates : nat;
  duplicateIds : list string
}.

(** One turn of the loop of [createOrders], on the counter [imported] and
    the array [duplicateIds]. *)
Definition createOrders_step (order : InsertOrder) (acc : nat * list string)
  : Store (nat * list string) :=
  let '(imported, duplicateIds) := acc in
  existing ← getOrderByItemId (orderItemId order);
  match existing with
  | Some _ => mret (imported, duplicateIds ++ [orderItemId order])
  | None => dbInsert order;; mret (S imported, duplicateIds)
  end.

Definition createOrders (orderList : list InsertOrder) : Store ImportReport :=
  acc ← forEach orderList createOrders_step (0%nat, []);
  mret {| imported := acc.1;
          duplicates := List.length acc.2;
          duplicateIds := acc.2 |}.

(** [db.update(orders).set(updateData).where(eq(orders.id, i)).returning()],
    for an [updateData] of the declared type: refused when the new
    [quantity] is outside the [integer] column, and when the new
    [orderItemId] is that of another row. *)
Definition dbUpdate (updateData : Partial.t) (i : Z) : Store (list Order) :=
  fun db =>
    let outOfRange :=
      match Partial.quantity updateData with
      | Some q => negb (int4 q)
      | None => false
      end in
    let clash :=
      match Partial.orderItemId updateData with
      | Some k =>
          existsb (fun o : Order => negb (id o =? i) && String.eqb (orderItemId o) k)
                  (rows db)
      | None => false
      end in
    if outOfRange
    then (inl (OutOfRange (default 0 (Partial.quantity updateData))), db)
    else if clash
    then (inl (UniqueViolation (default "" (Partial.orderItemId updateData))),
          db)
    else
      let rows' :=
        map (fun o => if id o =? i
                      then {| id := id o; fields := applySet updateData o |}
                      else o) (rows db) in
      (inr (List.filter (fun o => id o =? i) rows'),
       {| rows := rows'; nextId := nextId db |}).

(** The status deriver, as [updateOrder] computes it from the merged
    shipping values. *)
Definition deriveStatus (carrier tracking shipDate : option string) : string :=
  if JS.truthy_opt carrier && JS.truthy_opt tracking && JS.truthy_opt shipDate
  then "Versendet"
  else "Offen".

Definition updateOrder (i : Z) (data : Partial.t) : Store (option Order) :=
  let updateData := data in
  found ← gets (selectById i);
  match found : list Order with
  | [] => mret None
  | current :: _ =>
      let carrier :=
        match Partial.shippingCarrier data with
        | Some v => v
        | None => shippingCarrier current
        end in
      let tracking :=
        match Partial.trackingNumber data with
        | Some v => v
        | None => trackingNumber current
        end in
      let shipDate :=
        match Partial.shippingDate data with
        | Some v => v
        | None => shippingDate current
        end in
      let updateData :=
        Partial.set_status (deriveStatus carrier tracking shipDate) updateData in
      returned ← dbUpdate updateData i;
       mret (head returned)
  end.

(** Modelled from the spec: [getAllOrders], the store's [listAll() ->
    Order[]]; [routes.ts] calls it but [storage.ts] does not have it. *)
Definition getAllOrders : Store (list Order) := gets rows.

(** Modelled from the spec: the query of [getOrdersByOrderId], the rows
    whose [orderId] is exactly the reference. *)
Definition selectByOrderId (ref : string) (db : Db) : list Order :=
  List.filter (fun o : Order => String.eqb (orderId o) ref) (rows db).

(** Modelled from the spec: [getOrdersByOrderId], the exact [orderId]
    lookup the reconciler tries first; [routes.ts] calls it but
    [storage.ts] does not have it. *)
Definition getOrdersByOrderId (ref : string) : Store (list Order) :=
  gets (selectByOrderId ref).

(** ** Routes *)

(** What a route answers: the JSON body of a 200, or the message of a 400,
    a 404 or a 500. *)
Inductive Reply (A : Type) :=
  | Json (a : A)
  | BadRequest (message : string)
  | NotFound (message : string)
  | ServerError (message : string).
Arguments Json {A} a.
Arguments BadRequest {A} message.
Arguments NotFound {A} message.
Arguments ServerError {A} message.

(** A route body runs in the store; a thrown error becomes its 500. *)
Definition runRoute {A} (message : string) (m : Store (Reply A)) (db : Db)
  : Reply A * Db :=
  match m db with
  | (inr reply, db') => (reply, db')
  | (inl _, db') => (ServerError message, db')
  end.

Definition noRecords : string :=
  "Keine Datens" +:+ ae +:+ "tze in der Datei gefunden".

(** *** Import orchestrator ([POST /api/orders/import], from the parsed
    records on) *)

Section ImportRoute.
Context {R : Runtime}.

(** The loop over the records: unmappable rows and rows whose
    [orderItemId] was already seen in this file are skipped. *)
Fixpoint collectOrders (p : Platform) (records : list Row)
    (seenInFile : gset string) : list InsertOrder :=
  match records with
  | [] => []
  | r :: rest =>
      let mapped := mapRecord p r in
      if negb (JS.truthy (orderItemId mapped))
         || String.eqb (orderItemId mapped) "ebay-"
      then collectOrders p rest seenInFile
      else if bool_decide (orderItemId mapped ∈ seenInFile)
      then collectOrders p rest seenInFile
      else mapped :: collectOrders p rest ({[orderItemId mapped]} ∪ seenInFile)
  end.

(** [Object.keys(records[0])] *)
Definition firstRecordKeys (records : list Row) : list string :=
  match records with
  | [] => []
  | r :: _ => (map_to_list r).*1
  end.

Definition importOrders (records : list Row) : Db → Reply ImportReport * Db :=
  runRoute "Fehler beim Import der Datei"
    (match records with
     | [] => mret (BadRequest noRecords)
     | _ :: _ =>
         let platform := detectPlatform (firstRecordKeys records) in
         let orderList := collectOrders platform records ∅ in
         result ← createOrders orderList;
          mret (Json result)
     end).

End ImportRoute.

(** *** Fuzzy reconciler ([POST /api/orders/import-shipping], from the
    parsed records on) *)

Record ShippingReport := {
  updated : nat;
  notFound : list string;
  fuzzyMatched : list string;
  ambiguous : list string
}.

Definition emptyReport : ShippingReport :=
  {| updated := 0; notFound := []; fuzzyMatched := []; ambiguous := [] |}.

(** [updated++] *)
Definition countUpdated (rep : ShippingReport) : ShippingReport :=
  {| updated := S (updated rep); notFound := notFound rep;
     fuzzyMatched := fuzzyMatched rep; ambiguous := ambiguous rep |}.

(** [notFound.push(ref)] *)
Definition pushNotFound (ref : string) (rep : ShippingReport) : ShippingReport :=
  {| updated := updated rep; notFound := notFound rep ++ [ref];
     fuzzyMatched := fuzzyMatched rep; ambiguous := ambiguous rep |}.

(** [fuzzyMatched.push(msg)] *)
Definition pushFuzzyMatched (msg : string) (rep : ShippingReport)
  : ShippingReport :=
  {| updated := updated rep; notFound := notFound rep;
     fuzzyMatched := fuzzyMatched rep ++ [msg]; ambiguous := ambiguous rep |}.

(** [ambiguous.push(ref)] *)
Definition pushAmbiguous (ref : string) (rep : ShippingReport)
  : ShippingReport :=
  {| updated := updated rep; notFound := notFound rep;
     fuzzyMatched := fuzzyMatched rep; ambiguous := ambiguous rep ++ [ref] |}.

(** The character class [[\s\-\+]]. *)
Definition phoneNoise (c : ascii) : bool :=
  JS.isWhiteSpace c || JS.eqc "-"%char c || JS.eqc "+"%char c.

(** [x.replace(/[\s\-\+]/g, "")] *)
Definition stripPhone (x : string) : string := JS.removeAll phoneNoise x.

(** The hints of a manifest row, as the route normalises them. *)
Definition csvNameOf (r : Row) : string :=
  JS.toLowerCase (JS.trim (JS.or_else (r !! "Name") "")).
Definition csvPhoneOf (r : Row) : string :=
  stripPhone (JS.trim (JS.or_else (r !! "Tel") "")).
Definition csvOrtOf (r : Row) : string :=
  JS.toLowerCase (JS.trim (JS.or_else (r !! "Ort") "")).
Definition referenzOf (r : Row) : string :=
  JS.trim (JS.or_else (r !! "Referenz") "").

(** The three relaxed predicates of the [candidates] filter. *)
Definition nameMatch (csvName : string) (o : Order) : bool :=
  let fullName := JS.toLowerCase (firstName o +:+ " " +:+ lastName o) in
  JS.truthy csvName && String.eqb fullName csvName.

Definition phoneMatch (csvPhone : string) (o : Order) : bool :=
  let orderPhone := stripPhone (JS.or_else (phone o) "") in
  JS.truthy csvPhone && JS.truthy orderPhone
  && JS.endsWith orderPhone (JS.sliceLast 6 csvPhone)
  && (6 <=? JS.length (JS.sliceLast 6 csvPhone))%nat.

Definition cityMatch (csvOrt : string) (o : Order) : bool :=
  let orderCity := JS.toLowerCase (JS.or_else (city o) "") in
  JS.truthy csvOrt && String.eqb orderCity csvOrt.

(** The callback of [allOrders.filter]. *)
Definition isCandidate (csvName csvPhone csvOrt : string) (o : Order) : bool :=
  let nameMatch := nameMatch csvName o in
  let phoneMatch := phoneMatch csvPhone o in
  let cityMatch := cityMatch csvOrt o in
  if nameMatch && phoneMatch then true
  else if nameMatch && cityMatch then true
  else if phoneMatch && cityMatch then true
  else false.

(** The explanation pushed for a fuzzy match. *)
Definition fuzzyMessage (referenz : string) (c : Order) : string :=
  referenz +:+ " → " +:+ orderId c +:+ " (" +:+ firstName c +:+ " "
  +:+ lastName c +:+ ")".

(** The object the route hands to [updateOrder]. *)
Definition shippingUpdate (carrier trackingNum today : string) : Partial.t :=
  {| Partial.platform := None; Partial.purchaseDate := None;
     Partial.orderId := None; Partial.orderItemId := None;
     Partial.email := None; Partial.phone := None;
     Partial.firstName := None; Partial.lastName := None;
     Partial.street := None; Partial.contactPerson := None;
     Partial.city := None; Partial.postalCode := None;
     Partial.country := None; Partial.sku := None;
     Partial.productName := None; Partial.quantity := None;
     Partial.price := None; Partial.shippingCost := None;
     Partial.customerType := None;
     Partial.shippingCarrier := Some (JS.or_null carrier);
     Partial.trackingNumber := Some (JS.or_null trackingNum);
     Partial.shippingDate := Some (Some today);
     Partial.shipper := Some (Some "LogoiX");
     Partial.status := None |}.

(** The inner loop: every matching order is updated and counted. *)
Definition updateMatching (carrier trackingNum today : string)
    (matchingOrders : list Order) (rep : ShippingReport)
  : Store ShippingReport :=
  forEach matchingOrders
    (fun order rep =>
       updateOrder (id order) (shippingUpdate carrier trackingNum today);;
       mret (countUpdated rep))
    rep.

(** One turn of the loop over the manifest rows.  [today] is the date
    stamp taken when the route starts, [allOrders] the order set read
    before the loop. *)
Definition shipRow (today : string) (allOrders : list Order) (r : Row)
    (rep : ShippingReport) : Store ShippingReport :=
  let referenz := referenzOf r in
  if negb (JS.truthy referenz) then mret rep
  else
    let trackingNum := JS.trim (JS.or_else (r !! "Paketnummer Lieferant") "") in
    let carrier := JS.trim (JS.or_else (r !! "Lieferant") "") in
    let csvName := csvNameOf r in
    let csvPhone := csvPhoneOf r in
    let csvOrt := csvOrtOf r in
    matchingOrders ← getOrdersByOrderId referenz;
    let finish (matchingOrders : list Order) (rep : ShippingReport) :=
      match matchingOrders with
      | [] => mret (pushNotFound referenz rep)
      | _ :: _ => updateMatching carrier trackingNum today matchingOrders rep
      end in
    if (List.length matchingOrders =? 0)%nat
       && (JS.truthy csvName || JS.truthy csvPhone)
    then
      let candidates :=
        List.filter (isCandidate csvName csvPhone csvOrt) allOrders in
      match candidates with
      | [c] => finish candidates (pushFuzzyMatched (fuzzyMessage referenz c) rep)
      | _ :: _ :: _ => mret (pushAmbiguous referenz rep)
      | [] => finish matchingOrders rep
      end
    else finish matchingOrders rep.

Definition importShipping (today : string) (records : list Row)
  : Db → Reply ShippingReport * Db :=
  runRoute "Fehler beim Import der Versandliste"
    (match records with
     | [] => mret (BadRequest noRecords)
     | _ :: _ =>
         allOrders ← getAllOrders;
         rep ← forEach records (shipRow today allOrders) emptyReport;
         mret (Json rep)
     end).

(** *** [PATCH /api/orders/:id], for the parsed id [i] and the request
    body [body] *)

(** The body of a PATCH request.  [updateOrder] declares its payload as
    [Partial<InsertOrder>], but the route hands it [req.body] as it was
    parsed.  [Typed data] is a body of the declared type: its keys are
    keys of [InsertOrder], a text column holds a string (or [null], when
    the column is nullable) and [quantity] holds an integer.  [Untyped
    json] is any other body (one with a key [id], with a number or a
    boolean in a text column, ...), given as its JSON text. *)
Inductive Body :=
  | Typed (data : Partial.t)
  | Untyped (json : string).

(** What the query builder, the database driver and the table make of
    [updateOrder] on a body that is not of the declared type is not
    modelled: it is a parameter of the route. *)
Class Driver := {
  updateUntyped : Z → string → Store (option Order)
}.

(** A driver for the examples: it finds no row. *)
Definition idleDriver : Driver :=
  {| updateUntyped := fun _ _ => mret None |}.

Section PatchRoute.
Context {D : Driver}.

(** [storage.updateOrder(id, req.body)] *)
Definition updateOrderRaw (i : Z) (body : Body) : Store (option Order) :=
  match body with
  | Typed data => updateOrder i data
  | Untyped json => updateUntyped i json
  end.

Definition patchOrder (i : Z) (body : Body) : Db → Reply Order * Db :=
  runRoute "Fehler beim Aktualisieren"
    (updated ← updateOrderRaw i body;
     match updated : option Order with
     | None => mret (NotFound "Bestellung nicht gefunden")
     | Some o => mret (Json o)
     end).

End PatchRoute.

(** ** Remote order client: rate-limit backoff ([fetchWithRetry]) *)

Module Net.

Record Response := {
  status : Z;
  body : string
}.

(** What the client does to the outside: a request and a blocking wait.
    The warning it prints before a wait is not recorded. *)
Inductive Event :=
  | Requested (url : string)
  | Slept (ms : Z).

(** The remote service answers the [n]-th request of the run to [url] with
    [server url n]; [requests] counts the requests made so far and [log]
    records the events in order. *)
Record World := {
  server : string → nat → Response;
  requests : nat;
  log : list Event
}.

Abbreviation IO := (M World string).

(** [await fetch(url, options)], for a request that is answered.  A
    request that fails before an answer arrives, where [fetch] itself
    throws, is not modelled. *)
Definition fetch (url : string) : IO Response :=
  fun w =>
    (inr (server w url (requests w)),
     {| server := server w; requests := S (requests w);
        log := log w ++ [Requested url] |}).

(** [await sleep(ms)] *)
Definition sleep (ms : Z) : IO unit :=
  modify (fun w => {| server := server w; requests := requests w;
                      log := log w ++ [Slept ms] |}).

Definition rateLimitError : string :=
  "Rate limit: Zu viele Anfragen an die Amazon API. Bitte sp" +:+ ae
  +:+ "ter erneut versuchen.".

(** The [for] loop of [fetchWithRetry] from [attempt] on, with
    [remaining = maxRetries - attempt] turns left. *)
Fixpoint retryLoop (url : string) (remaining attempt : nat) : IO Response :=
  match remaining with
  | O => throw rateLimitError
  | S remaining' =>
      res ← fetch url;
      if status res =? 429
      then
        let waitTime := 2 ^ Z.of_nat attempt * 2000 in
        sleep waitTime;;
        retryLoop url remaining' (S attempt)
      else mret res
  end.

Definition fetchWithRetry (url : string) (maxRetries : nat) : IO Response :=
  retryLoop url maxRetries 0.

(** The default of the parameter [maxRetries]. *)
Definition defaultMaxRetries : nat := 3.

End Net.

(** ** The rest of the order store and of the routes *)

(** [deleteOrder]: the rows with the id are deleted; the answer is [true]
    whether or not there was one. *)
Definition deleteOrder (i : Z) : Store bool :=
  fun db =>
    (inr true,
     {| rows := List.filter (fun o => negb (id o =? i)) (rows db);
        nextId := nextId db |}).

(** The body [{ success: true }]. *)
Record Success := { success : bool }.

(** [DELETE /api/orders/:id], for the parsed id [i]. *)
Definition deleteOrderRoute (i : Z) : Db → Reply Success * Db :=
  runRoute ("Fehler beim L" +:+ String (ascii_of_nat 246) "" +:+ "schen")
    (deleteOrder i;; mret (Json {| success := true |})).

(** The sequence of the [serial] key has [n] values left, and no stored
    [id] lies at or above its next value. *)
Definition serialRoom (n : nat) (db : Db) : Prop :=
  -2147483648 ≤ nextId db
  ∧ nextId db + Z.of_nat n ≤ 2147483648
  ∧ Forall (fun o => id o < nextId db) (rows db).

(** What the table and [updateOrder] keep true of a stored row: its
    status is the one derived from its own shipping fields. *)
Definition statusConsistent (o : InsertOrder) : Prop :=
  status o
  = deriveStatus (shippingCarrier o) (trackingNumber o) (shippingDate o).

(** The state of the table that the schema and the code maintain: the
    primary keys are pairwise different and below the next serial value,
    the [orderItemId]s are pairwise different, and every status is the
    derived one. *)
Record StoreInv (db : Db) : Prop := {
  inv_ids : NoDup (map id (rows db));
  inv_serial : Forall (fun o => id o < nextId db) (rows db);
  inv_keys : NoDup (map (fun o : Order => orderItemId o) (rows db));
  inv_status : Forall (fun o : Order => statusConsistent o) (rows db)
}.

(** The requests that write to the table. *)
Inductive Request :=
  | ImportFile (records : list Row)
  | ImportShipping (today : string) (records : list Row)
  | PatchOrder (i : Z) (body : Body)
  | DeleteOrder (i : Z).

Section Server.
Context {R : Runtime} {D : Driver}.

(** The table after a request. *)
Definition serve (db : Db) (q : Request) : Db :=
  match q with
  | ImportFile records => (importOrders records db).2
  | ImportShipping today records => (importShipping today records db).2
  | PatchOrder i body => (patchOrder i body db).2
  | DeleteOrder i => (deleteOrderRoute i db).2
  end.

End Server.

(** Everything in a stored row except the four shipping fields and the
    status: what a shipping update has no business changing. *)
Definition identityOf (o : Order) :=
  (id o,
   (platform o, purchaseDate o, orderId o, orderItemId o),
   (email o, phone o, firstName o, lastName o),
   (street o, contactPerson o, city o, postalCode o, country o),
   (sku o, productName o, quantity o, price o, shippingCost o, customerType o)).

(** The time a run of the client has spent in [sleep], in milliseconds. *)
Definition waited (events : list Net.Event) : Z :=
  fold_right (fun e total =>
                match e with
                | Net.Slept ms => ms + total
                | Net.Requested _ => total
                end) 0 events.

(** ** Remote order client: the login token and the orders call
    ([getAccessToken], [callOrdersApi]) *)

Module Client.

(** [process.env], for the three secrets the client reads. *)
Record Env := {
  AMAZON_SP_REFRESH_TOKEN : option string;
  AMAZON_SP_CLIENT_ID : option string;
  AMAZON_SP_CLIENT_SECRET : option string
}.

(** What the client reads of the body of a login answer:
    [data.access_token], a string when present, and [data.expires_in], a
    whole number, [None] when it is absent (the arithmetic on it then
    gives [NaN]). *)
Record TokenReply := {
  access_token : option string;
  expires_in : option Z
}.

(** [await res.json()] on the body of a login answer: the decoded body,
    or the message of the error that is thrown when the body is not
    JSON. *)
Class Wire := {
  json : string → string + TokenReply
}.

(** The state a call runs in: the network, the environment, the clock
    ([Date.now()] answers [clock n] at its [n]-th reading) and the two
    module variables [cachedAccessToken] and [tokenExpiresAt].  A number
    that may be [NaN] is an [option Z]. *)
Record State := {
  world : Net.World;
  env : Env;
  clock : nat → Z;
  clockReads : nat;
  cachedAccessToken : option string;
  tokenExpiresAt : option Z
}.

Abbreviation IO := (M State string).

(** A network action, run on the network of the state. *)
Definition lift {A} (m : Net.IO A) : IO A :=
  fun s =>
    let '(r, w) := m (world s) in
    (r, {| world := w; env := env s; clock := clock s;
           clockReads := clockReads s;
           cachedAccessToken := cachedAccessToken s;
           tokenExpiresAt := tokenExpiresAt s |}).

(** [Date.now()] *)
Definition dateNow : IO Z :=
  fun s =>
    (inr (clock s (clockReads s)),
     {| world := world s; env := env s; clock := clock s;
        clockReads := S (clockReads s);
        cachedAccessToken := cachedAccessToken s;
        tokenExpiresAt := tokenExpiresAt s |}).

(** The assignment to the two module variables. *)
Definition setToken (token : option string) (expires : option Z) : IO unit :=
  modify (fun s =>
            {| world := world s; env := env s; clock := clock s;
               clockReads := clockReads s;
               cachedAccessToken := token;
               tokenExpiresAt := expires |}).

Definition invalidateAccessToken : IO unit := setToken None (Some 0).

(** [a < b] on numbers, [false] when [b] is [NaN]. *)
Definition lessThan (a : Z) (b : option Z) : bool :=
  match b with Some b => a <? b | None => false end.

(** [res.ok] *)
Definition ok (res : Net.Response) : bool :=
  (200 <=? Net.status res) && (Net.status res <=? 299).

Definition SP_API_EU_ENDPOINT : string :=
  "https://sellingpartnerapi-eu.amazon.com".
Definition LWA_TOKEN_ENDPOINT : string :=
  "https://api.amazon.com/auth/o2/token".

Definition credentialsMissing : string :=
  "Amazon API Zugangsdaten fehlen. Bitte AMAZON_SP_CLIENT_ID, "
  +:+ "AMAZON_SP_CLIENT_SECRET und AMAZON_SP_REFRESH_TOKEN in den Secrets "
  +:+ "konfigurieren.".

Definition loginRefused (status : Z) : string :=
  "Amazon Login-Fehler (" +:+ pretty status +:+ "): Zugangsdaten ung" +:+ ue
  +:+ "ltig. Bitte Client ID, Client Secret und Refresh Token pr" +:+ ue
  +:+ "fen.".

Definition noAccessToken : string :=
  "Amazon Login hat kein Access Token zur" +:+ ue +:+ "ckgegeben.".

Section WithWire.
Context {W : Wire}.

(** The test [!forceRefresh && cachedAccessToken && Date.now() <
    tokenExpiresAt]; the clock is read only when the first two hold. *)
Definition tokenValid (forceRefresh : bool) : IO bool :=
  cached ← gets cachedAccessToken;
  if negb forceRefresh && JS.truthy_opt cached
  then now ← dateNow;
       expires ← gets tokenExpiresAt;
       mret (lessThan now expires)
  else mret false.

(** The request body, the headers and the console output are not part
    of the model of the network. *)
Definition getAccessToken (forceRefresh : bool) : IO string :=
  valid ← tokenValid forceRefresh;
  cached ← gets cachedAccessToken;
  if (valid : bool) then mret (default "" cached)
  else
    invalidateAccessToken;;
    refreshToken ←
      gets (fun s => JS.or_else (AMAZON_SP_REFRESH_TOKEN (env s)) "");
    clientId ← gets (fun s => JS.or_else (AMAZON_SP_CLIENT_ID (env s)) "");
    clientSecret ←
      gets (fun s => JS.or_else (AMAZON_SP_CLIENT_SECRET (env s)) "");
    if negb (JS.truthy refreshToken) || negb (JS.truthy clientId)
       || negb (JS.truthy clientSecret)
    then throw credentialsMissing
    else
      res ← lift (Net.fetch LWA_TOKEN_ENDPOINT);
      if negb (ok res) then throw (loginRefused (Net.status res))
      else
        match json (Net.body res) with
        | inl syntaxError => throw syntaxError
        | inr data =>
            if negb (JS.truthy_opt (access_token data))
            then throw noAccessToken
            else
              now ← dateNow;
              setToken (access_token data)
                       ((fun seconds => now + (seconds - 60) * 1000)
                          <$> expires_in data);;
              mret (default "" (access_token data))
        end.

(** [callOrdersApi(token, params)], for the query string [query] that
    [params.toString()] gives. *)
Definition callOrdersApi (token query : string) : IO Net.Response :=
  let url := SP_API_EU_ENDPOINT +:+ "/orders/v0/orders?" +:+ query in
  res ← lift (Net.fetchWithRetry url Net.defaultMaxRetries);
  if Net.status res =? 403
  then
    freshToken ← getAccessToken true;
    lift (Net.fetchWithRetry url Net.defaultMaxRetries)
  else mret res.

End WithWire.

End Client.

(** A stored row after the update of the manifest route, as [updateOrder]
    computes it for the payload [shippingUpdate]: the payload carries all
    three shipping values, so the derived status does not depend on the
    row. *)
Definition shippedRow (carrier trackingNum today : string) (o : Order)
  : Order :=
  {| id := id o;
     fields :=
       applySet
         (Partial.set_status
            (deriveStatus (JS.or_null carrier) (JS.or_null trackingNum)
                          (Some today))
            (shippingUpdate carrier trackingNum today)) o |}.

(** The number of stored orders that a manifest row resolves to, for the
    order set [allOrders] read before the loop and the table [db]: none
    for a row without reference; the orders whose order number is the
    reference, when there are any; else the candidate of the relaxed
    match, when there is exactly one.  This is the measure in which the
    counter [updated] is stated below; the route computes no such
    number. *)
Definition resolvedOrders (allOrders : list Order) (db : Db) (r : Row) : nat :=
  if negb (JS.truthy (referenzOf r)) then 0%nat
  else match selectByOrderId (referenzOf r) db with
       | (_ :: _) as matchingOrders => length matchingOrders
       | [] =>
           match List.filter
                   (isCandidate (csvNameOf r) (csvPhoneOf r) (csvOrtOf r))
                   allOrders with
           | [_] => 1%nat
           | _ => 0%nat
           end
       end.

(** ** Sample data for the examples *)

(** A stored Amazon order, open, with the given key, buyer, phone and
    city. *)
Definition sampleOrder (i : Z) (oid itemId first last tel town : string)
  : Order :=
  {| id := i;
     fields :=
       {| platform := "Amazon"; purchaseDate := "2024-03-01T00:00:00.000Z";
          orderId := oid; orderItemId := itemId; email := Some "";
          phone := Some tel; firstName := first; lastName := last;
          street := Some ""; contactPerson := None; city := Some town;
          postalCode := Some ""; country := Some "DE"; sku := Some "";
          productName := Some ""; quantity := 1; price := None;
          shippingCost := None; customerType := "Privat";
          shippingCarrier := None; trackingNumber := None;
          shippingDate := None; shipper := None; status := "Offen" |} |}.

(** A row of a shipping manifest. *)
Definition manifestRow (ref carrier parcel name tel town : string) : Row :=
  <["Referenz" := ref]> (<["Lieferant" := carrier]>
  (<["Paketnummer Lieferant" := parcel]> (<["Name" := name]>
  (<["Tel" := tel]> (<["Ort" := town]> ∅))))).

(** A row of an Amazon export with the given line-item id, recipient and
    quantity text. *)
Definition amazonRow (itemId name qty : string) : Row :=
  <["order-item-id" := itemId]> (<["order-id" := "302-1"]>
  (<["recipient-name" := name]> (<["ship-country" := "DE"]>
  (<["quantity-purchased" := qty]> ∅)))).

(** A row of an eBay export that already carries a shipping service and a
    parcel number. *)
Definition ebayRow (salesRecord service parcel qty : string) : Row :=
  <["Verkaufsprotokollnummer" := salesRecord]>
  (<["Bestellnummer" := "12-0001"]> (<["Versandservice" := service]>
  (<["Sendungsnummer" := parcel]> (<["Anzahl" := qty]> ∅)))).

(** An order and a line item as the remote API returns them. *)
Definition remoteOrder : AmazonOrder :=
  {| AmazonOrderId := "302-7"; PurchaseDate := "2024-03-01T10:00:00Z";
     OrderStatus := "Unshipped"; buyerInfo := None; shippingAddress := None |}.

Definition remoteItem : AmazonOrderItem :=
  {| OrderItemId := "7001"; SellerSKU := Some "SKU-1"; Title := None;
     QuantityOrdered := 2; ItemPrice := None; ItemTax := None;
     ShippingPrice := None |}.

(** A store with two open orders of two buyers in the same city. *)
Definition sampleDb : Db :=
  {| rows :=
       [ sampleOrder 1 "A-1" "A-1-1" "Erika" "Muster" "0171 8812345" "Berlin";
         sampleOrder 2 "A-2" "A-2-1" "Hans" "Meier" "030 5550199" "Berlin" ];
     nextId := 3 |}.

(** A request body that sets a carrier and a shipping date and asks for
    the status [Versendet]. *)
Definition statusBody : Partial.t :=
  Partial.set_status "Versendet"
    (shippingUpdate "DHL" "" "2024-01-01").

(** A service that answers every request with 429, and one that answers
    the first two requests with 429 and the following ones with 200. *)
Definition throttled : Net.World :=
  {| Net.server := fun _ _ => {| Net.status := 429; Net.body := "" |};
     Net.requests := 0;
     Net.log := [] |}.

Definition busyTwice : Net.World :=
  {| Net.server := fun _ n =>
       {| Net.status := if (n <? 2)%nat then 429 else 200;
          Net.body := "{}" |};
     Net.requests := 0;
     Net.log := [] |}.

(** A manifest row for an unknown reference that agrees with the orders
    of [sampleDb] on the city only. *)
Definition cityOnlyRow : Row :=
  manifestRow "R-77" "DHL" "00340434161094042557" "Max Muster"
    "+49 171-9912345" "Berlin".

(** Two manifest rows, two parcels, for the one order number [A-1]. *)
Definition twoParcels : list Row :=
  [ manifestRow "A-1" "DHL" "00340434161094042557" "Erika Muster" "" "Berlin";
    manifestRow "A-1" "DHL" "00340434161094042564" "Erika Muster" "" "Berlin" ].

(** The empty table. *)
Definition emptyDb : Db := {| rows := []; nextId := 1 |}.

(** The parsed records of an Amazon export with two line items. *)
Definition twoItems : list Row :=
  [ amazonRow "A1-X" "Jane Doe" "1"; amazonRow "A1-Y" "John Roe" "2" ].

(** A manifest row and a stored order whose phone numbers are written
    with a slash and differ in the digit before it. *)
Definition slashRow : Row :=
  manifestRow "R-78" "DHL" "00340434161094042571" "Max Muster" "031/12345"
    "Potsdam".

Definition slashOrder : Order :=
  sampleOrder 3 "A-3" "A-3-1" "Erika" "Muster" "030/12345" "Berlin".

(** A store in which two buyers have the same name and live in the same
    city, and a manifest row for an unknown reference that names them. *)
Definition namesakes : Db :=
  {| rows :=
       [ sampleOrder 1 "A-1" "A-1-1" "Erika" "Muster" "0171 8812345" "Berlin";
         sampleOrder 2 "A-2" "A-2-1" "Erika" "Muster" "030 5550199" "Berlin" ];
     nextId := 3 |}.

Definition namesakeRow : Row :=
  manifestRow "R-79" "DHL" "00340434161094042588" "Erika Muster" "" "Berlin".

(** A manifest row for an unknown reference that names one buyer of
    [sampleDb] and the city. *)
Definition hansRow : Row :=
  manifestRow "R-80" "DHL" "00340434161094042595" " Hans MEIER " "" "berlin".

(** A runtime that reads the text [1999] as the number 1999 and no other
    text as a number or a date. *)
Definition centsRuntime : Runtime :=
  {| Date_toISOString := fun _ => None;
     parseFloat_toFixed :=
       fun s => if String.eqb s "1999" then Some "1999.00" else None |}.

(** A request body of the declared type that asks for the line-item key
    of the other order of [sampleDb] and carries a carrier, a tracking
    number and a shipping date. *)
Definition clashBody : Partial.t :=
  {| Partial.platform := None; Partial.purchaseDate := None;
     Partial.orderId := None; Partial.orderItemId := Some "A-2-1";
     Partial.email := None; Partial.phone := None;
     Partial.firstName := None; Partial.lastName := None;
     Partial.street := None; Partial.contactPerson := None;
     Partial.city := None; Partial.postalCode := None;
     Partial.country := None; Partial.sku := None;
     Partial.productName := None; Partial.quantity := None;
     Partial.price := None; Partial.shippingCost := None;
     Partial.customerType := None;
     Partial.shippingCarrier := Some (Some "DHL");
     Partial.trackingNumber := Some (Some "00340434161094042557");
     Partial.shippingDate := Some (Some "2024-03-05");
     Partial.shipper := None;
     Partial.status := None |}.

(** A request body of the declared type with a quantity that the column
    cannot hold and with a carrier, a tracking number and a shipping
    date. *)
Definition bulkBody : Partial.t :=
  {| Partial.platform := None; Partial.purchaseDate := None;
     Partial.orderId := None; Partial.orderItemId := None;
     Partial.email := None; Partial.phone := None;
     Partial.firstName := None; Partial.lastName := None;
     Partial.street := None; Partial.contactPerson := None;
     Partial.city := None; Partial.postalCode := None;
     Partial.country := None; Partial.sku := None;
     Partial.productName := None; Partial.quantity := Some 3000000000;
     Partial.price := None; Partial.shippingCost := None;
     Partial.customerType := None;
     Partial.shippingCarrier := Some (Some "DHL");
     Partial.trackingNumber := Some (Some "00340434161094042557");
     Partial.shippingDate := Some (Some "2024-03-05");
     Partial.shipper := None;
     Partial.status := None |}.

(** A day of requests: a file import, a manifest import, a PATCH with a
    body of the declared type and a DELETE. *)
Definition sampleRequests : list Request :=
  [ ImportFile twoItems;
    ImportShipping "2024-03-05" twoParcels;
    PatchOrder 1 (Typed statusBody);
    DeleteOrder 2 ].

(** A manifest with two rows for the order number [A-1], two rows that
    name the buyer of the order [A-2] under an unknown reference, and one
    row that agrees with the stored orders on the city only. *)
Definition mixedParcels : list Row :=
  twoParcels ++ [hansRow; hansRow; cityOnlyRow].

(** * Part II: lemmas and theorems *)

(** ** JavaScript strings *)

Lemma chars_str l : JS.chars (JS.str l) = l.
Proof. apply String.list_ascii_of_string_of_list_ascii. Qed.

Lemma str_chars s : JS.str (JS.chars s) = s.
Proof. apply String.string_of_list_ascii_of_string. Qed.

Lemma truthy_nonempty s : JS.truthy s = true ↔ s ≠ "".
Proof. destruct s; cbn; split; congruence. Qed.

Lemma truthy_length s : JS.truthy s = true ↔ (0 < JS.length s)%nat.
Proof. destruct s; cbn; split; (congruence || lia). Qed.

Lemma eqc_true c x : JS.eqc c x = true ↔ x = c.
Proof. unfold JS.eqc. destruct (ascii_dec x c); split; congruence. Qed.

Lemma includesChar_elem_of s c : JS.includesChar s c = true ↔ c ∈ JS.chars s.
Proof.
  unfold JS.includesChar. rewrite existsb_exists, list_elem_of_In. split.
  - intros (x & Hx & ->%eqc_true). done.
  - intros H. exists c. by rewrite eqc_true.
Qed.

Lemma countMatches_count_occ s c :
  JS.countMatches s c = count_occ ascii_dec (JS.chars s) c.
Proof.
  unfold JS.countMatches, JS.eqc.
  induction (JS.chars s) as [|x l IH]; [done|].
  cbn. destruct (ascii_dec x c); cbn; by rewrite IH.
Qed.

Lemma endsWith_suffix s t :
  JS.endsWith s t = true ↔ JS.chars t `suffix_of` JS.chars s.
Proof.
  unfold JS.endsWith.
  rewrite andb_true_iff, Nat.leb_le, bool_decide_eq_true. split.
  - intros [Hlen Hd].
    exists (take (length (JS.chars s) - length (JS.chars t)) (JS.chars s)).
    rewrite <- Hd at 2. by rewrite take_drop.
  - intros [k Hk]. rewrite Hk, length_app. split; [lia|].
    replace (length k + length (JS.chars t) - length (JS.chars t))%nat
      with (length k) by lia.
    by rewrite drop_app_length.
Qed.

Lemma sliceLast_suffix n s :
  JS.chars (JS.sliceLast n s) `suffix_of` JS.chars s.
Proof. unfold JS.sliceLast. rewrite chars_str. apply suffix_drop. Qed.

Lemma sliceLast_length n s :
  JS.length (JS.sliceLast n s) = Nat.min n (JS.length s).
Proof. unfold JS.sliceLast, JS.length. rewrite chars_str, length_drop. lia. Qed.

(** Two suffixes of one list that have the same length are equal. *)
Lemma suffix_same_length {A} (s1 s2 l : list A) :
  s1 `suffix_of` l → s2 `suffix_of` l → length s1 = length s2 → s1 = s2.
Proof.
  intros [k1 H1] [k2 H2] Hlen.
  assert (length k1 = length k2) as Hk.
  { apply (f_equal length) in H1, H2. rewrite length_app in H1, H2. lia. }
  rewrite H1 in H2. by apply app_inj_1 in H2 as [_ ?].
Qed.

(** ** Delimiter detection *)

Example detectDelimiter_tab_and_commas :
  detectDelimiter ("a,b,c" +:+ TABs +:+ "d;e") = TABs.
Proof. reflexivity. Qed.

Example detectDelimiter_tie : detectDelimiter "a;b,c" = ",".
Proof. reflexivity. Qed.

(** C7.  A header line that contains a tab is tab-delimited, however many
    commas and semicolons it has; a header line without a tab is
    semicolon-delimited when it has more semicolons than commas and
    comma-delimited otherwise. *)
Theorem detectDelimiter_spec (firstLine : string) :
  let commas := count_occ ascii_dec (JS.chars firstLine) ","%char in
  let semicolons := count_occ ascii_dec (JS.chars firstLine) ";"%char in
  (JS.TAB ∈ JS.chars firstLine → detectDelimiter firstLine = TABs)
  ∧ (JS.TAB ∉ JS.chars firstLine → (commas < semicolons)%nat →
     detectDelimiter firstLine = ";")
  ∧ (JS.TAB ∉ JS.chars firstLine → (semicolons ≤ commas)%nat →
     detectDelimiter firstLine = ",").
Proof.
  cbn zeta. unfold detectDelimiter.
  rewrite !countMatches_count_occ.
  destruct (JS.includesChar firstLine JS.TAB) eqn:Htab.
  - apply includesChar_elem_of in Htab. repeat split; done.
  - assert (JS.TAB ∉ JS.chars firstLine) as Hno.
    { rewrite <- includesChar_elem_of. congruence. }
    repeat split; try done.
    + intros _ Hlt. apply Nat.ltb_lt in Hlt. by rewrite Hlt.
    + intros _ Hle. apply Nat.ltb_ge in Hle. by rewrite Hle.
Qed.

Lemma detectDelimiter_spec_witness :
  detectDelimiter ("id,name;x" +:+ TABs +:+ "a,b,c;d") = TABs
  ∧ detectDelimiter "id;name;city,zip" = ";"
  ∧ detectDelimiter "id;name,city" = ",".
Proof.
  split; [|split].
  - apply (proj1 (detectDelimiter_spec _)). compute_done.
  - apply (proj1 (proj2 (detectDelimiter_spec _))); [compute_done|].
    vm_compute. lia.
  - apply (proj2 (proj2 (detectDelimiter_spec _))); [compute_done|].
    vm_compute. lia.
Defined.

(** ** Fuzzy reconciler: the phone predicate *)

Lemma filter_dropWhile (keep drop_ : ascii → bool) l :
  (∀ c, drop_ c = true → keep c = false) →
  List.filter keep (JS.dropWhile drop_ l) = List.filter keep l.
Proof.
  intros Hd. induction l as [|c l IH]; [done|].
  cbn. destruct (drop_ c) eqn:Hc; [|done].
  by rewrite (Hd c Hc).
Qed.

Lemma filter_rev (keep : ascii → bool) l :
  List.filter keep (rev l) = rev (List.filter keep l).
Proof.
  induction l as [|c l IH]; [done|].
  cbn. rewrite List.filter_app, IH. cbn.
  destruct (keep c); cbn; [done|]. by rewrite app_nil_r.
Qed.

(** Trimming before the noise is removed changes nothing: white space is
    part of the noise. *)
Lemma stripPhone_trim x : stripPhone (JS.trim x) = stripPhone x.
Proof.
  unfold stripPhone, JS.removeAll, JS.trim. rewrite chars_str. f_equal.
  assert (∀ c, JS.isWhiteSpace c = true → negb (phoneNoise c) = false) as Hws.
  { intros c Hc. unfold phoneNoise. by rewrite Hc. }
  rewrite filter_rev, filter_dropWhile, filter_rev, rev_involutive by done.
  by rewrite filter_dropWhile.
Qed.

Lemma stripPhone_chars x :
  JS.chars (stripPhone x) =
  List.filter (fun c => negb (phoneNoise c)) (JS.chars x).
Proof. unfold stripPhone, JS.removeAll. apply chars_str. Qed.

(** The predicate on the two normalised numbers: a block of six code units
    ends both. *)
Lemma phoneMatch_iff (csvPhone : string) (o : Order) :
  phoneMatch csvPhone o = true ↔
  ∃ six, length six = 6%nat
         ∧ six `suffix_of` JS.chars csvPhone
         ∧ six `suffix_of` JS.chars (stripPhone (JS.or_else (phone o) "")).
Proof.
  unfold phoneMatch. set (p := stripPhone _).
  rewrite !andb_true_iff, Nat.leb_le, endsWith_suffix, !truthy_length.
  split.
  - intros [[[_ _] Hends] Hlen].
    exists (JS.chars (JS.sliceLast 6 csvPhone)). split; [|split].
    + pose proof (sliceLast_length 6 csvPhone) as Hl.
      unfold JS.length in *. lia.
    + apply sliceLast_suffix.
    + done.
  - intros (six & Hlen & Hc & Hp).
    pose proof (suffix_length _ _ Hc) as Hlc.
    pose proof (suffix_length _ _ Hp) as Hlp.
    pose proof (sliceLast_length 6 csvPhone) as Hl.
    unfold JS.length in *.
    assert (JS.chars (JS.sliceLast 6 csvPhone) = six) as ->.
    { apply (suffix_same_length _ _ (JS.chars csvPhone));
        [apply sliceLast_suffix | done | lia]. }
    repeat split; (done || lia).
Qed.

(** When the last six code units differ, or one list is shorter than six,
    every common suffix has at most five code units. *)
Lemma common_suffix_short {A} (c p : list A) :
  drop (length c - 6) c ≠ drop (length p - 6) p
  ∨ (length c < 6)%nat ∨ (length p < 6)%nat →
  ∀ s, s `suffix_of` c → s `suffix_of` p → (length s ≤ 5)%nat.
Proof.
  intros Hdiff s Hc Hp.
  destruct (decide (length s ≤ 5)%nat) as [|Hlong]; [done|]. exfalso.
  pose proof (suffix_length _ _ Hc). pose proof (suffix_length _ _ Hp).
  destruct Hdiff as [Hne|[?|?]]; [|lia..]. apply Hne.
  assert (drop (length s - 6) s `suffix_of` s) as Hs by apply suffix_drop.
  trans (drop (length s - 6) s).
  - apply (suffix_same_length _ _ c);
      [apply suffix_drop | by etrans | rewrite !length_drop; lia].
  - apply (suffix_same_length _ _ p);
      [by etrans | apply suffix_drop | rewrite !length_drop; lia].
Qed.

Lemma filter_all {A} (f : A → bool) (l : list A) :
  Forall (fun x => f x = true) l → List.filter f l = l.
Proof.
  induction 1 as [|x l Hx _ IH]; [done|]. cbn. by rewrite Hx, IH.
Qed.

(** C4, as the code has it.  With both numbers stripped of white space,
    hyphens and plus signs, the phone predicate holds exactly when the
    manifest number has at least six characters and a block of six
    characters ends both numbers, whether these characters are digits or
    not; so it never holds for two numbers whose common suffixes all have
    five characters or fewer.  For numbers that consist of digits once
    they are stripped, the six characters are the last six digits. *)
Theorem phoneMatch_last_six (r : Row) (o : Order) :
  let strip x := List.filter (fun c => negb (phoneNoise c)) (JS.chars x) in
  let c := strip (JS.or_else (r !! "Tel") "") in
  let p := strip (JS.or_else (phone o) "") in
  let digits l := List.filter JS.isDigit l in
  (phoneMatch (csvPhoneOf r) o = true ↔
     (6 ≤ length c)%nat
     ∧ ∃ six, length six = 6%nat ∧ six `suffix_of` c ∧ six `suffix_of` p)
  ∧ ((∀ s, s `suffix_of` c → s `suffix_of` p → (length s ≤ 5)%nat) →
     phoneMatch (csvPhoneOf r) o = false)
  ∧ (Forall (fun ch => JS.isDigit ch = true) c →
     Forall (fun ch => JS.isDigit ch = true) p →
     (phoneMatch (csvPhoneOf r) o = true ↔
        (6 ≤ length (digits c))%nat
        ∧ ∃ six, length six = 6%nat
                 ∧ six `suffix_of` digits c ∧ six `suffix_of` digits p)).
Proof.
  cbn zeta. unfold csvPhoneOf.
  rewrite stripPhone_trim, phoneMatch_iff, !stripPhone_chars.
  set (c := List.filter _ (JS.chars (JS.or_else (r !! "Tel") ""))).
  set (p := List.filter _ (JS.chars (JS.or_else (phone o) ""))).
  assert ((∃ six, length six = 6%nat ∧ six `suffix_of` c ∧ six `suffix_of` p)
          ↔ (6 ≤ length c)%nat
            ∧ ∃ six, length six = 6%nat ∧ six `suffix_of` c
                     ∧ six `suffix_of` p) as Hsix.
  { split; [|by intros [_ ?]].
    intros (six & Hlen & Hc & Hp). split; [|by exists six].
    apply suffix_length in Hc. lia. }
  split; [exact Hsix|]. split.
  - intros Hshort.
    destruct (phoneMatch _ o) eqn:Hm; [|done]. exfalso.
    apply phoneMatch_iff in Hm as (six & Hlen & Hc & Hp).
    rewrite !stripPhone_chars in *.
    specialize (Hshort six Hc Hp). lia.
  - intros Hdc Hdp. by rewrite (filter_all _ _ Hdc), (filter_all _ _ Hdp).
Qed.

Lemma phoneMatch_last_six_witness :
  phoneMatch
    (csvPhoneOf (manifestRow "R-1" "DHL" "0034" "Max Muster"
                   "+49 171-9912345" "Berlin"))
    (sampleOrder 1 "A-1" "A-1-1" "Erika" "Muster" "0171 8812345" "Berlin")
  = false.
Proof.
  apply (proj1 (proj2 (phoneMatch_last_six _ _))).
  apply common_suffix_short. left. vm_compute. congruence.
Defined.

Example phoneMatch_six_shared :
  phoneMatch
    (csvPhoneOf (manifestRow "R-1" "DHL" "0034" "Max Muster"
                   "+49 171-9912345" "Berlin"))
    (sampleOrder 1 "A-1" "A-1-1" "Erika" "Muster" "0171 9912345" "Berlin")
  = true.
Proof. reflexivity. Qed.

(** A slash is not stripped and is compared like a digit: the two numbers
    end in the same six characters and the predicate holds, although
    their last six digits, [112345] and [012345], are not the same. *)
Lemma phoneMatch_compares_characters :
  phoneMatch (csvPhoneOf slashRow) slashOrder = true
  ∧ List.filter JS.isDigit (JS.chars (csvPhoneOf slashRow))
    = JS.chars "03112345"
  ∧ List.filter JS.isDigit
      (JS.chars (stripPhone (JS.or_else (phone slashOrder) "")))
    = JS.chars "03012345".
Proof. repeat split. Qed.

Example phoneMatch_short_number :
  phoneMatch
    (csvPhoneOf (manifestRow "R-1" "DHL" "0034" "Max Muster" "12345" "Berlin"))
    (sampleOrder 1 "A-1" "A-1-1" "Erika" "Muster" "12345" "Berlin")
  = false.
Proof. reflexivity. Qed.

(** ** Field mapper *)

Lemma or_else_blank (v : option string) (d : string) :
  v = None ∨ v = Some "" → JS.or_else v d = d.
Proof. by intros [-> | ->]. Qed.

Lemma or_else_text (v : option string) (s d : string) :
  v = Some s → s ≠ "" → JS.or_else v d = s.
Proof. intros -> Hs. cbn. by apply truthy_nonempty in Hs as ->. Qed.

Lemma or_null_text (s : string) : s ≠ "" → JS.or_null s = Some s.
Proof. intros Hs. unfold JS.or_null. by apply truthy_nonempty in Hs as ->. Qed.

Lemma num_or_nonzero (n : option Z) (d : Z) : d ≠ 0 → JS.num_or n d ≠ 0.
Proof. intros Hd. destruct n as [[| |]|]; cbn; lia. Qed.

Lemma num_or_value (v d : Z) : v ≠ 0 → JS.num_or (Some v) d = v.
Proof. destruct v; cbn; congruence. Qed.

(** Unfold a mapper and split the name it destructures, so that the
    fields of the record it builds can be read off. *)
Ltac open_mapper :=
  unfold mapAmazonRecord, mapEbayRecord, mapOrderToSchema;
  repeat match goal with
         | |- context [splitName ?x] => destruct (splitName x)
         end;
  cbn [platform purchaseDate orderId orderItemId quantity shippingCarrier
       trackingNumber shippingDate shipper status].

Section MapperFacts.
Context {R : Runtime}.

(** The quantity an Amazon row maps to, read from the text [s] of its
    quantity column. *)
Lemma amazon_quantity (r : Row) :
  quantity (mapAmazonRecord r) =
  JS.num_or (JS.parseInt (JS.or_else (r !! "quantity-purchased") "1")) 1.
Proof. by open_mapper. Qed.

Lemma ebay_quantity (r : Row) :
  quantity (mapEbayRecord r) =
  JS.num_or
    (JS.parseInt (JS.or_else (r !! "Anzahl") (JS.or_else (r !! "Menge") "1")))
    1.
Proof. by open_mapper. Qed.

(** C8, as the code has it.  The quantity of a mapped row is never [0].
    It is [1] when the quantity column is absent, empty, holds no
    integer or holds the integer [0], and it is the integer the column
    holds when that is not [0] and at most [2^53] in absolute value (up
    to there the number that [parseInt] returns is that integer): at
    least [1] for a positive one, negative for a negative one.  The eBay
    dialect reads the column [Anzahl] and, when that is absent or empty,
    the column [Menge]. *)
Theorem quantity_of_row (r : Row) :
  let blank (v : option string) := v = None ∨ v = Some "" in
  let amazonField (s : string) :=
    r !! "quantity-purchased" = Some s ∧ s ≠ "" in
  let ebayField (s : string) :=
    (r !! "Anzahl" = Some s ∧ s ≠ "")
    ∨ (blank (r !! "Anzahl") ∧ r !! "Menge" = Some s ∧ s ≠ "") in
  (quantity (mapAmazonRecord r) ≠ 0
   ∧ (blank (r !! "quantity-purchased") → quantity (mapAmazonRecord r) = 1)
   ∧ (∀ s, amazonField s → JS.parseInt s = None →
        quantity (mapAmazonRecord r) = 1)
   ∧ (∀ s, amazonField s → JS.parseInt s = Some 0 →
        quantity (mapAmazonRecord r) = 1)
   ∧ (∀ s v, amazonField s → JS.parseInt s = Some v → v ≠ 0 →
        Z.abs v ≤ 2 ^ 53 →
        quantity (mapAmazonRecord r) = v
        ∧ (0 < v → 1 ≤ quantity (mapAmazonRecord r))
        ∧ (v < 0 → quantity (mapAmazonRecord r) < 0)))
  ∧ (quantity (mapEbayRecord r) ≠ 0
     ∧ (blank (r !! "Anzahl") → blank (r !! "Menge") →
          quantity (mapEbayRecord r) = 1)
     ∧ (∀ s, ebayField s → JS.parseInt s = None →
          quantity (mapEbayRecord r) = 1)
     ∧ (∀ s, ebayField s → JS.parseInt s = Some 0 →
          quantity (mapEbayRecord r) = 1)
     ∧ (∀ s v, ebayField s → JS.parseInt s = Some v → v ≠ 0 →
          Z.abs v ≤ 2 ^ 53 →
          quantity (mapEbayRecord r) = v
          ∧ (0 < v → 1 ≤ quantity (mapEbayRecord r))
          ∧ (v < 0 → quantity (mapEbayRecord r) < 0))).
Proof.
  cbn zeta. rewrite amazon_quantity, ebay_quantity.
  split; (split; [by apply num_or_nonzero|]); (split; [|split; [|split]]).
  - intros Hb. by rewrite (or_else_blank _ _ Hb).
  - intros s [Hs Hne] Hp. by rewrite (or_else_text _ _ _ Hs Hne), Hp.
  - intros s [Hs Hne] Hp. by rewrite (or_else_text _ _ _ Hs Hne), Hp.
  - intros s v [Hs Hne] Hp Hv _.
    rewrite (or_else_text _ _ _ Hs Hne), Hp, num_or_value by done. lia.
  - intros Ha Hm. by rewrite (or_else_blank _ _ Ha), (or_else_blank _ _ Hm).
  - intros s [[Hs Hne]|(Ha & Hs & Hne)] Hp.
    + by rewrite (or_else_text _ _ _ Hs Hne), Hp.
    + by rewrite (or_else_blank _ _ Ha), (or_else_text _ _ _ Hs Hne), Hp.
  - intros s [[Hs Hne]|(Ha & Hs & Hne)] Hp.
    + by rewrite (or_else_text _ _ _ Hs Hne), Hp.
    + by rewrite (or_else_blank _ _ Ha), (or_else_text _ _ _ Hs Hne), Hp.
  - intros s v [[Hs Hne]|(Ha & Hs & Hne)] Hp Hv _.
    + rewrite (or_else_text _ _ _ Hs Hne), Hp, num_or_value by done. lia.
    + rewrite (or_else_blank _ _ Ha), (or_else_text _ _ _ Hs Hne), Hp,
        num_or_value by done. lia.
Qed.

(** C3, as the code has it.  The Amazon mapper and the remote mapper
    leave carrier, tracking number and shipping date null and set the
    status [Offen].  The eBay mapper leaves the shipping date null and
    sets the status [Offen]; its carrier and tracking number are the text
    of the columns [Versandservice] and [Sendungsnummer], null when the
    column is absent or empty. *)
Theorem fresh_records_open (r : Row) (order : AmazonOrder)
    (item : AmazonOrderItem) :
  let blank (v : option string) := v = None ∨ v = Some "" in
  let unshipped (o : InsertOrder) :=
    shippingCarrier o = None ∧ trackingNumber o = None
    ∧ shippingDate o = None ∧ status o = "Offen" in
  unshipped (mapAmazonRecord r)
  ∧ unshipped (mapOrderToSchema order item)
  ∧ shippingDate (mapEbayRecord r) = None
  ∧ status (mapEbayRecord r) = "Offen"
  ∧ (blank (r !! "Versandservice") →
       shippingCarrier (mapEbayRecord r) = None)
  ∧ (∀ s, r !! "Versandservice" = Some s → s ≠ "" →
       shippingCarrier (mapEbayRecord r) = Some s)
  ∧ (blank (r !! "Sendungsnummer") →
       trackingNumber (mapEbayRecord r) = None)
  ∧ (∀ s, r !! "Sendungsnummer" = Some s → s ≠ "" →
       trackingNumber (mapEbayRecord r) = Some s).
Proof.
  cbn zeta. repeat apply conj; try by open_mapper.
  - intros Hb. open_mapper. by rewrite (or_else_blank _ _ Hb).
  - intros s Hs Hne. open_mapper.
    rewrite (or_else_text _ _ _ Hs Hne). by apply or_null_text.
  - intros Hb. open_mapper. by rewrite (or_else_blank _ _ Hb).
  - intros s Hs Hne. open_mapper.
    rewrite (or_else_text _ _ _ Hs Hne). by apply or_null_text.
Qed.

End MapperFacts.

Lemma quantity_of_row_witness :
  quantity (mapAmazonRecord (R := noParse) (amazonRow "A1-X" "Jane Doe" ""))
  = 1
  ∧ quantity
      (mapAmazonRecord (R := noParse) (amazonRow "A1-X" "Jane Doe" "n/a"))
    = 1
  ∧ quantity
      (mapAmazonRecord (R := noParse) (amazonRow "A1-X" "Jane Doe" "0"))
    = 1
  ∧ quantity
      (mapEbayRecord (R := noParse) (ebayRow "55" "DHL" "0034" "4 St."))
    = 4.
Proof.
  split; [|split; [|split]].
  - apply (proj1 (proj2 (proj1 (quantity_of_row (R := noParse) _)))).
    right. reflexivity.
  - apply (proj1 (proj2 (proj2 (proj1
             (quantity_of_row (R := noParse) _)))) "n/a").
    + split; [reflexivity | discriminate].
    + reflexivity.
  - apply (proj1 (proj2 (proj2 (proj2 (proj1
             (quantity_of_row (R := noParse) _))))) "0").
    + split; [reflexivity | discriminate].
    + reflexivity.
  - apply (proj2 (proj2 (proj2 (proj2 (proj2
             (quantity_of_row (R := noParse) _))))) "4 St." 4).
    + left. split; [reflexivity | discriminate].
    + reflexivity.
    + lia.
    + vm_compute. discriminate.
Defined.

(** The quantity column of an Amazon row may hold a negative number; the
    mapper keeps it. *)
Lemma quantity_negative_kept :
  quantity
    (mapAmazonRecord (R := noParse) (amazonRow "A1-X" "Jane Doe" "-3"))
  = -3.
Proof. reflexivity. Qed.

Lemma fresh_records_open_witness :
  shippingCarrier
    (mapEbayRecord (R := noParse) (ebayRow "55" "DHL" "" "1"))
  = Some "DHL"
  ∧ trackingNumber
      (mapEbayRecord (R := noParse) (ebayRow "55" "DHL" "" "1"))
    = None.
Proof.
  pose proof (fresh_records_open (R := noParse)
                (ebayRow "55" "DHL" "" "1") remoteOrder remoteItem)
    as (_ & _ & _ & _ & _ & Hcarrier & Htracking & _).
  split.
  - apply Hcarrier; [reflexivity | discriminate].
  - apply Htracking. right. reflexivity.
Defined.

(** An eBay row that names a shipping service and a parcel number maps to
    a candidate that carries both. *)
Lemma ebay_row_carries_shipping :
  shippingCarrier
    (mapEbayRecord (R := noParse)
       (ebayRow "55" "DHL" "00340434161094042557" "1"))
  = Some "DHL"
  ∧ trackingNumber
      (mapEbayRecord (R := noParse)
         (ebayRow "55" "DHL" "00340434161094042557" "1"))
    = Some "00340434161094042557".
Proof. split; reflexivity. Qed.

(** ** Effects *)

Lemma bind_run {S E A B} (m : M S E A) (k : A → M S E B) (s : S) :
  (m ≫= k) s =
  match m s with
  | (inr a, s') => k a s'
  | (inl e, s') => (inl e, s')
  end.
Proof. reflexivity. Qed.

Lemma bind_ok {S E A B} (m : M S E A) (k : A → M S E B) (s s' : S) (a : A) :
  m s = (inr a, s') → (m ≫= k) s = k a s'.
Proof. intros H. by rewrite bind_run, H. Qed.

(** ** Status deriver *)

Lemma truthy_opt_filled (v : option string) :
  JS.truthy_opt v = true ↔ ∃ s, v = Some s ∧ s ≠ "".
Proof.
  destruct v as [s|]; cbn.
  - rewrite truthy_nonempty. split; [eauto|]. by intros (? & [= <-] & ?).
  - split; [done|]. by intros (? & ? & ?).
Qed.

Lemma deriveStatus_cases (c t d : option string) :
  (JS.truthy_opt c && JS.truthy_opt t && JS.truthy_opt d = true
   ∧ deriveStatus c t d = "Versendet")
  ∨ (JS.truthy_opt c && JS.truthy_opt t && JS.truthy_opt d = false
     ∧ deriveStatus c t d = "Offen").
Proof.
  unfold deriveStatus.
  destruct (JS.truthy_opt c && JS.truthy_opt t && JS.truthy_opt d); auto.
Qed.

Lemma deriveStatus_Versendet (c t d : option string) :
  deriveStatus c t d = "Versendet" ↔
  (∃ s, c = Some s ∧ s ≠ "") ∧ (∃ s, t = Some s ∧ s ≠ "")
  ∧ (∃ s, d = Some s ∧ s ≠ "").
Proof.
  rewrite <- !truthy_opt_filled.
  destruct (deriveStatus_cases c t d) as [[Hb ->]|[Hb ->]].
  - apply andb_true_iff in Hb as [[? ?]%andb_true_iff ?]. done.
  - split; [done|]. intros (Hc & Ht & Hd). by rewrite Hc, Ht, Hd in Hb.
Qed.

Lemma deriveStatus_Offen (c t d : option string) :
  deriveStatus c t d = "Offen" ↔
  ¬ ((∃ s, c = Some s ∧ s ≠ "") ∧ (∃ s, t = Some s ∧ s ≠ "")
     ∧ (∃ s, d = Some s ∧ s ≠ "")).
Proof.
  rewrite <- deriveStatus_Versendet.
  destruct (deriveStatus_cases c t d) as [[_ ->]|[_ ->]]; split; done.
Qed.

(** ** Order store: [updateOrder] *)

Lemma filter_map_update (i : Z) (f : Order → InsertOrder) (l : list Order) :
  List.filter (fun o => id o =? i)
    (map (fun o => if id o =? i then {| id := id o; fields := f o |} else o) l)
  = map (fun o => {| id := id o; fields := f o |})
        (List.filter (fun o => id o =? i) l).
Proof.
  induction l as [|o l IH]; [done|].
  cbn. destruct (id o =? i) eqn:Hi; cbn; rewrite ?Hi, IH; done.
Qed.

Lemma selectById_head_id (i : Z) (db : Db) (current : Order) :
  head (selectById i db) = Some current → id current = i ∧ current ∈ rows db.
Proof.
  unfold selectById. intros H.
  assert (In current (List.filter (fun o => id o =? i) (rows db))) as Hin.
  { destruct (List.filter _ _); simplify_eq/=. by left. }
  apply filter_In in Hin as [Hin Hid]. split; [lia|].
  by apply list_elem_of_In.
Qed.

(** The table accepts an update that gives the row neither the
    [orderItemId] of another row nor a quantity outside the column. *)
Lemma dbUpdate_accepts (u : Partial.t) (i : Z) (db : Db) :
  (∀ k (o : Order), Partial.orderItemId u = Some k → o ∈ rows db →
     orderItemId o = k → id o = i) →
  (∀ q, Partial.quantity u = Some q → int4 q = true) →
  dbUpdate u i db =
  (inr (map (fun o => {| id := id o; fields := applySet u o |})
            (selectById i db)),
   {| rows := map (fun o => if id o =? i
                            then {| id := id o; fields := applySet u o |}
                            else o) (rows db);
      nextId := nextId db |}).
Proof.
  intros Hfree Hrange. unfold dbUpdate.
  assert ((match Partial.quantity u with
           | Some q => negb (int4 q)
           | None => false
           end) = false) as ->.
  { destruct (Partial.quantity u) as [q|]; [|done].
    by rewrite (Hrange q eq_refl). }
  assert ((match Partial.orderItemId u with
           | Some k =>
               existsb (fun o : Order =>
                          negb (id o =? i) && String.eqb (orderItemId o) k)
                       (rows db)
           | None => false
           end) = false) as ->.
  { destruct (Partial.orderItemId u) as [k|] eqn:Hk; [|done].
    apply not_true_is_false. intros (o & Hin & Ho)%existsb_exists.
    apply andb_true_iff in Ho as [Hid Heq].
    apply String.eqb_eq in Heq. apply list_elem_of_In in Hin.
    specialize (Hfree k o eq_refl Hin Heq).
    apply negb_true_iff, Z.eqb_neq in Hid. done. }
  by rewrite filter_map_update.
Qed.

(** What [updateOrder] does to an existing order when the table accepts
    the update. *)
Lemma updateOrder_existing (db : Db) (i : Z) (data : Partial.t)
    (current : Order) :
  head (selectById i db) = Some current →
  (∀ k (o : Order), Partial.orderItemId data = Some k → o ∈ rows db →
     orderItemId o = k → id o = i) →
  (∀ q, Partial.quantity data = Some q → int4 q = true) →
  let derived :=
    deriveStatus
      (default (shippingCarrier current) (Partial.shippingCarrier data))
      (default (trackingNumber current) (Partial.trackingNumber data))
      (default (shippingDate current) (Partial.shippingDate data)) in
  let updateData := Partial.set_status derived data in
  let after :=
    {| rows := map (fun o => if id o =? i
                             then {| id := id o;
                                     fields := applySet updateData o |}
                             else o) (rows db);
       nextId := nextId db |} in
  let updated := {| id := i; fields := applySet updateData current |} in
  updateOrder i data db = (inr (Some updated), after)
  ∧ head (selectById i after) = Some updated.
Proof.
  intros Hcur Hfree Hrange. cbn zeta.
  destruct (selectById_head_id _ _ _ Hcur) as [Hid _].
  unfold updateOrder. rewrite bind_run. unfold gets at 1.
  destruct (selectById i db) as [|c rest] eqn:Hsel; simplify_eq/=.
  rewrite bind_run, dbUpdate_accepts by done.
  rewrite Hsel. split; [done|].
  unfold selectById. cbn [rows]. rewrite filter_map_update.
  fold (selectById (id current) db). by rewrite Hsel.
Qed.

(** An update that would give the row the key of another row is refused:
    [updateOrder] throws and the table is as it was. *)
Lemma updateOrder_refused (db : Db) (i : Z) (data : Partial.t)
    (current other : Order) (k : string) :
  head (selectById i db) = Some current →
  (∀ q, Partial.quantity data = Some q → int4 q = true) →
  Partial.orderItemId data = Some k →
  other ∈ rows db → orderItemId other = k → id other ≠ i →
  updateOrder i data db = (inl (UniqueViolation k), db).
Proof.
  intros Hcur Hrange Hk Hin Hkey Hid.
  unfold updateOrder. rewrite bind_run. unfold gets at 1.
  destruct (selectById i db) as [|c rest]; simplify_eq/=.
  rewrite bind_run. unfold dbUpdate.
  cbn [Partial.orderItemId Partial.quantity Partial.set_status].
  assert ((match Partial.quantity data with
           | Some q => negb (int4 q)
           | None => false
           end) = false) as ->.
  { destruct (Partial.quantity data) as [q|]; [|done].
    by rewrite (Hrange q eq_refl). }
  rewrite Hk. cbn [default from_option].
  assert (existsb (fun o : Order =>
                     negb (id o =? i) && String.eqb (orderItemId o)
                                                    (orderItemId other))
                  (rows db) = true) as ->; [|done].
  apply existsb_exists. exists other. split; [by apply list_elem_of_In|].
  apply andb_true_iff. split.
  - by apply negb_true_iff, Z.eqb_neq.
  - by apply String.eqb_eq.
Qed.

(** An update with a quantity that the column cannot hold is refused:
    [updateOrder] throws and the table is as it was. *)
Lemma updateOrder_out_of_range (db : Db) (i : Z) (data : Partial.t)
    (current : Order) (q : Z) :
  head (selectById i db) = Some current →
  Partial.quantity data = Some q → int4 q = false →
  updateOrder i data db = (inl (OutOfRange q), db).
Proof.
  intros Hcur Hq Hrange.
  unfold updateOrder. rewrite bind_run. unfold gets at 1.
  destruct (selectById i db) as [|c rest]; simplify_eq/=.
  rewrite bind_run. unfold dbUpdate.
  cbn [Partial.quantity Partial.set_status].
  by rewrite Hq, Hrange.
Qed.

(** A payload without the keys [orderItemId] and [quantity], such as the
    one of the manifest route, is never refused. *)
Ltac absent_key :=
  intros;
  match goal with
  | H : _ = Some _ |- _ => discriminate H
  end.

(** The update the manifest import issues: the order is [Versendet]
    exactly when the row names a carrier and a parcel number (the date
    stamp is never empty). *)
Lemma manifest_update_status (db : Db) (current : Order)
    (carrier trackingNum today : string) :
  head (selectById (id current) db) = Some current →
  today ≠ "" →
  ∃ (updated : Order) (after : Db),
    updateOrder (id current) (shippingUpdate carrier trackingNum today) db
    = (inr (Some updated), after)
    ∧ (status updated = "Versendet" ↔ carrier ≠ "" ∧ trackingNum ≠ "")
    ∧ (status updated = "Offen" ↔ ¬ (carrier ≠ "" ∧ trackingNum ≠ "")).
Proof.
  intros Hcur Htoday.
  destruct (updateOrder_existing db (id current)
              (shippingUpdate carrier trackingNum today) current Hcur)
    as [Hrun _]; [absent_key..|].
  eexists _, _. split; [exact Hrun|].
  destruct today; [done|].
  destruct carrier, trackingNum; cbn; split; split;
    intuition (discriminate || congruence).
Qed.

(** The row keeps the status [Offen] when the tracking number is
    missing. *)
Example updateOrder_missing_tracking :
  match (updateOrder 1 (shippingUpdate "DHL" "" "2024-01-01") sampleDb).1 with
  | inr (Some updated) => status updated
  | _ => ""
  end = "Offen".
Proof. reflexivity. Qed.

(** A status in the request body never reaches the table: [updateOrder]
    overwrites the key before the update is issued. *)
Lemma updateOrder_status_irrelevant (i : Z) (body : Partial.t) (s : string)
    (db : Db) :
  updateOrder i (Partial.set_status s body) db = updateOrder i body db.
Proof. reflexivity. Qed.

Section StatusFacts.
Context {D : Driver}.


End StatusFacts.



(** ** Remote order client: rate-limit backoff *)

(** The loop from [attempt] on, against a service whose next [k] answers
    are 429: either answer [k] is not 429 and is returned at once, or the
    turns run out and the call throws. *)
Lemma retryLoop_run (url : string) (k : nat) :
  ∀ (remaining attempt : nat) (w : Net.World),
  let failed :=
    flat_map (fun j => [Net.Requested url;
                        Net.Slept (2 ^ Z.of_nat j * 2000)])
             (seq attempt k) in
  (∀ j, (j < k)%nat →
     Net.status (Net.server w url (j + Net.requests w)) = 429) →
  ((k < remaining)%nat →
   Net.status (Net.server w url (k + Net.requests w)) ≠ 429 →
   Net.retryLoop url remaining attempt w =
   (inr (Net.server w url (k + Net.requests w)),
    {| Net.server := Net.server w;
       Net.requests := S (k + Net.requests w);
       Net.log := Net.log w ++ failed ++ [Net.Requested url] |}))
  ∧ (k = remaining →
     Net.retryLoop url remaining attempt w =
     (inl Net.rateLimitError,
      {| Net.server := Net.server w;
         Net.requests := (k + Net.requests w)%nat;
         Net.log := Net.log w ++ failed |})).
Proof.
  induction k as [|k IH]; intros remaining attempt w; cbn zeta; intros H429.
  - split.
    + intros Hlt Hok. destruct remaining as [|remaining]; [lia|].
      cbn [Net.retryLoop]. rewrite bind_run. cbn.
      apply Z.eqb_neq in Hok. cbn in Hok. by rewrite Hok.
    + intros <-. cbn. unfold throw. destruct w. cbn. by rewrite app_nil_r.
  - assert ((Net.status (Net.server w url (Net.requests w)) =? 429) = true)
      as Hfirst.
    { apply Z.eqb_eq. apply (H429 0%nat). lia. }
    set (w1 := {| Net.server := Net.server w;
                  Net.requests := S (Net.requests w);
                  Net.log := (Net.log w ++ [Net.Requested url])
                             ++ [Net.Slept (2 ^ Z.of_nat attempt * 2000)] |}).
    assert (∀ remaining',
              Net.retryLoop url (S remaining') attempt w
              = Net.retryLoop url remaining' (S attempt) w1) as Hstep.
    { intros remaining'. cbn [Net.retryLoop]. rewrite bind_run. cbn.
      rewrite Hfirst. by rewrite bind_run. }
    assert (∀ j, (j < k)%nat →
              Net.status (Net.server w1 url (j + Net.requests w1)) = 429)
      as H429'.
    { intros j Hj. cbn. rewrite <- Nat.add_succ_comm. apply H429. lia. }
    split.
    + intros Hlt Hok. destruct remaining as [|remaining]; [lia|].
      rewrite Hstep.
      destruct (IH remaining (S attempt) w1 H429') as [Hrun _].
      rewrite Hrun; [|lia|cbn; by rewrite <- Nat.add_succ_comm].
      cbn. rewrite <- !Nat.add_succ_comm. cbn.
      by rewrite <- !app_assoc.
    + intros <-. rewrite Hstep.
      destruct (IH k (S attempt) w1 H429') as [_ Hrun].
      rewrite Hrun by done.
      cbn. rewrite <- !Nat.add_succ_comm. cbn.
      by rewrite <- !app_assoc.
Qed.

(** C9.  Against a service whose first [k] answers are 429, the retry
    wrapper requests the URL again after each of them, waiting 2000 ms
    after the first and twice the previous wait after each further one.
    If answer [k] comes within the [maxRetries] attempts and is not a
    429, it is returned and nothing is requested after it.  If all
    [maxRetries] answers are 429, the call ends with the rate-limit
    error. *)
Theorem fetchWithRetry_backoff (url : string) (maxRetries k : nat)
    (w : Net.World) :
  let answer (j : nat) := Net.server w url (j + Net.requests w) in
  let wait (j : nat) : Z := 2 ^ Z.of_nat j * 2000 in
  let failed (n : nat) :=
    flat_map (fun j => [Net.Requested url; Net.Slept (wait j)]) (seq 0 n) in
  (∀ j, (j < k)%nat → Net.status (answer j) = 429) →
  ((k < maxRetries)%nat → Net.status (answer k) ≠ 429 →
   Net.fetchWithRetry url maxRetries w =
   (inr (answer k),
    {| Net.server := Net.server w;
       Net.requests := S (k + Net.requests w);
       Net.log := Net.log w ++ failed k ++ [Net.Requested url] |}))
  ∧ (k = maxRetries →
     Net.fetchWithRetry url maxRetries w =
     (inl Net.rateLimitError,
      {| Net.server := Net.server w;
         Net.requests := (maxRetries + Net.requests w)%nat;
         Net.log := Net.log w ++ failed maxRetries |}))
  ∧ wait 0%nat = 2000
  ∧ (∀ j, wait (S j) = 2 * wait j).
Proof.
  cbn zeta. intros H429. unfold Net.fetchWithRetry.
  destruct (retryLoop_run url k maxRetries 0 w H429) as [Hok Hout].
  split; [exact Hok|]. split.
  - intros Hk. subst maxRetries. by apply Hout.
  - split; [reflexivity|]. intros j.
    rewrite Nat2Z.inj_succ, Z.pow_succ_r by lia. lia.
Qed.

Lemma fetchWithRetry_backoff_witness :
  Net.fetchWithRetry "/orders/v0/orders" Net.defaultMaxRetries throttled
  = (inl Net.rateLimitError,
     {| Net.server := Net.server throttled;
        Net.requests := 3;
        Net.log := [ Net.Requested "/orders/v0/orders"; Net.Slept 2000;
                     Net.Requested "/orders/v0/orders"; Net.Slept 4000;
                     Net.Requested "/orders/v0/orders"; Net.Slept 8000 ] |})
  ∧ Net.fetchWithRetry "/orders/v0/orders" Net.defaultMaxRetries busyTwice
    = (inr {| Net.status := 200; Net.body := "{}" |},
       {| Net.server := Net.server busyTwice;
          Net.requests := 3;
          Net.log := [ Net.Requested "/orders/v0/orders"; Net.Slept 2000;
                       Net.Requested "/orders/v0/orders"; Net.Slept 4000;
                       Net.Requested "/orders/v0/orders" ] |}).
Proof.
  split.
  - apply (proj1 (proj2 (fetchWithRetry_backoff "/orders/v0/orders" 3 3
                           throttled (fun j _ => eq_refl)))).
    reflexivity.
  - assert (∀ j, (j < 2)%nat →
              Net.status (Net.server busyTwice "/orders/v0/orders"
                            (j + Net.requests busyTwice)) = 429) as H429.
    { intros j Hj. cbn. rewrite Nat.add_0_r.
      destruct j as [|[|j]]; [reflexivity | reflexivity | lia]. }
    apply (proj1 (fetchWithRetry_backoff "/orders/v0/orders" 3 2
                    busyTwice H429)).
    + lia.
    + discriminate.
Defined.

(** ** Fuzzy reconciler: the import of a shipping manifest *)

Lemma updateOrder_shipping (i : Z) (c t today : string) (db : Db) :
  ∃ (res : option Order) (db' : Db),
    updateOrder i (shippingUpdate c t today) db = (inr res, db')
    ∧ map (fun o : Order => (id o, orderId o)) (rows db')
      = map (fun o : Order => (id o, orderId o)) (rows db).
Proof.
  unfold updateOrder. rewrite bind_run. unfold gets at 1.
  destruct (selectById i db) as [|current rest] eqn:Hsel.
  - by exists None, db.
  - rewrite bind_run, dbUpdate_accepts by absent_key.
    eexists _, _. split; [reflexivity|].
    cbn [rows]. rewrite map_map. apply map_ext. intros o.
    by destruct (id o =? i).
Qed.

Lemma updateMatching_run (c t today : string) (matchingOrders : list Order) :
  ∀ (rep : ShippingReport) (db : Db),
  ∃ db' : Db,
    updateMatching c t today matchingOrders rep db
    = (inr {| updated := (length matchingOrders + updated rep)%nat;
              notFound := notFound rep;
              fuzzyMatched := fuzzyMatched rep;
              ambiguous := ambiguous rep |}, db')
    ∧ map (fun o : Order => (id o, orderId o)) (rows db')
      = map (fun o : Order => (id o, orderId o)) (rows db).
Proof.
  unfold updateMatching.
  induction matchingOrders as [|order rest IH]; intros rep db.
  - exists db. by destruct rep.
  - destruct (updateOrder_shipping (id order) c t today db)
      as (res & db1 & Hrun & Hkeys).
    destruct (IH (countUpdated rep) db1) as (db' & Hrest & Hkeys').
    exists db'. split; [|congruence].
    cbn [forEach]. rewrite !bind_run, Hrun. cbn.
    rewrite Hrest. cbn. repeat f_equal. lia.
Qed.

Lemma selectByOrderId_keys (ref : string) (db db' : Db) :
  map (fun o : Order => (id o, orderId o)) (rows db')
  = map (fun o : Order => (id o, orderId o)) (rows db) →
  length (selectByOrderId ref db') = length (selectByOrderId ref db).
Proof.
  unfold selectByOrderId. generalize (rows db') (rows db).
  induction l as [|o l IH]; intros [|o' l'] Hkeys; cbn in *; try done.
  injection Hkeys as Hid Hoid Hrest. rewrite Hoid.
  destruct (String.eqb (orderId o') ref); cbn; auto.
Qed.

(** A row whose reference is the order number of stored orders updates
    each of them and counts each of them. *)
Lemma shipRow_exact (today : string) (allOrders : list Order) (r : Row)
    (rep : ShippingReport) (db : Db) :
  referenzOf r ≠ "" →
  selectByOrderId (referenzOf r) db ≠ [] →
  ∃ db' : Db,
    shipRow today allOrders r rep db
    = (inr {| updated :=
                (length (selectByOrderId (referenzOf r) db) + updated rep)%nat;
              notFound := notFound rep;
              fuzzyMatched := fuzzyMatched rep;
              ambiguous := ambiguous rep |}, db')
    ∧ map (fun o : Order => (id o, orderId o)) (rows db')
      = map (fun o : Order => (id o, orderId o)) (rows db).
Proof.
  intros Href Hexact. unfold shipRow.
  apply truthy_nonempty in Href. rewrite Href. cbn [negb].
  rewrite bind_run. unfold getOrdersByOrderId, gets.
  destruct (selectByOrderId (referenzOf r) db) as [|m ms] eqn:Hsel; [done|].
  cbn [length Nat.eqb andb].
  apply updateMatching_run.
Qed.

(** A row of which no stored order is an exact match or a candidate is
    reported as not found, and nothing is written. *)
Lemma shipRow_no_candidate (today : string) (allOrders : list Order) (r : Row)
    (rep : ShippingReport) (db : Db) :
  referenzOf r ≠ "" →
  selectByOrderId (referenzOf r) db = [] →
  List.filter (isCandidate (csvNameOf r) (csvPhoneOf r) (csvOrtOf r)) allOrders
  = [] →
  shipRow today allOrders r rep db
  = (inr (pushNotFound (referenzOf r) rep), db).
Proof.
  intros Href Hexact Hnone. unfold shipRow.
  apply truthy_nonempty in Href. rewrite Href. cbn [negb].
  rewrite bind_run. unfold getOrdersByOrderId, gets. rewrite Hexact.
  cbn [length Nat.eqb andb]. rewrite Hnone.
  by destruct (JS.truthy (csvNameOf r) || JS.truthy (csvPhoneOf r)).
Qed.

Lemma isCandidate_needs_name_or_phone (csvName csvPhone csvOrt : string)
    (o : Order) :
  nameMatch csvName o = false → phoneMatch csvPhone o = false →
  isCandidate csvName csvPhone csvOrt o = false.
Proof. unfold isCandidate. by intros -> ->. Qed.

(** C2, as the code has it.  A manifest row with a reference that is no
    stored order number, and that agrees with the orders of the order set
    on nothing but the city, has no candidate: a city match alone is below
    two of three.  Its reference is pushed to [notFound], the lists
    [ambiguous] and [fuzzyMatched] and the counter [updated] stay as they
    are, and no order is written. *)
Theorem city_only_is_not_found (today : string) (allOrders : list Order)
    (r : Row) (rep : ShippingReport) (db : Db) :
  referenzOf r ≠ "" →
  selectByOrderId (referenzOf r) db = [] →
  (∀ o, o ∈ allOrders →
     nameMatch (csvNameOf r) o = false ∧ phoneMatch (csvPhoneOf r) o = false) →
  ∃ rep' : ShippingReport,
    shipRow today allOrders r rep db = (inr rep', db)
    ∧ notFound rep' = notFound rep ++ [referenzOf r]
    ∧ ambiguous rep' = ambiguous rep
    ∧ fuzzyMatched rep' = fuzzyMatched rep
    ∧ updated rep' = updated rep.
Proof.
  intros Href Hexact Honly.
  exists (pushNotFound (referenzOf r) rep). split; [|done].
  apply shipRow_no_candidate; [done..|].
  induction allOrders as [|o l IH]; [done|].
  cbn. destruct (Honly o) as [Hn Hp]; [by left|].
  rewrite (isCandidate_needs_name_or_phone _ _ _ _ Hn Hp).
  apply IH. intros o' Ho'. apply Honly. by right.
Qed.

Lemma city_only_is_not_found_witness :
  ∃ rep' : ShippingReport,
    shipRow "2024-03-05" (rows sampleDb) cityOnlyRow emptyReport sampleDb
    = (inr rep', sampleDb)
    ∧ notFound rep' = ["R-77"]
    ∧ ambiguous rep' = [].
Proof.
  destruct (city_only_is_not_found "2024-03-05" (rows sampleDb) cityOnlyRow
              emptyReport sampleDb)
    as (rep' & Hrun & Hnot & Hamb & _).
  - discriminate.
  - reflexivity.
  - intros o Ho. apply list_elem_of_In in Ho.
    destruct Ho as [<-|[<-|[]]]; split; reflexivity.
  - exists rep'. split; [exact Hrun|]. split; [exact Hnot | exact Hamb].
Defined.

(** Two stored orders share the city of the manifest row and nothing
    else: the import reports the reference as not found, not as
    ambiguous. *)
Lemma city_only_not_ambiguous :
  Forall (fun o => cityMatch (csvOrtOf cityOnlyRow) o = true
                   ∧ nameMatch (csvNameOf cityOnlyRow) o = false
                   ∧ phoneMatch (csvPhoneOf cityOnlyRow) o = false)
         (rows sampleDb)
  ∧ length (rows sampleDb) = 2%nat
  ∧ selectByOrderId (referenzOf cityOnlyRow) sampleDb = []
  ∧ importShipping "2024-03-05" [cityOnlyRow] sampleDb
    = (Json {| updated := 0; notFound := ["R-77"]; fuzzyMatched := [];
               ambiguous := [] |}, sampleDb).
Proof.
  split; [|by repeat split].
  repeat constructor.
Qed.

(** The loop over the manifest rows when every row carries the order
    number [ref]: each turn adds the number of orders with that number. *)
Lemma shipRows_same_reference (today ref : string) (allOrders : list Order)
    (records : list Row) :
  ref ≠ "" →
  Forall (fun r => referenzOf r = ref) records →
  ∀ (rep : ShippingReport) (db : Db),
  selectByOrderId ref db ≠ [] →
  ∃ db' : Db,
    forEach records (shipRow today allOrders) rep db
    = (inr {| updated :=
                (length records * length (selectByOrderId ref db)
                 + updated rep)%nat;
              notFound := notFound rep;
              fuzzyMatched := fuzzyMatched rep;
              ambiguous := ambiguous rep |}, db')
    ∧ map (fun o : Order => (id o, orderId o)) (rows db')
      = map (fun o : Order => (id o, orderId o)) (rows db).
Proof.
  intros Href Hall. induction Hall as [|r records Hr _ IH]; intros rep db Hm.
  - exists db. by destruct rep.
  - destruct (shipRow_exact today allOrders r rep db) as (db1 & Hrow & Hkeys);
      [by rewrite Hr..|].
    rewrite Hr in Hrow.
    pose proof (selectByOrderId_keys ref _ _ Hkeys) as Hlen.
    assert (selectByOrderId ref db1 ≠ []) as Hm1.
    { intros Hnil. rewrite Hnil in Hlen. destruct (selectByOrderId ref db);
        [done | discriminate Hlen]. }
    set (rep1 := {| updated :=
                      (length (selectByOrderId ref db) + updated rep)%nat;
                    notFound := notFound rep;
                    fuzzyMatched := fuzzyMatched rep;
                    ambiguous := ambiguous rep |}) in *.
    destruct (IH rep1 db1 Hm1) as (db' & Hrest & Hkeys').
    exists db'. split; [|congruence].
    cbn [forEach]. rewrite bind_run, Hrow, Hrest, Hlen.
    cbn [updated notFound fuzzyMatched ambiguous rep1 length].
    do 3 f_equal. lia.
Qed.


(** ** Import orchestrator *)

Lemma selectByItemId_app (k : string) (db : Db) (o : InsertOrder) (n i : Z) :
  selectByItemId k {| rows := rows db ++ [ {| id := i; fields := o |} ];
                      nextId := n |}
  = selectByItemId k db
    ++ (if String.eqb (orderItemId o) k then [ {| id := i; fields := o |} ]
        else []).
Proof. unfold selectByItemId. cbn. by rewrite List.filter_app. Qed.

Lemma selectByItemId_stored (k : string) (db : Db) :
  selectByItemId k db ≠ [] ↔
  k ∈ map (fun o : Order => orderItemId o) (rows db).
Proof.
  unfold selectByItemId. induction (rows db) as [|o l IH]; cbn.
  - split; [done|]. by intros ?%elem_of_nil.
  - rewrite elem_of_cons. destruct (String.eqb (orderItemId o) k) eqn:Hk.
    + apply String.eqb_eq in Hk. split; [by left | done].
    + apply String.eqb_neq in Hk. rewrite IH. split; [by right|].
      intros [?|?]; [congruence | done].
Qed.

(** The table accepts a row with a new key and a quantity that fits the
    column, when the sequence has a value left that lies above the
    stored ids. *)
Lemma dbInsert_accepts (order : InsertOrder) (db : Db) :
  int4 (quantity order) = true →
  serialRoom 1 db →
  selectByItemId (orderItemId order) db = [] →
  dbInsert order db
  = (inr tt,
     {| rows := rows db ++ [ {| id := nextId db; fields := order |} ];
        nextId := nextId db + 1 |}).
Proof.
  intros Hq (Hlow & Hhigh & Hserial) Hfresh. unfold dbInsert.
  rewrite Hq. cbn [negb].
  assert (int4 (nextId db) = true) as ->.
  { unfold int4. apply andb_true_iff. split; apply Z.leb_le; lia. }
  cbn [negb].
  assert (existsb (fun o => id o =? nextId db) (rows db) = false) as ->.
  { apply not_true_is_false. intros (o & Ho & Hid)%existsb_exists.
    rewrite Forall_forall in Hserial. apply list_elem_of_In in Ho.
    specialize (Hserial o Ho). apply Z.eqb_eq in Hid. lia. }
  by rewrite Hfresh.
Qed.

Lemma serialRoom_next (n : nat) (order : InsertOrder) (db : Db) :
  serialRoom (S n) db →
  serialRoom n {| rows := rows db ++ [ {| id := nextId db; fields := order |} ];
                  nextId := nextId db + 1 |}.
Proof.
  intros (Hlow & Hhigh & Hserial). repeat split; cbn [rows nextId]; [lia..|].
  apply Forall_app. split.
  - eapply Forall_impl; [exact Hserial|]. cbn. intros; lia.
  - repeat constructor. cbn. lia.
Qed.

Lemma serialRoom_less (n : nat) (db : Db) :
  serialRoom (S n) db → serialRoom 1 db ∧ serialRoom n db.
Proof. intros (Hlow & Hhigh & Hserial). repeat split; try done; lia. Qed.

(** The loop of [createOrders] over candidates with pairwise different
    keys of which none is stored, and with quantities that fit the
    column: every candidate is inserted. *)
Lemma createOrders_loop_fresh (orderList : list InsertOrder) :
  ∀ (n : nat) (d : list string) (db : Db),
  NoDup (map orderItemId orderList) →
  (∀ o, o ∈ orderList → selectByItemId (orderItemId o) db = []) →
  Forall (fun o => int4 (quantity o) = true) orderList →
  serialRoom (length orderList) db →
  ∃ db' : Db,
    forEach orderList createOrders_step (n, d) db
    = (inr ((length orderList + n)%nat, d), db')
    ∧ map fields (rows db') = map fields (rows db) ++ orderList.
Proof.
  induction orderList as [|order rest IH]; intros n d db Hnd Hfresh Hq Hroom.
  - exists db. by rewrite app_nil_r.
  - cbn [map] in Hnd. apply NoDup_cons in Hnd as [Hnotin Hnd].
    apply Forall_cons in Hq as [Hq1 Hq].
    cbn [length] in Hroom.
    destruct (serialRoom_less _ _ Hroom) as [Hone _].
    set (db1 := {| rows := rows db ++ [ {| id := nextId db; fields := order |} ];
                   nextId := nextId db + 1 |}).
    destruct (IH (S n) d db1 Hnd) as (db' & Hrun & Hrows).
    { intros o Ho. unfold db1. rewrite selectByItemId_app.
      rewrite Hfresh by by right. cbn.
      destruct (String.eqb (orderItemId order) (orderItemId o)) eqn:Heq;
        [|done].
      apply String.eqb_eq in Heq. exfalso. apply Hnotin. rewrite Heq.
      by apply list_elem_of_fmap_2. }
    { done. }
    { by apply serialRoom_next. }
    exists db'. split.
    + cbn [forEach]. rewrite bind_run.
      unfold createOrders_step at 1. rewrite bind_run.
      unfold getOrderByItemId, gets.
      rewrite (Hfresh order) by by left. cbn [head].
      rewrite bind_run, dbInsert_accepts by (done || (apply Hfresh; by left)).
      fold db1. cbn [mret M_ret].
      rewrite Hrun. do 3 f_equal. cbn. lia.
    + rewrite Hrows. unfold db1. cbn [rows].
      rewrite map_app. cbn. by rewrite <- app_assoc.
Qed.

(** The same loop over candidates that are all stored: none is inserted
    and every key is reported. *)
Lemma createOrders_loop_stored (orderList : list InsertOrder) :
  ∀ (n : nat) (d : list string) (db : Db),
  (∀ o, o ∈ orderList → selectByItemId (orderItemId o) db ≠ []) →
  forEach orderList createOrders_step (n, d) db
  = (inr (n, d ++ map orderItemId orderList), db).
Proof.
  induction orderList as [|order rest IH]; intros n d db Hstored.
  - cbn. by rewrite app_nil_r.
  - cbn [forEach]. rewrite bind_run.
    unfold createOrders_step at 1. rewrite bind_run.
    unfold getOrderByItemId, gets.
    destruct (selectByItemId (orderItemId order) db) as [|found others] eqn:Hsel.
    { exfalso. by apply (Hstored order); [left|]. }
    cbn [head mret M_ret]. rewrite IH by (intros o Ho; apply Hstored; by right).
    cbn. by rewrite <- app_assoc.
Qed.

Section ImportFacts.
Context {R : Runtime}.

(** On rows whose keys are not empty, not the bare eBay marker, pairwise
    different and not yet seen, the loop of the route keeps every row. *)
Lemma collectOrders_keeps_all (p : Platform) (records : list Row) :
  ∀ seenInFile : gset string,
  NoDup (map (fun r => orderItemId (mapRecord p r)) records) →
  Forall (fun r => orderItemId (mapRecord p r) ≠ ""
                   ∧ orderItemId (mapRecord p r) ≠ "ebay-") records →
  (∀ r, r ∈ records → orderItemId (mapRecord p r) ∉ seenInFile) →
  collectOrders p records seenInFile = map (mapRecord p) records.
Proof.
  induction records as [|r rest IH]; intros seen Hnd Hwf Hseen; [done|].
  apply NoDup_cons in Hnd as [Hnotin Hnd].
  apply Forall_cons in Hwf as [[Hne Hmark] Hwf].
  cbn [collectOrders map].
  apply truthy_nonempty in Hne. rewrite Hne.
  apply String.eqb_neq in Hmark. rewrite Hmark. cbn [negb orb].
  rewrite bool_decide_eq_false_2 by (apply Hseen; by left).
  f_equal. apply IH; [done..|].
  intros r' Hr'. rewrite elem_of_union, elem_of_singleton.
  intros [Heq|Hin].
  - apply Hnotin. rewrite <- Heq.
    by apply (list_elem_of_fmap_2 (fun r => orderItemId (mapRecord p r))).
  - by apply (Hseen r'); [right|].
Qed.

End ImportFacts.

Section ImportTwice.
Context {R : Runtime}.


End ImportTwice.


(** A record whose quantity does not fit the [integer] column is refused
    by the table, and the route answers 500. *)
Example import_out_of_range :
  importOrders (R := noParse) [amazonRow "A1-X" "Jane Doe" "3000000000"]
    emptyDb
  = (ServerError "Fehler beim Import der Datei", emptyDb).
Proof. vm_compute. reflexivity. Qed.


(** A file with two records of the same key imports one order. *)
Example import_same_key_once :
  (importOrders (R := noParse)
     [amazonRow "A1-X" "Jane Doe" "1"; amazonRow "A1-X" "Jane Doe" "1"]
     emptyDb).1
  = Json {| imported := 1; duplicates := 0; duplicateIds := [] |}.
Proof. vm_compute. reflexivity. Qed.

(** The record of the one-row file of the specification. *)
Example import_jane_doe :
  let o := mapAmazonRecord (R := noParse) (amazonRow "A1-X" "Jane Doe" "") in
  (firstName o, lastName o, country o, status o)
  = ("Jane", "Doe", Some "DE", "Offen").
Proof. vm_compute. reflexivity. Qed.

(** * Part II, continued: the rest of the code *)

(** ** More on JavaScript strings *)

Lemma chars_app (a b : string) : JS.chars (a +:+ b) = JS.chars a ++ JS.chars b.
Proof.
  unfold JS.chars. induction a as [|c a IH]; [done|].
  change (String c a +:+ b) with (String c (a +:+ b)). cbn. by rewrite IH.
Qed.

Lemma str_app (a b : list ascii) : JS.str (a ++ b) = JS.str a +:+ JS.str b.
Proof.
  rewrite <- (str_chars (JS.str a +:+ JS.str b)). by rewrite chars_app, !chars_str.
Qed.

Lemma truthy_false_iff (s : string) : JS.truthy s = false ↔ s = "".
Proof. destruct s; cbn; split; congruence. Qed.

Lemma str_nil_iff (l : list ascii) : JS.str l = "" ↔ l = [].
Proof.
  split; [|by intros ->]. intros H.
  rewrite <- (chars_str l), H. done.
Qed.

Lemma dropWhile_all (p : ascii → bool) (l rest : list ascii) :
  Forall (fun c => p c = true) l →
  JS.dropWhile p (l ++ rest) = JS.dropWhile p rest.
Proof. induction 1 as [|c l Hc _ IH]; cbn; [done|]. by rewrite Hc. Qed.

Lemma dropWhile_stop (p : ascii → bool) (c : ascii) (l : list ascii) :
  p c = false → JS.dropWhile p (c :: l) = c :: l.
Proof. intros Hc. cbn. by rewrite Hc. Qed.

(** [trim] removes the white space around a text that begins and ends
    with other characters, and nothing else. *)
Lemma trim_padded (lead core trail : list ascii) (first last_ : ascii)
    (mid : list ascii) :
  core = first :: mid ++ [last_] ∨ (core = [first] ∧ last_ = first) →
  JS.isWhiteSpace first = false → JS.isWhiteSpace last_ = false →
  Forall (fun c => JS.isWhiteSpace c = true) lead →
  Forall (fun c => JS.isWhiteSpace c = true) trail →
  JS.trim (JS.str (lead ++ core ++ trail)) = JS.str core.
Proof.
  intros Hcore Hfirst Hlast Hlead Htrail. unfold JS.trim. rewrite chars_str.
  rewrite dropWhile_all by done. f_equal.
  assert (JS.dropWhile JS.isWhiteSpace (core ++ trail) = core ++ trail) as ->.
  { destruct Hcore as [->|[-> _]]; by apply dropWhile_stop. }
  rewrite rev_app_distr, dropWhile_all by by apply Forall_rev.
  assert (JS.dropWhile JS.isWhiteSpace (rev core) = rev core) as ->.
  { destruct Hcore as [->|[-> ->]]; cbn.
    - rewrite rev_app_distr. cbn. by rewrite Hlast.
    - by rewrite Hfirst. }
  apply rev_involutive.
Qed.

Lemma trim_core (lead core trail : list ascii) (first last_ : ascii) :
  head core = Some first → last core = Some last_ →
  JS.isWhiteSpace first = false → JS.isWhiteSpace last_ = false →
  Forall (fun c => JS.isWhiteSpace c = true) lead →
  Forall (fun c => JS.isWhiteSpace c = true) trail →
  JS.trim (JS.str (lead ++ core ++ trail)) = JS.str core.
Proof.
  intros Hhead Hlast Hfirst Hlast' Hlead Htrail.
  unfold JS.trim. rewrite chars_str, dropWhile_all by done. f_equal.
  destruct core as [|c core]; simplify_eq/=. rewrite Hfirst.
  apply last_Some in Hlast as [init Hinit].
  change (first :: core ++ trail) with ((first :: core) ++ trail).
  rewrite rev_app_distr, dropWhile_all by by apply Forall_rev.
  rewrite Hinit, rev_app_distr. cbn. rewrite Hlast'.
  cbn. by rewrite rev_involutive.
Qed.

(** ** Field mapper: [splitName] *)

Lemma split_go_word (w cur rest : list ascii) :
  Forall (fun c => JS.isWhiteSpace c = false) w →
  JS.split_go cur (w ++ rest) = JS.split_go (rev w ++ cur) rest.
Proof.
  intros Hw. revert cur. induction Hw as [|c w Hc _ IH]; intros cur; [done|].
  cbn. rewrite Hc, IH. by rewrite <- app_assoc.
Qed.

Lemma split_go_run (cur sep : list ascii) (s d : ascii) (rest : list ascii) :
  JS.isWhiteSpace s = true →
  Forall (fun c => JS.isWhiteSpace c = true) sep →
  JS.isWhiteSpace d = false →
  JS.split_go cur (s :: sep ++ d :: rest)
  = JS.str (rev cur) :: JS.split_go [d] rest.
Proof.
  intros Hs Hsep Hd. revert s Hs.
  induction Hsep as [|s2 sep Hs2 _ IH]; intros s Hs.
  - cbn. by rewrite Hs, Hd.
  - rewrite <- (IH s2 Hs2). cbn. by rewrite Hs, Hs2.
Qed.

(** The pieces of a text made of words and runs of white space between
    them are the words. *)
Lemma split_go_words (init : list (list ascii * list ascii))
    (final : list ascii) :
  Forall (fun p => p.1 ≠ [] ∧ Forall (fun c => JS.isWhiteSpace c = false) p.1
                   ∧ p.2 ≠ [] ∧ Forall (fun c => JS.isWhiteSpace c = true) p.2)
         init →
  final ≠ [] → Forall (fun c => JS.isWhiteSpace c = false) final →
  JS.split_go [] (concat (map (fun p => p.1 ++ p.2) init) ++ final)
  = map (fun p => JS.str p.1) init ++ [JS.str final]
  ∧ ∃ d rest, concat (map (fun p => p.1 ++ p.2) init) ++ final = d :: rest
              ∧ JS.isWhiteSpace d = false.
Proof.
  intros Hinit Hne Hfinal. induction Hinit as [|[w s] init Hp _ IH].
  - cbn. split.
    + rewrite <- (app_nil_r final) at 1.
      rewrite split_go_word by done. cbn.
      by rewrite app_nil_r, rev_involutive.
    + destruct final as [|d rest]; [done|].
      exists d, rest. split; [done|]. by apply Forall_cons in Hfinal as [? _].
  - destruct IH as (IH & d & rest & Hrest & Hd).
    destruct Hp as (Hwne & Hw & Hsne & Hs). cbn [fst snd] in *.
    cbn [map concat fst snd]. rewrite <- !app_assoc. split.
    + rewrite split_go_word by done.
      destruct s as [|s1 sep]; [done|]. apply Forall_cons in Hs as [Hs1 Hsep].
      rewrite Hrest. cbn [app].
      rewrite split_go_run by done.
      rewrite app_nil_r, rev_involutive. cbn [map fst app]. f_equal.
      rewrite <- IH, Hrest. cbn. by rewrite Hd.
    + destruct w as [|c w]; [done|]. exists c, (w ++ s ++ concat
        (map (fun p => p.1 ++ p.2) init) ++ final).
      split; [done|]. by apply Forall_cons in Hw as [? _].
Qed.

Lemma splitName_of_words (lead trail final : list ascii)
    (init : list (list ascii * list ascii)) :
  Forall (fun c => JS.isWhiteSpace c = true) lead →
  Forall (fun c => JS.isWhiteSpace c = true) trail →
  Forall (fun p => p.1 ≠ [] ∧ Forall (fun c => JS.isWhiteSpace c = false) p.1
                   ∧ p.2 ≠ [] ∧ Forall (fun c => JS.isWhiteSpace c = true) p.2)
         init →
  final ≠ [] → Forall (fun c => JS.isWhiteSpace c = false) final →
  splitName
    (JS.str (lead ++ (concat (map (fun p => p.1 ++ p.2) init) ++ final)
             ++ trail))
  = match init with
    | [] => (JS.str final, "")
    | _ :: _ => (JS.join " " (map (fun p => JS.str p.1) init), JS.str final)
    end.
Proof.
  intros Hlead Htrail Hinit Hne Hfinal.
  destruct (split_go_words init final Hinit Hne Hfinal)
    as (Hsplit & d & rest & Hcore & Hd).
  destruct (last final) as [z|] eqn:Hz;
    [|by apply last_None in Hz].
  assert (JS.isWhiteSpace z = false) as Hzws.
  { apply last_Some in Hz as [pre ->].
    by apply Forall_app in Hfinal as [_ [? _]%Forall_cons]. }
  unfold splitName, JS.splitWs.
  rewrite (trim_core lead _ trail d z), chars_str, Hsplit; try done.
  - destruct init as [|p init]; cbn [map app].
    + assert (JS.truthy (JS.str final) = true) as ->; [|done].
      apply truthy_nonempty. by rewrite str_nil_iff.
    + assert (∀ (l : list string) x,
                last (l ++ [x]) = Some x ∧ removelast (l ++ [x]) = l) as Hlr.
      { intros l x. split; [apply last_snoc | apply removelast_last]. }
      destruct (Hlr (JS.str p.1 :: map (fun p => JS.str p.1) init)
                    (JS.str final)) as [Hl Hr].
      cbn [app] in Hl, Hr.
      destruct (map (fun p => JS.str p.1) init ++ [JS.str final]) as [|y ys] eqn:E.
      { by destruct (map (fun p => JS.str p.1) init). }
      rewrite Hl, Hr. cbn [JS.or_else].
      assert (JS.truthy (JS.str final) = true) as ->; [|done].
      apply truthy_nonempty. by rewrite str_nil_iff.
  - by rewrite Hcore.
  - rewrite last_app, Hz. done.
Qed.

Lemma splitName_blank (blank : list ascii) :
  Forall (fun c => JS.isWhiteSpace c = true) blank →
  splitName (JS.str blank) = ("", "").
Proof.
  intros Hblank. unfold splitName, JS.trim.
  rewrite chars_str, <- (app_nil_r blank), dropWhile_all by done.
  reflexivity.
Qed.

(** X1.  A full name that is empty or made of white space only splits
    into an empty first name and an empty last name.  A full name made of
    words, with white space of any length between and around them, splits
    into the last word as last name and the words before it, joined by
    single spaces, as first name; a single word is a first name with an
    empty last name. *)
Theorem splitName_words (lead trail : list ascii) :
  Forall (fun c => JS.isWhiteSpace c = true) lead →
  Forall (fun c => JS.isWhiteSpace c = true) trail →
  splitName (JS.str (lead ++ trail)) = ("", "")
  ∧ ∀ (final : list ascii) (init : list (list ascii * list ascii)),
      Forall (fun p => p.1 ≠ []
                       ∧ Forall (fun c => JS.isWhiteSpace c = false) p.1
                       ∧ p.2 ≠ []
                       ∧ Forall (fun c => JS.isWhiteSpace c = true) p.2)
             init →
      final ≠ [] → Forall (fun c => JS.isWhiteSpace c = false) final →
      splitName
        (JS.str (lead ++ (concat (map (fun p => p.1 ++ p.2) init) ++ final)
                 ++ trail))
      = match init with
        | [] => (JS.str final, "")
        | _ :: _ =>
            (JS.join " " (map (fun p => JS.str p.1) init), JS.str final)
        end.
Proof.
  intros Hlead Htrail. split.
  - apply splitName_blank. by apply Forall_app.
  - intros final init. by apply splitName_of_words.
Qed.

Lemma splitName_words_witness :
  splitName " Jane   van Doe  " = ("Jane van", "Doe")
  ∧ splitName "   " = ("", "").
Proof.
  assert (Forall (fun c => JS.isWhiteSpace c = true) (JS.chars " ")) as Hlead
    by by repeat constructor.
  assert (Forall (fun c => JS.isWhiteSpace c = true) (JS.chars "  ")) as Htrail
    by by repeat constructor.
  split.
  - apply (proj2 (splitName_words (JS.chars " ") (JS.chars "  ") Hlead Htrail)
             (JS.chars "Doe")
             [ (JS.chars "Jane", JS.chars "   ");
               (JS.chars "van", JS.chars " ") ]).
    + repeat constructor; (discriminate || by repeat constructor).
    + discriminate.
    + by repeat constructor.
  - exact (proj1 (splitName_words (JS.chars " ") (JS.chars "  ") Hlead Htrail)).
Defined.

(** ** Format detector *)

Lemma startsWithL_prefix (l t : list ascii) :
  JS.startsWithL l t = true ↔ t `prefix_of` l.
Proof.
  revert l. induction t as [|a t IH]; intros [|b l]; cbn.
  - done.
  - split; [intros _; apply prefix_nil | done].
  - split; [done|]. by intros ?%prefix_nil_not.
  - rewrite andb_true_iff, eqc_true, IH. split.
    + intros [-> ?]. by apply prefix_cons.
    + intros H. split; [by apply prefix_cons_inv_1 in H
                       | by apply prefix_cons_inv_2 in H].
Qed.

Lemma includesL_nil (t : list ascii) :
  JS.includesL [] t = JS.startsWithL [] t.
Proof. cbn. apply orb_false_r. Qed.

Lemma includesL_cons (c : ascii) (l t : list ascii) :
  JS.includesL (c :: l) t = JS.startsWithL (c :: l) t || JS.includesL l t.
Proof. reflexivity. Qed.

Lemma includesL_infix (l t : list ascii) :
  JS.includesL l t = true ↔ ∃ a b, l = a ++ t ++ b.
Proof.
  induction l as [|c l IH].
  - rewrite includesL_nil, startsWithL_prefix. split.
    + intros [b ->]. by exists [], b.
    + intros (a & b & H). destruct a; [by exists b|done].
  - rewrite includesL_cons, orb_true_iff, startsWithL_prefix, IH. split.
    + intros [[b ->]|(a & b & ->)]; [by exists [], b|by exists (c :: a), b].
    + intros (a & b & H). destruct a as [|c' a]; [left; by exists b|].
      right. exists a, b. by simplify_eq/=.
Qed.

(** A text found in two lists put together around a separator it does not
    contain lies in one of the two. *)
Lemma infix_separated (l1 l2 a t b : list ascii) (x : ascii) :
  l1 ++ x :: l2 = a ++ t ++ b → x ∉ t →
  (∃ a' b', l1 = a' ++ t ++ b') ∨ (∃ a' b', l2 = a' ++ t ++ b').
Proof.
  intros Heq Hx.
  destruct (decide (length a + length t ≤ length l1)%nat) as [Hle|Hgt].
  - left. exists a, (drop (length a + length t) l1).
    apply (f_equal (take (length a + length t))) in Heq.
    rewrite take_app_le in Heq by done.
    rewrite app_assoc, take_app_length' in Heq by (rewrite length_app; lia).
    rewrite app_assoc, <- Heq. by rewrite take_drop.
  - destruct (decide (length l1 < length a)%nat) as [Hlt|Hge].
    + right. exists (drop (S (length l1)) a), b.
      apply (f_equal (drop (S (length l1)))) in Heq.
      rewrite (cons_middle x l1 l2), app_assoc in Heq.
      rewrite drop_app_length' in Heq by (rewrite length_app; cbn; lia).
      by rewrite drop_app_le in Heq by lia.
    + exfalso. apply Hx.
      assert ((l1 ++ x :: l2) !! length l1 = Some x) as Hmid
        by apply list_lookup_middle, eq_refl.
      rewrite Heq, lookup_app_r, lookup_app_l in Hmid by lia.
      by apply list_elem_of_lookup_2 in Hmid.
Qed.

Lemma chars_join_cons (sep h : string) (rest : list string) :
  JS.chars (JS.join sep (h :: rest))
  = JS.chars h ++ match rest with
                  | [] => []
                  | _ :: _ => JS.chars sep ++ JS.chars (JS.join sep rest)
                  end.
Proof.
  destruct rest as [|h' rest]; cbn [JS.join].
  - by rewrite app_nil_r.
  - by rewrite !chars_app.
Qed.

Lemma chars_toLowerCase (s : string) :
  JS.chars (JS.toLowerCase s) = map JS.lowerChar (JS.chars s).
Proof. apply chars_str. Qed.

(** A fragment without a bar lies in the lower-cased joined header names
    exactly when it lies in a lower-cased header name. *)
Lemma includes_joined_headers (headers : list string) (frag : string) :
  JS.chars frag ≠ [] → "|"%char ∉ JS.chars frag →
  JS.includes (JS.toLowerCase (JS.join "|" headers)) frag = true ↔
  ∃ h, h ∈ headers ∧ JS.includes (JS.toLowerCase h) frag = true.
Proof.
  intros Hne Hbar. unfold JS.includes.
  setoid_rewrite chars_toLowerCase. setoid_rewrite includesL_infix.
  induction headers as [|h rest IH].
  - split.
    + intros (a & b & H). destruct a, (JS.chars frag); done.
    + by intros (h & ?%elem_of_nil & _).
  - rewrite chars_join_cons. destruct rest as [|h' rest].
    + rewrite app_nil_r. split.
      * intros H. exists h. split; [by left | done].
      * by intros (h0 & ->%list_elem_of_singleton & H).
    + rewrite map_app. change (JS.chars "|") with ["|"%char].
      cbn [app map]. change (JS.lowerChar "|") with "|"%char. split.
      * intros (a & b & Heq).
        destruct (infix_separated _ _ _ _ _ _ Heq Hbar) as [H|H].
        -- exists h. split; [by left | done].
        -- apply IH in H as (h0 & Hin & H0). exists h0. split; [by right|done].
      * intros (h0 & Hin & a & b & H0).
        apply elem_of_cons in Hin as [->|Hin].
        -- exists a, (b ++ "|"%char :: map JS.lowerChar
                       (JS.chars (JS.join "|" (h' :: rest)))).
           rewrite H0. by rewrite <- !app_assoc.
        -- destruct IH as [_ IH].
           destruct IH as (a' & b' & H1); [by exists h0; eauto|].
           exists (map JS.lowerChar (JS.chars h) ++ "|"%char :: a'), b'.
           rewrite H1. by rewrite <- !app_assoc.
Qed.

(** X2.  The platform is read off the header names without regard to
    case.  One header with an Amazon fragment makes the file an Amazon
    file, whatever else the headers hold; without such a header, one
    header with an eBay fragment makes it an eBay file; and without any
    fragment the file is taken as an Amazon file. *)
Theorem detectPlatform_priority (headers : list string) :
  let has (frag : string) :=
    ∃ h, h ∈ headers ∧ JS.includes (JS.toLowerCase h) frag = true in
  let amazonSignal :=
    has "order-item-id" ∨ has "purchase-date" ∨ has "buyer-email" in
  let ebaySignal :=
    has "bestellnummer" ∨ has "verkaufsprotokollnummer"
    ∨ has ("k" +:+ ae +:+ "ufer") ∨ has ("empf" +:+ ae +:+ "nger")
    ∨ has "angebotstitel" ∨ has "artikelnummer" in
  (amazonSignal → detectPlatform headers = Amazon)
  ∧ (¬ amazonSignal → ebaySignal → detectPlatform headers = eBay)
  ∧ (¬ amazonSignal → ¬ ebaySignal → detectPlatform headers = Amazon).
Proof.
  cbn zeta. unfold detectPlatform.
  set (headerStr := JS.toLowerCase (JS.join "|" headers)).
  assert (∀ frag, JS.chars frag ≠ [] → "|"%char ∉ JS.chars frag →
            (JS.includes headerStr frag = true
             ∧ ∃ h, h ∈ headers ∧ JS.includes (JS.toLowerCase h) frag = true)
            ∨ (JS.includes headerStr frag = false
               ∧ ¬ ∃ h, h ∈ headers
                        ∧ JS.includes (JS.toLowerCase h) frag = true))
    as Hfrag.
  { intros frag Hne Hbar.
    pose proof (includes_joined_headers headers frag Hne Hbar) as Hiff.
    fold headerStr in Hiff.
    destruct (JS.includes headerStr frag); [left|right]; split; try done.
    - by apply Hiff.
    - intros H. by apply Hiff in H. }
  destruct (Hfrag "order-item-id") as [[-> ?]|[-> ?]];
    [compute_done..|cbn [orb]; tauto|].
  destruct (Hfrag "purchase-date") as [[-> ?]|[-> ?]];
    [compute_done..|cbn [orb]; tauto|].
  destruct (Hfrag "buyer-email") as [[-> ?]|[-> ?]];
    [compute_done..|cbn [orb]; tauto|].
  cbn [orb].
  destruct (Hfrag "bestellnummer") as [[-> ?]|[-> ?]];
    [compute_done..|cbn [orb]; tauto|].
  destruct (Hfrag "verkaufsprotokollnummer") as [[-> ?]|[-> ?]];
    [compute_done..|cbn [orb]; tauto|].
  destruct (Hfrag ("k" +:+ ae +:+ "ufer")) as [[-> ?]|[-> ?]];
    [compute_done..|cbn [orb]; tauto|].
  destruct (Hfrag ("empf" +:+ ae +:+ "nger")) as [[-> ?]|[-> ?]];
    [compute_done..|cbn [orb]; tauto|].
  destruct (Hfrag "angebotstitel") as [[-> ?]|[-> ?]];
    [compute_done..|cbn [orb]; tauto|].
  destruct (Hfrag "artikelnummer") as [[-> ?]|[-> ?]];
    [compute_done..|cbn [orb]; tauto|].
  cbn [orb]. tauto.
Qed.

Lemma detectPlatform_priority_witness :
  detectPlatform ["Bestellnummer"; "Order-Item-ID"; "Angebotstitel"] = Amazon
  ∧ detectPlatform ["Name des K" +:+ ae +:+ "ufers"; "Anzahl"] = eBay.
Proof.
  split.
  - apply (proj1 (detectPlatform_priority _)).
    left. exists "Order-Item-ID". split; [|reflexivity].
    apply elem_of_cons. right. apply elem_of_cons. by left.
  - apply (proj1 (proj2 (detectPlatform_priority _))).
    + intros H.
      assert (∀ frag,
                (∃ h, h ∈ ["Name des K" +:+ ae +:+ "ufers"; "Anzahl"]
                      ∧ JS.includes (JS.toLowerCase h) frag = true) →
                JS.includes
                  (JS.toLowerCase ("Name des K" +:+ ae +:+ "ufers")) frag = true
                ∨ JS.includes (JS.toLowerCase "Anzahl") frag = true) as Hcases.
      { intros frag (h & Hin & Hh).
        apply elem_of_cons in Hin as [->|Hin]; [by left|].
        apply list_elem_of_singleton in Hin as ->. by right. }
      destruct H as [H|[H|H]]; apply Hcases in H as [H|H];
        vm_compute in H; discriminate H.
    + right. right. left. exists ("Name des K" +:+ ae +:+ "ufers").
      split; [by left | reflexivity].
Defined.

(** ** Field mapper: customer type and line-item key *)

Lemma dropWhile_nil_iff (p : ascii → bool) (l : list ascii) :
  JS.dropWhile p l = [] ↔ Forall (fun c => p c = true) l.
Proof.
  induction l as [|c l IH]; cbn.
  - split; [by constructor | done].
  - destruct (p c) eqn:Hc.
    + rewrite IH. split; [by constructor | by intros [_ ?]%Forall_cons].
    + split; [done|]. intros [? _]%Forall_cons. congruence.
Qed.

Lemma dropWhile_keeps_blank (p : ascii → bool) (l : list ascii) :
  Forall (fun c => p c = true) (JS.dropWhile p l) →
  Forall (fun c => p c = true) l.
Proof.
  induction l as [|c l IH]; cbn; [done|].
  destruct (p c) eqn:Hc; [|done]. intros H. constructor; auto.
Qed.

(** [trim] gives the empty string exactly on a text of white space. *)
Lemma trim_empty_iff (s : string) :
  JS.trim s = "" ↔ Forall (fun c => JS.isWhiteSpace c = true) (JS.chars s).
Proof.
  unfold JS.trim. rewrite str_nil_iff. split.
  - intros H. apply (f_equal (@rev ascii)) in H.
    rewrite rev_involutive in H. cbn in H.
    apply dropWhile_nil_iff, Forall_rev in H. rewrite rev_involutive in H.
    by apply dropWhile_keeps_blank.
  - intros H. apply dropWhile_nil_iff in H. by rewrite H.
Qed.

Lemma string_app_marker (s : string) : s ≠ "" → "ebay-" +:+ s ≠ "ebay-".
Proof.
  intros Hs Heq. apply Hs.
  change "ebay-" with ("ebay-" +:+ "") in Heq at 2.
  by apply (inj (String.append "ebay-")) in Heq.
Qed.

Section MapperExtras.
Context {R : Runtime}.

(** X3.  Every mapper sets the customer type with the contact person: the
    type is [Firma] and the contact person a non-empty text, or the type
    is [Privat] and the contact person null.  The contact person is the
    second address line without the white space around it, and null when
    nothing is left of it: the column [ship-address-2] in the Amazon
    dialect, the second address line of the recipient and, when that is
    blank, of the buyer in the eBay dialect, and [AddressLine2] of the
    shipping address in the remote variant.  In the Amazon dialect a row
    is [Privat] exactly when its column [ship-address-2] is absent or
    holds white space only. *)
Theorem customerType_contactPerson (r : Row) (order : AmazonOrder)
    (item : AmazonOrderItem) :
  let typed (o : InsertOrder) :=
    (customerType o = "Firma" ∧ ∃ s, contactPerson o = Some s ∧ s ≠ "")
    ∨ (customerType o = "Privat" ∧ contactPerson o = None) in
  let trimmed (v : option string) := JS.trim (JS.or_else v "") in
  let line2 := trimmed (r !! "ship-address-2") in
  let recipient2 := trimmed (r !! ("Adresse 2 des Empf" +:+ ae +:+ "ngers")) in
  let buyer2 := trimmed (r !! ("Adresse 2 des K" +:+ ae +:+ "ufers")) in
  let remote2 :=
    trimmed (AddressLine2 (default noAddress (shippingAddress order))) in
  typed (mapAmazonRecord r)
  ∧ typed (mapEbayRecord r)
  ∧ typed (mapOrderToSchema order item)
  ∧ (customerType (mapAmazonRecord r) = "Privat" ↔
       Forall (fun c => JS.isWhiteSpace c = true)
              (JS.chars (JS.or_else (r !! "ship-address-2") "")))
  ∧ (line2 ≠ "" → contactPerson (mapAmazonRecord r) = Some line2)
  ∧ (line2 = "" → contactPerson (mapAmazonRecord r) = None)
  ∧ (recipient2 ≠ "" → contactPerson (mapEbayRecord r) = Some recipient2)
  ∧ (recipient2 = "" → buyer2 ≠ "" →
       contactPerson (mapEbayRecord r) = Some buyer2)
  ∧ (recipient2 = "" → buyer2 = "" → contactPerson (mapEbayRecord r) = None)
  ∧ (remote2 ≠ "" → contactPerson (mapOrderToSchema order item) = Some remote2)
  ∧ (remote2 = "" → contactPerson (mapOrderToSchema order item) = None).
Proof.
  cbn zeta.
  assert (∀ text : string, text ≠ "" → JS.or_null text = Some text) as Hsome.
  { intros text Hne. unfold JS.or_null.
    apply truthy_nonempty in Hne. by rewrite Hne. }
  assert (∀ text : string,
            ((if JS.truthy text then "Firma" else "Privat") = "Firma"
             ∧ ∃ s, JS.or_null text = Some s ∧ s ≠ "")
            ∨ ((if JS.truthy text then "Firma" else "Privat") = "Privat"
               ∧ JS.or_null text = None)) as Htyped.
  { intros text. unfold JS.or_null.
    destruct (JS.truthy text) eqn:Ht; [left|right]; split; try done.
    exists text. split; [done|]. by apply truthy_nonempty. }
  split; [|split; [|split; [|split; [|repeat apply conj]]]].
  - unfold mapAmazonRecord. destruct (splitName _). apply Htyped.
  - unfold mapEbayRecord. destruct (splitName _). apply Htyped.
  - unfold mapOrderToSchema. destruct (splitName _). apply Htyped.
  - rewrite <- trim_empty_iff. unfold mapAmazonRecord.
    destruct (splitName _). cbn [customerType].
    destruct (JS.trim _) eqn:Ht; cbn; split; congruence.
  - unfold mapAmazonRecord. destruct (splitName _). cbn [contactPerson].
    apply Hsome.
  - unfold mapAmazonRecord. destruct (splitName _). cbn [contactPerson].
    by intros ->.
  - unfold mapEbayRecord. destruct (splitName _). cbn [contactPerson].
    intros Hne. cbn [JS.or_else].
    pose proof Hne as Ht. apply truthy_nonempty in Ht. rewrite Ht.
    by apply Hsome.
  - unfold mapEbayRecord. destruct (splitName _). cbn [contactPerson].
    intros -> Hne. cbn [JS.or_else JS.truthy].
    pose proof Hne as Ht. apply truthy_nonempty in Ht. rewrite Ht.
    by apply Hsome.
  - unfold mapEbayRecord. destruct (splitName _). cbn [contactPerson].
    by intros -> ->.
  - unfold mapOrderToSchema. destruct (splitName _). cbn [contactPerson].
    apply Hsome.
  - unfold mapOrderToSchema. destruct (splitName _). cbn [contactPerson].
    by intros ->.
Qed.

(** X4.  The line-item key of an eBay row is [ebay-] followed by the first
    non-empty of sales record number, transaction number and order
    number, and the empty string when all three are absent or empty; it
    is never the bare marker [ebay-]. *)
Theorem ebay_line_item_key (r : Row) :
  let blank (v : option string) := v = None ∨ v = Some "" in
  let key := orderItemId (mapEbayRecord r) in
  key ≠ "ebay-"
  ∧ (∀ s, r !! "Verkaufsprotokollnummer" = Some s → s ≠ "" →
       key = "ebay-" +:+ s)
  ∧ (∀ s, blank (r !! "Verkaufsprotokollnummer") →
       r !! "Transaktionsnummer" = Some s → s ≠ "" → key = "ebay-" +:+ s)
  ∧ (∀ s, blank (r !! "Verkaufsprotokollnummer") →
       blank (r !! "Transaktionsnummer") →
       r !! "Bestellnummer" = Some s → s ≠ "" → key = "ebay-" +:+ s)
  ∧ (blank (r !! "Verkaufsprotokollnummer") →
     blank (r !! "Transaktionsnummer") →
     blank (r !! "Bestellnummer") → key = "").
Proof.
  cbn zeta. unfold mapEbayRecord. destruct (splitName _) as [first_ last_].
  cbn [orderItemId].
  set (v := r !! "Verkaufsprotokollnummer").
  set (t := r !! "Transaktionsnummer").
  set (b := r !! "Bestellnummer").
  assert (∀ text, JS.truthy text = true →
            (if JS.truthy text then "ebay-" +:+ text else "")
            = "ebay-" +:+ text) as Hkey by (by intros text ->).
  repeat apply conj.
  - destruct (JS.truthy _) eqn:Ht; [|done].
    apply string_app_marker. by apply truthy_nonempty.
  - intros s Hs Hne. cbn [JS.or_else].
    rewrite (or_else_text v s "" Hs Hne).
    apply truthy_nonempty in Hne. by rewrite Hne, Hne.
  - intros s Hv Hs Hne. rewrite (or_else_blank v "" Hv).
    cbn [JS.or_else JS.truthy]. rewrite (or_else_text t s "" Hs Hne).
    apply truthy_nonempty in Hne. by rewrite Hne, Hne.
  - intros s Hv Ht Hs Hne.
    rewrite (or_else_blank v "" Hv), (or_else_blank t "" Ht).
    cbn [JS.or_else JS.truthy]. rewrite (or_else_text b s "" Hs Hne).
    apply truthy_nonempty in Hne. by rewrite Hne.
  - intros Hv Ht Hb.
    by rewrite (or_else_blank v "" Hv), (or_else_blank t "" Ht),
      (or_else_blank b "" Hb).
Qed.

End MapperExtras.

Lemma ebay_line_item_key_witness :
  orderItemId
    (mapEbayRecord (R := noParse)
       (<["Transaktionsnummer" := "T-9"]> (<["Bestellnummer" := "12-0001"]> ∅)))
  = "ebay-T-9".
Proof.
  apply (proj1 (proj2 (proj2 (ebay_line_item_key (R := noParse) _))) "T-9").
  - by left.
  - reflexivity.
  - discriminate.
Defined.

(** ** Import orchestrator: the loop over the records *)

Section CollectFacts.
Context {R : Runtime}.

(** X5.  Whatever the records are, the candidates the import route hands to
    the store have pairwise different keys, none of them empty, the bare
    marker or already seen; every record with such a key is represented;
    and the candidate kept for a key is the one mapped from the first
    record of the file with that key. *)
Theorem collectOrders_first_wins (p : Platform) (records : list Row)
    (seenInFile : gset string) :
  let key (r : Row) := orderItemId (mapRecord p r) in
  let kept := collectOrders p records seenInFile in
  NoDup (map orderItemId kept)
  ∧ Forall (fun o => orderItemId o ≠ "" ∧ orderItemId o ≠ "ebay-"
                     ∧ orderItemId o ∉ seenInFile) kept
  ∧ (∀ r, r ∈ records → key r ≠ "" → key r ≠ "ebay-" → key r ∉ seenInFile →
       key r ∈ map orderItemId kept)
  ∧ (∀ o, o ∈ kept →
       mapRecord p
         <$> List.find (fun r => String.eqb (key r) (orderItemId o)) records
       = Some o).
Proof.
  cbn zeta. revert seenInFile.
  induction records as [|r rest IH]; intros seen.
  { cbn. repeat split; [constructor | constructor | |].
    - by intros r ?%elem_of_nil.
    - by intros o ?%elem_of_nil. }
  destruct (IH seen) as (Hnd & Hvalid & Hall & Hfirst).
  destruct (IH ({[orderItemId (mapRecord p r)]} ∪ seen))
    as (Hnd' & Hvalid' & Hall' & Hfirst').
  cbn [collectOrders List.find].
  destruct (JS.truthy (orderItemId (mapRecord p r))) eqn:Ht; cbn [negb orb].
  2: { apply truthy_false_iff in Ht.
       repeat split; [done|done| |].
       - intros r' [->|Hin]%elem_of_cons ? ? ?; [done|by apply Hall].
       - intros o Ho. rewrite Ht.
         rewrite Forall_forall in Hvalid. destruct (Hvalid o Ho) as (Hne & _).
         destruct (String.eqb "" (orderItemId o)) eqn:E;
           [apply String.eqb_eq in E; congruence | by apply Hfirst]. }
  destruct (String.eqb (orderItemId (mapRecord p r)) "ebay-") eqn:Hm.
  { apply String.eqb_eq in Hm. repeat split; [done|done| |].
    - intros r' [->|Hin]%elem_of_cons ? ? ?; [done|by apply Hall].
    - intros o Ho. rewrite Hm.
      rewrite Forall_forall in Hvalid. destruct (Hvalid o Ho) as (_ & Hne & _).
      destruct (String.eqb "ebay-" (orderItemId o)) eqn:E;
        [apply String.eqb_eq in E; congruence | by apply Hfirst]. }
  apply String.eqb_neq in Hm. apply truthy_nonempty in Ht.
  destruct (bool_decide (orderItemId (mapRecord p r) ∈ seen)) eqn:Hs.
  { apply bool_decide_eq_true in Hs. repeat split; [done|done| |].
    - intros r' [->|Hin]%elem_of_cons ? ? ?; [done|by apply Hall].
    - intros o Ho.
      rewrite Forall_forall in Hvalid. destruct (Hvalid o Ho) as (_ & _ & Hne).
      destruct (String.eqb _ (orderItemId o)) eqn:E;
        [apply String.eqb_eq in E; congruence | by apply Hfirst]. }
  apply bool_decide_eq_false in Hs.
  rewrite Forall_forall in Hvalid'.
  repeat split.
  - cbn [map]. apply NoDup_cons. split; [|done].
    intros (o & Heq & Ho)%list_elem_of_fmap.
    destruct (Hvalid' o Ho) as (_ & _ & Hno). apply Hno.
    rewrite <- Heq. by apply elem_of_union_l, elem_of_singleton.
  - apply Forall_cons. split; [done|]. apply Forall_forall. intros o Ho.
    destruct (Hvalid' o Ho) as (? & ? & Hno). repeat split; try done.
    intros Hin. apply Hno. by apply elem_of_union_r.
  - intros r' [->|Hin]%elem_of_cons Hne Hmk Hns; cbn [map].
    + by left.
    + destruct (decide (orderItemId (mapRecord p r')
                        = orderItemId (mapRecord p r))) as [->|Hdiff];
        [by left|]. right. apply Hall'; [done..|].
      by intros [?%elem_of_singleton|?]%elem_of_union.
  - intros o [->|Ho]%elem_of_cons.
    + by rewrite String.eqb_refl.
    + destruct (Hvalid' o Ho) as (_ & _ & Hno).
      destruct (String.eqb _ (orderItemId o)) eqn:E.
      * apply String.eqb_eq in E. exfalso. apply Hno. rewrite <- E.
        by apply elem_of_union_l, elem_of_singleton.
      * by apply Hfirst'.
Qed.

End CollectFacts.

(** ** Order store: what the operations keep *)

Lemma forEach_keeps {S E A B} (P : S → Prop) (l : list A)
    (body : A → B → M S E B) :
  (∀ x acc s, P s → P (body x acc s).2) →
  ∀ acc s, P s → P (forEach l body acc s).2.
Proof.
  intros Hbody. induction l as [|x l IH]; intros acc s Hs; [done|].
  cbn [forEach]. rewrite bind_run.
  pose proof (Hbody x acc s Hs) as Hx.
  destruct (body x acc s) as [[e|acc'] s']; [done|]. by apply IH.
Qed.

Lemma selectByItemId_nil (k : string) (db : Db) :
  selectByItemId k db = [] ↔
  k ∉ map (fun o : Order => orderItemId o) (rows db).
Proof.
  split.
  - intros Hnil Hin. by apply selectByItemId_stored in Hin.
  - intros Hnot. destruct (selectByItemId k db) eqn:E; [done|].
    exfalso. apply Hnot, selectByItemId_stored. by rewrite E.
Qed.

(** A candidate with a new key and a derived status goes into the table
    without breaking what the table keeps. *)
Lemma insert_keeps_inv (order : InsertOrder) (db : Db) :
  StoreInv db → statusConsistent order →
  selectByItemId (orderItemId order) db = [] →
  StoreInv {| rows := rows db ++ [ {| id := nextId db; fields := order |} ];
              nextId := nextId db + 1 |}.
Proof.
  intros [Hids Hserial Hkeys Hstatus] Hst Hfresh.
  apply selectByItemId_nil in Hfresh.
  split; cbn [rows nextId].
  - rewrite map_app. cbn. apply NoDup_app. split; [done|]. split.
    + intros i Hi Hnew. apply list_elem_of_singleton in Hnew. subst i.
      apply list_elem_of_fmap in Hi as (o & Heq & Ho).
      rewrite Forall_forall in Hserial. specialize (Hserial o Ho). lia.
    + apply NoDup_singleton.
  - apply Forall_app. split.
    + eapply Forall_impl; [exact Hserial|]. cbn. intros; lia.
    + repeat constructor. cbn. lia.
  - rewrite map_app. cbn. apply NoDup_app. split; [done|]. split.
    + intros k Hk Hnew. apply list_elem_of_singleton in Hnew. by subst k.
    + apply NoDup_singleton.
  - apply Forall_app. split; [done|]. by repeat constructor.
Qed.

(** One turn of the loop of [createOrders]: a stored key is reported, a
    new one is inserted if the table accepts it. *)
Lemma createOrders_step_run (order : InsertOrder) (n : nat) (d : list string)
    (db : Db) :
  int4 (quantity order) = true →
  serialRoom 1 db →
  (selectByItemId (orderItemId order) db ≠ []
   ∧ createOrders_step order (n, d) db
     = (inr (n, d ++ [orderItemId order]), db))
  ∨ (selectByItemId (orderItemId order) db = []
     ∧ createOrders_step order (n, d) db
       = (inr (S n, d),
          {| rows := rows db ++ [ {| id := nextId db; fields := order |} ];
             nextId := nextId db + 1 |})).
Proof.
  intros Hq Hroom. unfold createOrders_step. rewrite bind_run.
  unfold getOrderByItemId, gets.
  destruct (selectByItemId (orderItemId order) db) as [|o l] eqn:Hsel.
  - right. split; [done|]. cbn [head]. rewrite bind_run.
    by rewrite dbInsert_accepts.
  - left. by split.
Qed.

(** Drawing a value from the sequence keeps the table well formed. *)
Lemma drawn_keeps_inv (db : Db) :
  StoreInv db → StoreInv {| rows := rows db; nextId := nextId db + 1 |}.
Proof.
  intros [Hids Hserial Hkeys Hstatus]. split; cbn [rows nextId]; try done.
  eapply Forall_impl; [exact Hserial|]. cbn. intros; lia.
Qed.

(** One turn of the loop keeps the table well formed, whether the table
    accepts the row or not. *)
Lemma createOrders_step_inv (order : InsertOrder) (acc : nat * list string)
    (db : Db) :
  StoreInv db → statusConsistent order →
  StoreInv (createOrders_step order acc db).2.
Proof.
  intros Hdb Hst. destruct acc as [n d].
  unfold createOrders_step. rewrite bind_run.
  unfold getOrderByItemId, gets.
  destruct (selectByItemId (orderItemId order) db) as [|o l] eqn:Hsel;
    [|done].
  cbn [head]. rewrite bind_run. unfold dbInsert.
  destruct (negb (int4 (quantity order))); [done|].
  destruct (negb (int4 (nextId db))); [done|].
  destruct (existsb _ (rows db)); [by apply drawn_keeps_inv|].
  rewrite Hsel. cbn [snd mret M_ret]. by apply insert_keeps_inv.
Qed.

Lemma createOrders_loop_inv (orderList : list InsertOrder) :
  ∀ (acc : nat * list string) (db : Db),
  StoreInv db → Forall statusConsistent orderList →
  StoreInv (forEach orderList createOrders_step acc db).2.
Proof.
  induction orderList as [|order rest IH]; intros acc db Hdb Hst; [done|].
  apply Forall_cons in Hst as [Hst1 Hst].
  cbn [forEach]. rewrite bind_run.
  pose proof (createOrders_step_inv order acc db Hdb Hst1) as Hstep.
  destruct (createOrders_step order acc db) as [[e|acc'] db']; [done|].
  by apply IH.
Qed.

(** The loop over candidates that the table accepts. *)
Lemma createOrders_loop_run (orderList : list InsertOrder) :
  ∀ (n : nat) (d : list string) (db : Db),
  Forall (fun o => int4 (quantity o) = true) orderList →
  serialRoom (length orderList) db →
  ∃ (n' : nat) (d' : list string) (added : list Order) (db' : Db),
    forEach orderList createOrders_step (n, d) db = (inr (n', d'), db')
    ∧ rows db' = rows db ++ added
    ∧ nextId db' = nextId db + Z.of_nat (length added)
    ∧ n' = (n + length added)%nat
    ∧ (length d' + length added = length d + length orderList)%nat
    ∧ (∀ o, o ∈ orderList → selectByItemId (orderItemId o) db' ≠ [])
    ∧ (∀ o, o ∈ added → fields o ∈ orderList)
    ∧ map id added = seqZ (nextId db) (Z.of_nat (length added)).
Proof.
  induction orderList as [|order rest IH]; intros n d db Hq Hroom.
  - exists n, d, [], db. cbn. rewrite app_nil_r.
    repeat apply conj; try done; try lia.
    + by intros o ?%elem_of_nil.
    + by intros o ?%elem_of_nil.
  - apply Forall_cons in Hq as [Hq1 Hq]. cbn [length] in Hroom.
    destruct (serialRoom_less _ _ Hroom) as [Hone Hrest].
    cbn [forEach]. rewrite bind_run.
    destruct (createOrders_step_run order n d db Hq1 Hone)
      as [[Hsel ->]|[Hsel ->]].
    + destruct (IH n (d ++ [orderItemId order]) db Hq Hrest)
        as (n' & d' & added & db' & Hrun & Hrows & Hnext & Hn & Hlen & Hall
            & Hadded & Hids).
      exists n', d', added, db'. rewrite Hrun.
      repeat apply conj; try done.
      * rewrite length_app in Hlen. cbn in *. lia.
      * intros o [->|Ho]%elem_of_cons; [|by apply Hall].
        apply selectByItemId_stored. rewrite Hrows, map_app, elem_of_app.
        left. by apply selectByItemId_stored.
      * intros o Ho. right. by apply Hadded.
    + set (db1 := {| rows := rows db ++ [ {| id := nextId db; fields := order |} ];
                     nextId := nextId db + 1 |}).
      destruct (IH (S n) d db1 Hq (serialRoom_next _ order _ Hroom))
        as (n' & d' & added & db' & Hrun & Hrows & Hnext & Hn & Hlen & Hall
            & Hadded & Hids).
      exists n', d', ({| id := nextId db; fields := order |} :: added), db'.
      rewrite Hrun. cbn [rows nextId db1] in *.
      repeat apply conj; try done.
      * by rewrite Hrows, <- app_assoc.
      * rewrite Hnext. cbn [length]. lia.
      * cbn [length]. lia.
      * cbn [length]. lia.
      * intros o [->|Ho]%elem_of_cons; [|by apply Hall].
        apply selectByItemId_stored. rewrite Hrows, !map_app, !elem_of_app.
        left. right. by left.
      * intros o [->|Ho]%elem_of_cons; [by left|]. right. by apply Hadded.
      * cbn [map length id]. rewrite Hids.
        rewrite (seqZ_cons (nextId db)) by lia. do 2 f_equal; lia.
Qed.



Lemma createOrders_inv (orderList : list InsertOrder) (db : Db) :
  StoreInv db → Forall statusConsistent orderList →
  StoreInv (createOrders orderList db).2.
Proof.
  intros Hdb Hst.
  pose proof (createOrders_loop_inv orderList (0%nat, []) db Hdb Hst) as Hinv.
  unfold createOrders. rewrite bind_run.
  by destruct (forEach orderList createOrders_step (0%nat, []) db)
    as [[e|acc] db'].
Qed.

(** X7.  [createOrders] keeps the table well formed: when the primary
    keys and the [orderItemId]s are pairwise different and every status is
    the derived one, the same holds after candidates with derived statuses
    have been imported, in particular two candidates with the same key
    never end up as two rows. *)
Theorem createOrders_keeps_inv (orderList : list InsertOrder) (db : Db) :
  StoreInv db → Forall statusConsistent orderList →
  StoreInv (createOrders orderList db).2.
Proof. apply createOrders_inv. Qed.

Lemma emptyDb_inv : StoreInv emptyDb.
Proof. split; cbn; constructor. Qed.

Lemma sampleDb_inv : StoreInv sampleDb.
Proof.
  split; cbn.
  - compute_done.
  - repeat constructor.
  - compute_done.
  - by repeat constructor.
Qed.

Lemma createOrders_keeps_inv_witness :
  StoreInv (createOrders (map (mapRecord (R := noParse) Amazon) twoItems)
                         sampleDb).2.
Proof.
  apply createOrders_keeps_inv; [exact sampleDb_inv|].
  by repeat constructor.
Defined.

(** The row with a given primary key is the only one. *)
Lemma selectById_unique (i : Z) (db : Db) (current o : Order) :
  NoDup (map id (rows db)) →
  head (selectById i db) = Some current → o ∈ rows db → id o = i →
  o = current.
Proof.
  intros Hnd Hcur Ho Hid.
  destruct (selectById_head_id _ _ _ Hcur) as [Hidc Hinc].
  revert Hnd Ho Hinc. generalize (rows db). intros l.
  induction l as [|x l IH]; intros Hnd Ho Hinc; [by apply elem_of_nil in Ho|].
  cbn in Hnd. apply NoDup_cons in Hnd as [Hx Hnd].
  apply elem_of_cons in Ho as [->|Ho], Hinc as [->|Hinc]; try done.
  - exfalso. apply Hx. rewrite Hid, <- Hidc. by apply list_elem_of_fmap_2.
  - exfalso. apply Hx. rewrite Hidc, <- Hid. by apply list_elem_of_fmap_2.
  - by apply IH.
Qed.

(** Changing the rows with one primary key keeps the keys pairwise
    different when the new key, if there is one, is no other row's. *)
Lemma update_keeps_keys (i : Z) (f : Order → InsertOrder) (k : option string)
    (l : list Order) :
  NoDup (map id l) →
  NoDup (map (fun o : Order => orderItemId o) l) →
  (∀ o, orderItemId (f o) = default (orderItemId o) k) →
  (∀ k' (o : Order), k = Some k' → o ∈ l → orderItemId o = k' → id o = i) →
  NoDup (map (fun o : Order => orderItemId o)
           (map (fun o => if id o =? i then {| id := id o; fields := f o |}
                          else o) l)).
Proof.
  intros Hids Hkeys Hf Hfree.
  destruct k as [k'|].
  2: { rewrite map_map. erewrite map_ext; [exact Hkeys|].
       intros o. cbn. destruct (id o =? i); [|done]. cbn. by rewrite Hf. }
  induction l as [|o l IH]; [constructor|].
  cbn [map] in *. apply NoDup_cons in Hids as [Hid Hids].
  apply NoDup_cons in Hkeys as [Hkey Hkeys].
  assert (∀ o' : Order, o' ∈ l → orderItemId o' = k' → id o' = i) as Hfree'.
  { intros o' Ho'. apply (Hfree k'); [done|by right]. }
  apply NoDup_cons. split.
  2: { apply IH; [done..|]. intros k0 o0 [= <-]. apply Hfree'. }
  rewrite map_map. intros (o' & Heq & Ho')%list_elem_of_fmap.
  destruct (id o =? i) eqn:Hoi; destruct (id o' =? i) eqn:Ho'i;
    cbn [orderItemId fields] in Heq; rewrite ?Hf in Heq; cbn in Heq.
  - apply Z.eqb_eq in Hoi, Ho'i. apply Hid. rewrite Hoi, <- Ho'i.
    by apply list_elem_of_fmap_2.
  - apply Z.eqb_eq in Hoi. apply Z.eqb_neq in Ho'i.
    apply Ho'i. apply Hfree'; [done|]. by rewrite <- Heq.
  - apply Z.eqb_neq in Hoi. apply Hoi.
    apply (Hfree k'); [done|by left|done].
  - apply Hkey. rewrite Heq.
    by apply (list_elem_of_fmap_2 (fun o : Order => orderItemId o)).
Qed.

(** What [updateOrder] does in each of its cases: no row, a refused
    update, an accepted update. *)
Lemma updateOrder_cases (i : Z) (data : Partial.t) (db : Db) :
  (selectById i db = [] ∧ updateOrder i data db = (inr None, db))
  ∨ (selectById i db ≠ []
     ∧ ((∃ q, Partial.quantity data = Some q ∧ int4 q = false)
        ∨ (∃ (k : string) (other : Order),
             Partial.orderItemId data = Some k ∧ other ∈ rows db
             ∧ orderItemId other = k ∧ id other ≠ i))
     ∧ ∃ e, updateOrder i data db = (inl e, db))
  ∨ (∃ current,
       head (selectById i db) = Some current
       ∧ (∀ k (o : Order), Partial.orderItemId data = Some k → o ∈ rows db →
            orderItemId o = k → id o = i)
       ∧ (∀ q, Partial.quantity data = Some q → int4 q = true)
       ∧ updateOrder i data db
         = (inr (Some {| id := i;
                         fields :=
                           applySet
                             (Partial.set_status
                                (deriveStatus
                                   (default (shippingCarrier current)
                                            (Partial.shippingCarrier data))
                                   (default (trackingNumber current)
                                            (Partial.trackingNumber data))
                                   (default (shippingDate current)
                                            (Partial.shippingDate data)))
                                data) current |}),
            {| rows :=
                 map (fun o =>
                        if id o =? i
                        then {| id := id o;
                                fields :=
                                  applySet
                                    (Partial.set_status
                                       (deriveStatus
                                          (default (shippingCarrier current)
                                             (Partial.shippingCarrier data))
                                          (default (trackingNumber current)
                                             (Partial.trackingNumber data))
                                          (default (shippingDate current)
                                             (Partial.shippingDate data)))
                                       data) o |}
                        else o) (rows db);
               nextId := nextId db |})).
Proof.
  destruct (selectById i db) as [|current rest] eqn:Hsel.
  { left. split; [done|]. unfold updateOrder. rewrite bind_run.
    unfold gets at 1. by rewrite Hsel. }
  right.
  assert ((∃ q, Partial.quantity data = Some q ∧ int4 q = false)
          ∨ (∀ q, Partial.quantity data = Some q → int4 q = true))
    as [(q & Hq & Hout)|Hrange].
  { destruct (Partial.quantity data) as [q|]; [|right; by intros].
    destruct (int4 q) eqn:Hq; [right; by intros ? [= <-]|left; by exists q]. }
  { left. split; [done|]. split; [left; by exists q|].
    exists (OutOfRange q).
    apply (updateOrder_out_of_range db i data current q); [|done..].
    by rewrite Hsel. }
  destruct (Partial.orderItemId data) as [k|] eqn:Hk.
  - destruct (existsb (fun o : Order =>
                         negb (id o =? i) && String.eqb (orderItemId o) k)
                      (rows db)) eqn:Hclash.
    + left. split; [done|].
      apply existsb_exists in Hclash as (other & Hin & Ho).
      apply andb_true_iff in Ho as [Hid Hkey].
      apply String.eqb_eq in Hkey. apply negb_true_iff, Z.eqb_neq in Hid.
      apply list_elem_of_In in Hin.
      split; [right; by exists k, other|].
      exists (UniqueViolation k).
      apply (updateOrder_refused db i data current other k); try done.
      by rewrite Hsel.
    + right. exists current.
      assert (∀ k0 (o : Order), Some k = Some k0 → o ∈ rows db →
                orderItemId o = k0 → id o = i) as Hfree.
      { intros k0 o [= <-] Hin Hkey.
        destruct (id o =? i) eqn:Hid; [by apply Z.eqb_eq|]. exfalso.
        apply not_true_iff_false in Hclash. apply Hclash.
        apply existsb_exists. exists o. split; [by apply list_elem_of_In|].
        rewrite Hid. cbn. by apply String.eqb_eq. }
      split; [done|]. split; [done|]. split; [done|].
      apply (updateOrder_existing db i data current);
        [by rewrite Hsel | by rewrite Hk | done].
  - right. exists current.
    split; [done|]. split; [done|]. split; [done|].
    apply (updateOrder_existing db i data current);
      [by rewrite Hsel | by rewrite Hk | done].
Qed.

(** [updateOrder] keeps the table well formed, whatever it is given. *)
Lemma updateOrder_inv (i : Z) (data : Partial.t) (db : Db) :
  StoreInv db → StoreInv (updateOrder i data db).2.
Proof.
  intros Hdb.
  destruct (updateOrder_cases i data db)
    as [[_ ->]|[(_ & _ & e & ->)|(current & Hcur & Hfree & _ & ->)]];
    [done..|].
  destruct Hdb as [Hids Hserial Hkeys Hstatus].
  cbn [snd]. split; cbn [rows nextId].
  - rewrite map_map. erewrite map_ext; [exact Hids|].
    intros o. cbn. by destruct (id o =? i).
  - apply Forall_fmap. eapply Forall_impl; [exact Hserial|].
    intros o Ho. cbn. by destruct (id o =? i).
  - apply (update_keeps_keys i _ (Partial.orderItemId data)); try done.
  - apply Forall_fmap. apply Forall_forall. intros o Ho. cbn.
    rewrite Forall_forall in Hstatus.
    destruct (id o =? i) eqn:Hid; [|by apply Hstatus].
    apply Z.eqb_eq in Hid.
    rewrite (selectById_unique i db current o Hids Hcur Ho Hid).
    reflexivity.
Qed.

Lemma patchOrder_typed {D : Driver} (i : Z) (data : Partial.t) (db : Db) :
  patchOrder i (Typed data) db
  = match updateOrder i data db with
    | (inr (Some o), db') => (Json o, db')
    | (inr None, db') => (NotFound "Bestellung nicht gefunden", db')
    | (inl _, db') => (ServerError "Fehler beim Aktualisieren", db')
    end.
Proof.
  unfold patchOrder, runRoute, updateOrderRaw. rewrite bind_run.
  by destruct (updateOrder i data db) as [[e|[o|]] db'].
Qed.

Section UpdateFacts.
Context {D : Driver}.

(** X8.  Given a payload of its declared type ([Partial<InsertOrder>]:
    no key [id], strings or null in the text columns, an integer
    quantity), [updateOrder] keeps the table well formed for every id,
    whether the update is applied, refused or finds no row, and so does
    the PATCH route for a body of that type: primary keys and
    [orderItemId]s stay pairwise different, the ids stay below the next
    serial value, and every stored status stays the one derived from the
    stored carrier, tracking number and shipping date. *)
Theorem updateOrder_keeps_inv (i : Z) (data : Partial.t) (db : Db) :
  StoreInv db →
  StoreInv (updateOrder i data db).2
  ∧ StoreInv (patchOrder i (Typed data) db).2.
Proof.
  intros Hdb. pose proof (updateOrder_inv i data db Hdb) as Hinv.
  split; [done|]. rewrite patchOrder_typed.
  by destruct (updateOrder i data db) as [[e|[o|]] db'].
Qed.

End UpdateFacts.

Lemma updateOrder_keeps_inv_witness :
  StoreInv (updateOrder 1 statusBody sampleDb).2
  ∧ StoreInv (patchOrder (D := idleDriver) 1 (Typed statusBody) sampleDb).2.
Proof. apply updateOrder_keeps_inv. exact sampleDb_inv. Defined.

Lemma filter_map_others (i : Z) (f : Order → InsertOrder) (l : list Order) :
  List.filter (fun o => negb (id o =? i))
    (map (fun o => if id o =? i then {| id := id o; fields := f o |} else o) l)
  = List.filter (fun o => negb (id o =? i)) l.
Proof.
  induction l as [|o l IH]; [done|]. cbn [map List.filter].
  destruct (id o =? i) eqn:Hid; cbn [id]; rewrite Hid; cbn [negb];
    by rewrite IH.
Qed.

Section RowFacts.
Context {D : Driver}.

(** X9.  Given a payload of its declared type, [updateOrder] writes to
    the addressed row only: for every id the table keeps the primary
    keys of its rows, in order, the next serial value, and every row
    with another id as it was; the same holds of the PATCH route for a
    body of that type.  When no row has the id (an id in the range of
    the key), nothing is written, [updateOrder] returns nothing and the
    PATCH route answers 404. *)
Theorem updateOrder_touches_one_row (i : Z) (data : Partial.t) (db : Db) :
  let after := (updateOrder i data db).2 in
  map id (rows after) = map id (rows db)
  ∧ nextId after = nextId db
  ∧ List.filter (fun o => negb (id o =? i)) (rows after)
    = List.filter (fun o => negb (id o =? i)) (rows db)
  ∧ (patchOrder i (Typed data) db).2 = after
  ∧ (int4 i = true → selectById i db = [] →
     updateOrder i data db = (inr None, db)
     ∧ patchOrder i (Typed data) db
       = (NotFound "Bestellung nicht gefunden", db)).
Proof.
  cbn zeta. rewrite patchOrder_typed.
  destruct (updateOrder_cases i data db)
    as [[Hnone Hrun]|[(Hsome & _ & e & Hrun)
                     |(current & Hcur & Hfree & _ & Hrun)]].
  - rewrite Hrun. repeat apply conj; done.
  - rewrite Hrun. repeat apply conj; done.
  - rewrite Hrun. cbn [snd rows nextId]. repeat apply conj; try done.
    + rewrite map_map. apply map_ext. intros o. by destruct (id o =? i).
    + apply filter_map_others.
    + intros _ Hnone. by rewrite Hnone in Hcur.
Qed.

End RowFacts.

(** [deleteOrder] keeps the table well formed. *)
Lemma deleteOrder_inv (i : Z) (db : Db) :
  StoreInv db → StoreInv (deleteOrder i db).2.
Proof.
  unfold deleteOrder. cbn [snd].
  intros [Hids Hserial Hkeys Hstatus]. split; cbn [rows nextId].
  - clear -Hids. induction (rows db) as [|o l IH]; [constructor|].
    cbn [map] in Hids. apply NoDup_cons in Hids as [Ho Hl].
    cbn [List.filter]. destruct (negb (id o =? i)); [|by apply IH].
    cbn [map]. apply NoDup_cons. split; [|by apply IH].
    intros (o' & Heq & Ho')%list_elem_of_fmap. apply Ho. rewrite Heq.
    apply list_elem_of_fmap_2. apply list_elem_of_In in Ho'.
    apply filter_In in Ho' as [Ho' _]. by apply list_elem_of_In.
  - apply Forall_forall. intros o Ho. rewrite Forall_forall in Hserial.
    apply Hserial. apply list_elem_of_In in Ho.
    apply filter_In in Ho as [Ho _]. by apply list_elem_of_In.
  - clear -Hkeys. induction (rows db) as [|o l IH]; [constructor|].
    cbn [map] in Hkeys. apply NoDup_cons in Hkeys as [Ho Hl].
    cbn [List.filter]. destruct (negb (id o =? i)); [|by apply IH].
    cbn [map]. apply NoDup_cons. split; [|by apply IH].
    intros (o' & Heq & Ho')%list_elem_of_fmap. apply Ho. rewrite Heq.
    apply (list_elem_of_fmap_2 (fun o : Order => orderItemId o)).
    apply list_elem_of_In in Ho'.
    apply filter_In in Ho' as [Ho' _]. by apply list_elem_of_In.
  - apply Forall_forall. intros o Ho. rewrite Forall_forall in Hstatus.
    apply Hstatus. apply list_elem_of_In in Ho.
    apply filter_In in Ho as [Ho _]. by apply list_elem_of_In.
Qed.


(** ** Routes: what a request can do to the table *)

Section RouteFacts.
Context {R : Runtime}.

Lemma mapRecord_consistent (p : Platform) (r : Row) :
  statusConsistent (mapRecord p r).
Proof.
  unfold statusConsistent, deriveStatus. destruct p; cbn [mapRecord];
    open_mapper; by rewrite andb_false_r.
Qed.

Lemma collectOrders_mapped (p : Platform) (records : list Row) :
  ∀ seenInFile : gset string,
  Forall (fun o => ∃ r, r ∈ records ∧ o = mapRecord p r)
         (collectOrders p records seenInFile)
  ∧ (length (collectOrders p records seenInFile) ≤ length records)%nat.
Proof.
  induction records as [|r rest IH]; intros seen; [by split; [constructor|]|].
  cbn [collectOrders length].
  assert (∀ l : list InsertOrder,
            Forall (fun o => ∃ r0, r0 ∈ rest ∧ o = mapRecord p r0) l →
            Forall (fun o => ∃ r0, r0 ∈ r :: rest ∧ o = mapRecord p r0) l)
    as Hweaken.
  { intros l Hl. eapply Forall_impl; [exact Hl|]. intros o (r0 & Hin & ->).
    exists r0. split; [by right|done]. }
  destruct (negb _ || _).
  { destruct (IH seen) as [Hall Hlen]. split; [by apply Hweaken | lia]. }
  destruct (bool_decide _).
  { destruct (IH seen) as [Hall Hlen]. split; [by apply Hweaken | lia]. }
  destruct (IH ({[orderItemId (mapRecord p r)]} ∪ seen)) as [Hall Hlen].
  split; [|cbn [length]; lia].
  apply Forall_cons. split; [|by apply Hweaken].
  exists r. split; [by left | done].
Qed.

Lemma serialRoom_le (n m : nat) (db : Db) :
  (n ≤ m)%nat → serialRoom m db → serialRoom n db.
Proof. intros Hle (Hlow & Hhigh & Hserial). repeat split; try done; lia. Qed.


End RouteFacts.

(** ** Fuzzy reconciler: the outcomes of a manifest row *)

Lemma updateOrder_shipping_frame (i : Z) (c t today : string) (db : Db) :
  ∃ (res : option Order) (db' : Db),
    updateOrder i (shippingUpdate c t today) db = (inr res, db')
    ∧ map identityOf (rows db') = map identityOf (rows db)
    ∧ nextId db' = nextId db.
Proof.
  unfold updateOrder. rewrite bind_run. unfold gets at 1.
  destruct (selectById i db) as [|current rest] eqn:Hsel.
  - by exists None, db.
  - rewrite bind_run, dbUpdate_accepts by absent_key.
    eexists _, _. split; [reflexivity|]. split; [|done].
    cbn [rows]. rewrite map_map. apply map_ext. intros o.
    by destruct (id o =? i).
Qed.

Lemma updateMatching_frame (c t today : string) (matchingOrders : list Order) :
  ∀ (rep : ShippingReport) (db : Db),
  ∃ db' : Db,
    updateMatching c t today matchingOrders rep db
    = (inr {| updated := (length matchingOrders + updated rep)%nat;
              notFound := notFound rep;
              fuzzyMatched := fuzzyMatched rep;
              ambiguous := ambiguous rep |}, db')
    ∧ map identityOf (rows db') = map identityOf (rows db)
    ∧ nextId db' = nextId db
    ∧ (StoreInv db → StoreInv db').
Proof.
  unfold updateMatching.
  induction matchingOrders as [|order rest IH]; intros rep db.
  - exists db. by destruct rep.
  - destruct (updateOrder_shipping_frame (id order) c t today db)
      as (res & db1 & Hrun & Hframe & Hnext).
    destruct (IH (countUpdated rep) db1) as (db' & Hrest & Hframe' & Hnext' & Hinv).
    exists db'. repeat apply conj; [|congruence|congruence|].
    + cbn [forEach]. rewrite !bind_run, Hrun. cbn [mret M_ret].
      rewrite Hrest. cbn. repeat f_equal. lia.
    + intros Hdb. apply Hinv.
      pose proof (updateOrder_inv (id order) (shippingUpdate c t today) db Hdb)
        as Hone.
      by rewrite Hrun in Hone.
Qed.

(** An order is a candidate only through the name or the phone of the
    row, so the test [csvName || csvPhone] of the route never excludes
    one. *)
Lemma isCandidate_hint (csvName csvPhone csvOrt : string) (o : Order) :
  isCandidate csvName csvPhone csvOrt o = true →
  JS.truthy csvName || JS.truthy csvPhone = true.
Proof.
  unfold isCandidate, nameMatch, phoneMatch.
  destruct (JS.truthy csvName), (JS.truthy csvPhone); cbn; done.
Qed.

(** The five outcomes of a manifest row. *)
Lemma shipRow_outcome (today : string) (allOrders : list Order) (r : Row)
    (rep : ShippingReport) (db : Db) :
  let candidates :=
    List.filter (isCandidate (csvNameOf r) (csvPhoneOf r) (csvOrtOf r))
                allOrders in
  let counted (m : nat) (rep0 : ShippingReport) :=
    {| updated := (m + updated rep0)%nat; notFound := notFound rep0;
       fuzzyMatched := fuzzyMatched rep0; ambiguous := ambiguous rep0 |} in
  ∃ (rep' : ShippingReport) (db' : Db),
    shipRow today allOrders r rep db = (inr rep', db')
    ∧ map identityOf (rows db') = map identityOf (rows db)
    ∧ nextId db' = nextId db
    ∧ (StoreInv db → StoreInv db')
    ∧ ((referenzOf r = "" ∧ rep' = rep ∧ db' = db)
       ∨ (referenzOf r ≠ "" ∧
          ((selectByOrderId (referenzOf r) db ≠ []
            ∧ rep' = counted (length (selectByOrderId (referenzOf r) db)) rep)
           ∨ (selectByOrderId (referenzOf r) db = []
              ∧ ((candidates = [] ∧ rep' = pushNotFound (referenzOf r) rep
                  ∧ db' = db)
                 ∨ (∃ one, candidates = [one]
                      ∧ rep' = counted 1%nat
                                 (pushFuzzyMatched
                                    (fuzzyMessage (referenzOf r) one) rep))
                 ∨ ((2 ≤ length candidates)%nat
                    ∧ rep' = pushAmbiguous (referenzOf r) rep
                    ∧ db' = db)))))).
Proof.
  cbn zeta. unfold shipRow.
  destruct (JS.truthy (referenzOf r)) eqn:Href; cbn [negb].
  2: { apply truthy_false_iff in Href. exists rep, db.
       repeat apply conj; try done. by left. }
  apply truthy_nonempty in Href.
  rewrite bind_run. unfold getOrdersByOrderId, gets.
  set (carrier := JS.trim (JS.or_else (r !! "Lieferant") "")).
  set (trackingNum := JS.trim (JS.or_else (r !! "Paketnummer Lieferant") "")).
  set (candidates := List.filter _ allOrders).
  destruct (selectByOrderId (referenzOf r) db) as [|m ms] eqn:Hsel.
  - cbn [length Nat.eqb andb].
    destruct candidates as [|one [|two more]] eqn:Hcand.
    + exists (pushNotFound (referenzOf r) rep), db.
      repeat apply conj; try done.
      * by destruct (JS.truthy _ || JS.truthy _).
      * right. split; [done|]. right. split; [done|]. by left.
    + assert (JS.truthy (csvNameOf r) || JS.truthy (csvPhoneOf r) = true)
        as ->.
      { apply (isCandidate_hint _ _ (csvOrtOf r) one).
        assert (In one candidates) as Hin by (rewrite Hcand; by left).
        by apply filter_In in Hin as [_ ?]. }
      destruct (updateMatching_frame carrier trackingNum today [one]
                  (pushFuzzyMatched (fuzzyMessage (referenzOf r) one) rep) db)
        as (db' & Hrun & Hframe & Hnext & Hinv).
      eexists _, db'. split; [exact Hrun|].
      repeat apply conj; try done.
      right. split; [done|]. right. split; [done|]. right. left.
      by exists one.
    + assert (JS.truthy (csvNameOf r) || JS.truthy (csvPhoneOf r) = true)
        as ->.
      { apply (isCandidate_hint _ _ (csvOrtOf r) one).
        assert (In one candidates) as Hin by (rewrite Hcand; by left).
        by apply filter_In in Hin as [_ ?]. }
      exists (pushAmbiguous (referenzOf r) rep), db.
      repeat apply conj; try done.
      right. split; [done|]. right. split; [done|]. right. right.
      split; [cbn; lia | done].
  - cbn [length Nat.eqb andb].
    destruct (updateMatching_frame carrier trackingNum today (m :: ms) rep db)
      as (db' & Hrun & Hframe & Hnext & Hinv).
    eexists _, db'. split; [exact Hrun|].
    repeat apply conj; try done.
    right. split; [done|]. left. by split.
Qed.

(** The loop over the manifest rows, from any report and table. *)
Lemma shipRows_run (today : string) (allOrders : list Order)
    (records : list Row) :
  ∀ (rep : ShippingReport) (db : Db),
  ∃ (rep' : ShippingReport) (db' : Db),
    forEach records (shipRow today allOrders) rep db = (inr rep', db')
    ∧ map identityOf (rows db') = map identityOf (rows db)
    ∧ nextId db' = nextId db
    ∧ (StoreInv db → StoreInv db')
    ∧ (length (notFound rep') + length (fuzzyMatched rep')
       + length (ambiguous rep')
       ≤ length (notFound rep) + length (fuzzyMatched rep)
         + length (ambiguous rep) + length records)%nat
    ∧ (updated rep + length (fuzzyMatched rep')
       ≤ updated rep' + length (fuzzyMatched rep))%nat
    ∧ (∀ ref, ref ∈ notFound rep' ++ ambiguous rep' →
         ref ∈ notFound rep ++ ambiguous rep
         ∨ (ref ≠ "" ∧ ∃ r, r ∈ records ∧ ref = referenzOf r
                           ∧ selectByOrderId ref db = [])).
Proof.
  induction records as [|r records IH]; intros rep db.
  - exists rep, db. repeat apply conj; try done; try lia. by left.
  - destruct (shipRow_outcome today allOrders r rep db)
      as (rep1 & db1 & Hrun & Hframe & Hnext & Hinv & Hcases).
    destruct (IH rep1 db1)
      as (rep' & db' & Hrest & Hframe' & Hnext' & Hinv' & Hlen & Hupd & Hrefs).
    exists rep', db'. cbn [forEach]. rewrite bind_run, Hrun.
    split; [exact Hrest|].
    assert (∀ ref, selectByOrderId ref db1 = [] → selectByOrderId ref db = [])
      as Hsame.
    { intros ref. unfold selectByOrderId.
      assert (map (fun o : Order => orderId o) (rows db1)
              = map (fun o : Order => orderId o) (rows db)) as Hids.
      { apply (f_equal (map (fun t => t.1.1.1.2.1.2))) in Hframe.
        by rewrite !map_map in Hframe. }
      revert Hids. generalize (rows db1) (rows db).
      intros l1. induction l1 as [|x l1 IHl]; intros [|y l2] Hids;
        try done.
      injection Hids as Hxy Hids. cbn [List.filter]. rewrite Hxy.
      destruct (String.eqb (orderId y) ref); [done|]. by apply IHl. }
    assert (∀ ref, ref ∈ notFound rep1 ++ ambiguous rep1 →
              ref ∈ notFound rep ++ ambiguous rep
              ∨ (ref ≠ "" ∧ ref = referenzOf r
                 ∧ selectByOrderId ref db = [])) as Hone.
    { intros ref Hin.
      destruct Hcases as [(_ & -> & _)|(Href & [(_ & ->)|(Hsel & Hcand)])];
        [by left|by left|].
      destruct Hcand as [(_ & -> & _)|[(one & _ & ->)|(_ & -> & _)]];
        cbn [notFound ambiguous pushNotFound pushAmbiguous] in Hin.
      - rewrite <- app_assoc in Hin.
        apply elem_of_app in Hin as [Hin|Hin];
          [left; by apply elem_of_app; left|].
        apply elem_of_cons in Hin as [->|Hin];
          [by right|left; by apply elem_of_app; right].
      - by left.
      - rewrite app_assoc in Hin.
        apply elem_of_app in Hin as [Hin|Hin]; [by left|].
        apply list_elem_of_singleton in Hin as ->. by right. }
    repeat apply conj.
    + congruence.
    + congruence.
    + tauto.
    + cbn [length]. etrans; [exact Hlen|].
      destruct Hcases as [(_ & -> & _)|(Href & [(_ & ->)|(Hsel & Hcand)])];
        cbn [notFound fuzzyMatched ambiguous]; [lia..|].
      destruct Hcand as [(_ & -> & _)|[(one & _ & ->)|(_ & -> & _)]];
        cbn [notFound fuzzyMatched ambiguous pushNotFound pushFuzzyMatched
             pushAmbiguous]; rewrite ?length_app; cbn [length]; lia.
    + destruct Hcases as [(_ & -> & _)|(Href & [(_ & ->)|(Hsel & Hcand)])];
        cbn [updated fuzzyMatched] in Hupd |- *; [lia..|].
      destruct Hcand as [(_ & -> & _)|[(one & _ & ->)|(_ & -> & _)]];
        cbn [updated fuzzyMatched pushNotFound pushFuzzyMatched
             pushAmbiguous] in Hupd |- *;
        rewrite ?length_app in *; cbn [length] in *; lia.
    + intros ref Hin. destruct (Hrefs ref Hin) as [Hold|(Hne & r' & Hr' & -> & Hsel)].
      * destruct (Hone ref Hold) as [?|(? & -> & ?)]; [by left|].
        right. split; [done|]. exists r. split; [by left|done].
      * right. split; [done|]. exists r'.
        split; [by right|]. split; [done|]. by apply Hsame.
Qed.


Lemma two_elements {A} (x y : A) (l : list A) :
  x ≠ y → x ∈ l → y ∈ l → (2 ≤ length l)%nat.
Proof.
  intros Hxy Hx Hy. destruct l as [|a [|b l]]; cbn; [| |lia].
  - by apply elem_of_nil in Hx.
  - apply list_elem_of_singleton in Hx, Hy. congruence.
Qed.

(** X14.  A manifest row whose reference is the order number of no
    stored order, and for which two different orders of the set read
    before the loop pass the candidate test, is reported as ambiguous:
    its reference goes on that list, nothing is counted, and no order is
    written. *)
Theorem shipRow_ambiguous (today : string) (allOrders : list Order) (r : Row)
    (rep : ShippingReport) (db : Db) (one two : Order) :
  referenzOf r ≠ "" →
  selectByOrderId (referenzOf r) db = [] →
  one ∈ allOrders → two ∈ allOrders → one ≠ two →
  isCandidate (csvNameOf r) (csvPhoneOf r) (csvOrtOf r) one = true →
  isCandidate (csvNameOf r) (csvPhoneOf r) (csvOrtOf r) two = true →
  shipRow today allOrders r rep db
  = (inr {| updated := updated rep; notFound := notFound rep;
            fuzzyMatched := fuzzyMatched rep;
            ambiguous := ambiguous rep ++ [referenzOf r] |}, db).
Proof.
  intros Href Hsel Hone Htwo Hdiff Hc1 Hc2.
  assert (2 ≤ length (List.filter
                        (isCandidate (csvNameOf r) (csvPhoneOf r) (csvOrtOf r))
                        allOrders))%nat as Hlen.
  { apply (two_elements one two); [done|..];
      apply list_elem_of_In, filter_In; by rewrite <- list_elem_of_In. }
  destruct (shipRow_outcome today allOrders r rep db)
    as (rep' & db' & -> & _ & _ & _ & Hcases).
  destruct Hcases as [(? & _)|(_ & [(? & _)|(_ & Hcand)])]; [done..|].
  destruct Hcand as [(Hnil & _)|[(c & Hc & _)|(_ & -> & ->)]].
  - rewrite Hnil in Hlen. cbn in Hlen. lia.
  - rewrite Hc in Hlen. cbn in Hlen. lia.
  - done.
Qed.

Lemma shipRow_ambiguous_witness :
  shipRow "2024-03-05" (rows namesakes) namesakeRow emptyReport namesakes
  = (inr {| updated := 0; notFound := []; fuzzyMatched := [];
            ambiguous := ["R-79"] |}, namesakes).
Proof.
  apply (shipRow_ambiguous "2024-03-05" (rows namesakes) namesakeRow
           emptyReport namesakes
           (sampleOrder 1 "A-1" "A-1-1" "Erika" "Muster" "0171 8812345"
              "Berlin")
           (sampleOrder 2 "A-2" "A-2-1" "Erika" "Muster" "030 5550199"
              "Berlin")).
  - vm_compute. discriminate.
  - vm_compute. reflexivity.
  - vm_compute. apply list_elem_of_here.
  - vm_compute. apply list_elem_of_further, list_elem_of_here.
  - vm_compute. discriminate.
  - vm_compute. reflexivity.
  - vm_compute. reflexivity.
Defined.



(** ** Manifest import: matching against the set read before the loop *)

Lemma filter_by_identity (p : Order → bool) :
  (∀ o o' : Order, identityOf o = identityOf o' → p o = p o') →
  ∀ l l' : list Order,
    map identityOf l = map identityOf l' →
    map identityOf (List.filter p l) = map identityOf (List.filter p l').
Proof.
  intros Hp l. induction l as [|x l IH]; intros [|y l'] Heq; try done.
  cbn [map] in Heq.
  assert (identityOf x = identityOf y ∧ map identityOf l = map identityOf l')
    as [Hxy Hrest] by (split; congruence).
  cbn [List.filter]. rewrite (Hp x y Hxy).
  destruct (p y); cbn [map]; [f_equal; [done|]|]; by apply IH.
Qed.

Lemma isCandidate_identity (csvName csvPhone csvOrt : string) (o o' : Order) :
  identityOf o = identityOf o' →
  isCandidate csvName csvPhone csvOrt o = isCandidate csvName csvPhone csvOrt o'.
Proof.
  unfold identityOf, isCandidate, nameMatch, phoneMatch, cityMatch.
  intros Heq. injection Heq as _ _ _ _ _ _ Hphone Hfirst Hlast _ _ Hcity.
  by rewrite Hphone, Hfirst, Hlast, Hcity.
Qed.

(** X16.  The manifest route reads the order set once, before its loop,
    and writes orders inside the loop.  The writes never make that set
    stale for matching: after any number of manifest rows, the candidate
    test selects the same orders from the table as from the set read
    before the loop, and the exact match on the order number selects the
    same orders as it would have at the start. *)
Theorem manifest_snapshot_current (today : string) (records : list Row)
    (rep : ShippingReport) (db : Db) (csvName csvPhone csvOrt ref : string) :
  let after := (forEach records (shipRow today (rows db)) rep db).2 in
  map identityOf (List.filter (isCandidate csvName csvPhone csvOrt)
                              (rows after))
  = map identityOf (List.filter (isCandidate csvName csvPhone csvOrt)
                                (rows db))
  ∧ map identityOf (selectByOrderId ref after)
    = map identityOf (selectByOrderId ref db).
Proof.
  cbn zeta.
  destruct (shipRows_run today (rows db) records rep db)
    as (rep' & db' & -> & Hframe & _).
  cbn [snd]. split.
  - apply filter_by_identity; [|done]. apply isCandidate_identity.
  - unfold selectByOrderId. apply filter_by_identity; [|done].
    unfold identityOf. intros o o' Heq.
    injection Heq as _ _ _ Horder _. by rewrite Horder.
Qed.

(** ** The table behind the routes *)

Lemma importShipping_inv (today : string) (records : list Row) (db : Db) :
  StoreInv db → StoreInv (importShipping today records db).2.
Proof.
  unfold importShipping, runRoute. destruct records as [|r records]; [done|].
  rewrite bind_run. unfold getAllOrders at 1, gets at 1.
  destruct (shipRows_run today (rows db) (r :: records) emptyReport db)
    as (rep & db' & Hrun & _ & _ & Hinv & _).
  by rewrite bind_run, Hrun.
Qed.

Section ServerFacts.
Context {R : Runtime} {D : Driver}.

Lemma importOrders_inv (records : list Row) (db : Db) :
  StoreInv db → StoreInv (importOrders records db).2.
Proof.
  intros Hdb. unfold importOrders, runRoute.
  destruct records as [|r rest]; [done|].
  set (records := r :: rest).
  set (orderList := collectOrders (detectPlatform (firstRecordKeys records))
                                  records ∅).
  destruct (collectOrders_mapped (detectPlatform (firstRecordKeys records))
              records ∅) as [Hmapped _]. fold orderList in Hmapped.
  assert (Forall statusConsistent orderList) as Hst.
  { eapply Forall_impl; [exact Hmapped|].
    intros o (r0 & _ & ->). apply mapRecord_consistent. }
  pose proof (createOrders_inv orderList db Hdb Hst) as Hinv.
  rewrite bind_run.
  by destruct (createOrders orderList db) as [[e|report] db'].
Qed.

Lemma serve_inv (db : Db) (q : Request) :
  (∀ i json, q ≠ PatchOrder i (Untyped json)) →
  StoreInv db → StoreInv (serve db q).
Proof.
  intros Htyped Hdb.
  destruct q as [records|today records|i [data|json]|i]; cbn [serve].
  - by apply importOrders_inv.
  - by apply importShipping_inv.
  - rewrite patchOrder_typed.
    pose proof (updateOrder_inv i data db Hdb) as Hinv.
    by destruct (updateOrder i data db) as [[e|[o|]] db'].
  - by destruct (Htyped i json).
  - by apply deleteOrder_inv.
Qed.

Lemma served_inv (reqs : list Request) :
  Forall (fun q => ∀ i json, q ≠ PatchOrder i (Untyped json)) reqs →
  ∀ db, StoreInv db → StoreInv (fold_left serve reqs db).
Proof.
  induction 1 as [|q reqs Hq _ IH]; intros db Hdb; [done|].
  cbn [fold_left]. by apply IH, serve_inv.
Qed.

(** X17.  Whatever sequence of file imports, manifest imports, PATCH
    requests with a body of the declared type ([Partial<InsertOrder>])
    and DELETE-by-id requests the server has handled since the table was
    empty, whatever those requests carried and however they were
    answered: no two stored orders share an id or a line-item key, every
    id is below the next serial value, and every stored order is
    [Versendet] exactly when its carrier, tracking number and shipping
    date are all non-empty, and [Offen] otherwise. *)
Theorem served_table_consistent (reqs : list Request) :
  Forall (fun q => ∀ i json, q ≠ PatchOrder i (Untyped json)) reqs →
  let db := fold_left serve reqs emptyDb in
  NoDup (map id (rows db))
  ∧ NoDup (map (fun o : Order => orderItemId o) (rows db))
  ∧ ∀ o : Order, o ∈ rows db →
      id o < nextId db
      ∧ (status o = "Versendet" ↔
         (∃ s, shippingCarrier o = Some s ∧ s ≠ "")
         ∧ (∃ s, trackingNumber o = Some s ∧ s ≠ "")
         ∧ (∃ s, shippingDate o = Some s ∧ s ≠ ""))
      ∧ (status o ≠ "Versendet" → status o = "Offen").
Proof.
  intros Htyped. cbn zeta.
  destruct (served_inv reqs Htyped emptyDb emptyDb_inv)
    as [Hids Hserial Hkeys Hstatus].
  split; [done|]. split; [done|]. intros o Ho.
  rewrite Forall_forall in Hserial, Hstatus.
  split; [by apply Hserial|].
  pose proof (Hstatus o Ho) as Hst. unfold statusConsistent in Hst.
  rewrite Hst, deriveStatus_Versendet. split; [done|].
  intros Hnot. by apply deriveStatus_Offen.
Qed.

End ServerFacts.

Lemma served_table_consistent_witness :
  let db :=
    fold_left (serve (R := noParse) (D := idleDriver)) sampleRequests
              emptyDb in
  NoDup (map id (rows db))
  ∧ NoDup (map (fun o : Order => orderItemId o) (rows db))
  ∧ ∀ o : Order, o ∈ rows db →
      id o < nextId db
      ∧ (status o = "Versendet" ↔
         (∃ s, shippingCarrier o = Some s ∧ s ≠ "")
         ∧ (∃ s, trackingNumber o = Some s ∧ s ≠ "")
         ∧ (∃ s, shippingDate o = Some s ∧ s ≠ ""))
      ∧ (status o ≠ "Versendet" → status o = "Offen").
Proof.
  apply (served_table_consistent (R := noParse) (D := idleDriver)
           sampleRequests).
  repeat (constructor; [intros i json; discriminate|]). constructor.
Defined.

(** ** Remote order client: what a call costs *)

(** The loop from [attempt] on, against any service. *)
Lemma retryLoop_bounded (url : string) :
  ∀ (remaining attempt : nat) (w : Net.World),
  ∃ (out : string + Net.Response) (w' : Net.World) (made : nat)
    (events : list Net.Event),
    Net.retryLoop url remaining attempt w = (out, w')
    ∧ Net.server w' = Net.server w
    ∧ Net.requests w' = (made + Net.requests w)%nat
    ∧ Net.log w' = Net.log w ++ events
    ∧ match out with
      | inr res =>
          (1 ≤ made ≤ remaining)%nat
          ∧ res = Net.server w url (made - 1 + Net.requests w)
          ∧ Net.status res ≠ 429
          ∧ (∀ j, (j < made - 1)%nat →
               Net.status (Net.server w url (j + Net.requests w)) = 429)
          ∧ waited events
            = 2000 * (2 ^ Z.of_nat (attempt + (made - 1))
                      - 2 ^ Z.of_nat attempt)
      | inl e =>
          e = Net.rateLimitError
          ∧ made = remaining
          ∧ (∀ j, (j < made)%nat →
               Net.status (Net.server w url (j + Net.requests w)) = 429)
          ∧ waited events
            = 2000 * (2 ^ Z.of_nat (attempt + made) - 2 ^ Z.of_nat attempt)
      end.
Proof.
  induction remaining as [|remaining IH]; intros attempt w.
  - exists (inl Net.rateLimitError), w, 0%nat, [].
    repeat apply conj; try done.
    + by rewrite app_nil_r.
    + intros j Hj. lia.
    + rewrite Nat.add_0_r. cbn. lia.
  - cbn [Net.retryLoop]. rewrite bind_run. unfold Net.fetch at 1.
    destruct (Net.status (Net.server w url (Net.requests w)) =? 429)
      eqn:Hfirst.
    + rewrite bind_run. unfold Net.sleep at 1, modify at 1.
      cbn [Net.server Net.requests Net.log].
      set (w1 := {| Net.server := Net.server w;
                    Net.requests := S (Net.requests w);
                    Net.log := (Net.log w ++ [Net.Requested url])
                               ++ [Net.Slept (2 ^ Z.of_nat attempt * 2000)] |}).
      destruct (IH (S attempt) w1)
        as (out & w' & made & events & Hrun & Hserver & Hreq & Hlog & Hout).
      exists out, w', (S made),
        (Net.Requested url :: Net.Slept (2 ^ Z.of_nat attempt * 2000)
         :: events).
      split; [exact Hrun|]. split; [done|].
      split; [rewrite Hreq; cbn; lia|].
      split; [rewrite Hlog; cbn; by rewrite <- !app_assoc|].
      apply Z.eqb_eq in Hfirst.
      assert (∀ n j, (j < S n)%nat →
                (∀ j', (j' < n)%nat →
                   Net.status (Net.server w url (j' + S (Net.requests w)))
                   = 429) →
                Net.status (Net.server w url (j + Net.requests w)) = 429)
        as Hshift.
      { intros n [|j] Hj Hn; [done|].
        rewrite Nat.add_succ_comm. apply Hn. lia. }
      assert (2 ^ Z.of_nat (S attempt) = 2 * 2 ^ Z.of_nat attempt) as Hpow.
      { rewrite Nat2Z.inj_succ, Z.pow_succ_r by lia. done. }
      destruct out as [e|res].
      * destruct Hout as (-> & -> & H429 & Hwait).
        repeat apply conj; try done.
        -- intros j Hj. by apply (Hshift remaining).
        -- cbn [waited fold_right]. fold (waited events). rewrite Hwait.
           replace (attempt + S remaining)%nat
             with (S attempt + remaining)%nat by lia.
           lia.
      * destruct Hout as (Hmade & -> & Hok & H429 & Hwait).
        repeat apply conj; try done; try lia.
        -- cbn [Net.server Net.requests w1]. f_equal. lia.
        -- intros j Hj. apply (Hshift (made - 1)%nat); [lia|done].
        -- cbn [waited fold_right]. fold (waited events). rewrite Hwait.
           replace (attempt + (S made - 1))%nat
             with (S attempt + (made - 1))%nat by lia.
           lia.
    + exists (inr (Net.server w url (Net.requests w))),
        {| Net.server := Net.server w; Net.requests := S (Net.requests w);
           Net.log := Net.log w ++ [Net.Requested url] |},
        1%nat, [Net.Requested url].
      apply Z.eqb_neq in Hfirst.
      repeat apply conj; try done; try lia.
      change (1 - 1)%nat with 0%nat. rewrite Nat.add_0_r. cbn. lia.
Qed.

(** X18.  A call of the retry wrapper makes at most [maxRetries]
    requests and changes nothing but the request count and the log.  A
    response it returns is the answer to its last request and never a
    429, and every answer before it was a 429.  What the call does is
    fixed by the statuses of the answers: when the answers to the first
    [k] requests are 429 and the answer to the next one is not, with
    [k < maxRetries], the call returns that answer after [k + 1]
    requests; when the answers to the first [maxRetries] requests are
    all 429, the call throws the rate-limit error after [maxRetries]
    requests, and it has still waited after the last of them.  The time
    spent waiting is [2000 * (2^n - 1)] ms for [n] answers with status
    429.  With [maxRetries = 0] the call throws without a request.  The
    service of this model answers every request; a request that fails
    before an answer arrives is outside of it, and nothing is stated
    here about the errors of such a run. *)
Theorem fetchWithRetry_bounded (url : string) (maxRetries : nat)
    (w : Net.World) :
  let answer (j : nat) := Net.server w url (j + Net.requests w) in
  ∃ (out : string + Net.Response) (w' : Net.World) (made : nat)
    (events : list Net.Event),
    Net.fetchWithRetry url maxRetries w = (out, w')
    ∧ Net.server w' = Net.server w
    ∧ Net.requests w' = (made + Net.requests w)%nat
    ∧ Net.log w' = Net.log w ++ events
    ∧ (made ≤ maxRetries)%nat
    ∧ (∀ res, out = inr res →
         (1 ≤ made)%nat
         ∧ res = answer (made - 1)%nat
         ∧ Net.status res ≠ 429
         ∧ (∀ j, (j < made - 1)%nat → Net.status (answer j) = 429)
         ∧ waited events = 2000 * (2 ^ Z.of_nat (made - 1) - 1))
    ∧ (∀ k, (k < maxRetries)%nat →
         (∀ j, (j < k)%nat → Net.status (answer j) = 429) →
         Net.status (answer k) ≠ 429 →
         out = inr (answer k) ∧ made = S k
         ∧ waited events = 2000 * (2 ^ Z.of_nat k - 1))
    ∧ ((∀ j, (j < maxRetries)%nat → Net.status (answer j) = 429) →
         out = inl Net.rateLimitError ∧ made = maxRetries
         ∧ waited events = 2000 * (2 ^ Z.of_nat maxRetries - 1))
    ∧ (maxRetries = 0%nat → out = inl Net.rateLimitError ∧ w' = w).
Proof.
  cbn zeta. unfold Net.fetchWithRetry.
  destruct (retryLoop_bounded url maxRetries 0 w)
    as (out & w' & made & events & Hrun & Hserver & Hreq & Hlog & Hout).
  exists out, w', made, events.
  split; [exact Hrun|]. split; [exact Hserver|]. split; [exact Hreq|].
  split; [exact Hlog|].
  destruct out as [e|res].
  - destruct Hout as (-> & -> & H429 & Hwait).
    repeat apply conj; try done.
    + intros k Hk _ Hok. destruct Hok. by apply H429.
    + intros ->. split; [done|]. cbn in Hrun. unfold throw in Hrun.
      congruence.
  - destruct Hout as (Hmade & -> & Hok & H429 & Hwait).
    repeat apply conj; try lia.
    + intros res' [= <-]. repeat apply conj; try done; lia.
    + intros k Hk Hbefore Hnot.
      assert (made = S k) as ->.
      { destruct (Nat.lt_trichotomy (made - 1) k) as [Hlt|[Heq|Hgt]];
          [|lia|].
        - destruct Hok. by apply Hbefore.
        - destruct Hnot. by apply H429. }
      replace (S k - 1)%nat with k in * by lia.
      repeat apply conj; done.
    + intros Hall. destruct Hok. apply Hall. lia.
Qed.

(** ** The PATCH route: its three answers *)

Section PatchFacts.
Context {D : Driver}.


End PatchFacts.

(** ** Field normalisers: eBay dates and prices *)

Lemma isDigit_not_dot (c : ascii) : JS.isDigit c = true → c ≠ "."%char.
Proof. by intros Hd ->. Qed.

Lemma isWordChar_not_dot (c : ascii) : isWordChar c = true → c ≠ "."%char.
Proof. by intros Hd ->. Qed.

(** A match of the dotted pattern has its points at offsets 2 and 5. *)
Lemma dottedAt_dot (l : list ascii) (found : string * string * string) :
  dottedAt l = Some found → l !! 2%nat = Some "."%char.
Proof.
  unfold dottedAt.
  do 10 (destruct l as [|? l]; [done|]).
  destruct (forallb _ _); [|done]. cbn [andb lookup list_lookup].
  destruct (JS.eqc "." a1) eqn:Hdot; [|done].
  apply eqc_true in Hdot as ->. done.
Qed.

Lemma dottedAt_found (d1 d2 m1 m2 y1 y2 y3 y4 : ascii) (rest : list ascii) :
  forallb JS.isDigit [d1; d2; m1; m2; y1; y2; y3; y4] = true →
  dottedAt (d1 :: d2 :: "."%char :: m1 :: m2 :: "."%char :: y1 :: y2 :: y3
            :: y4 :: rest)
  = Some (JS.str [d1; d2], JS.str [m1; m2], JS.str [y1; y2; y3; y4]).
Proof. intros Hd. unfold dottedAt. by rewrite Hd. Qed.

Lemma findDotted_none (l : list ascii) :
  "."%char ∉ l → findDotted l = None.
Proof.
  induction l as [|c l IH]; intros Hno.
  - done.
  - cbn [findDotted]. destruct (dottedAt (c :: l)) as [found|] eqn:Hat.
    + apply dottedAt_dot in Hat. exfalso. apply Hno.
      by apply list_elem_of_lookup_2 in Hat.
    + apply IH. intros Hin. apply Hno. by right.
Qed.

(** Text without a point before a date does not hide the date. *)
Lemma findDotted_skip (pre tail : list ascii) (d1 d2 : ascii) :
  "."%char ∉ pre → d1 ≠ "."%char → d2 ≠ "."%char →
  findDotted (pre ++ d1 :: d2 :: tail) = findDotted (d1 :: d2 :: tail).
Proof.
  intros Hno H1 H2. induction pre as [|c pre IH]; [done|].
  cbn [app findDotted].
  destruct (dottedAt (c :: pre ++ d1 :: d2 :: tail)) as [found|] eqn:Hat.
  - apply dottedAt_dot in Hat. exfalso.
    destruct pre as [|a [|b pre]]; cbn in Hat.
    + congruence.
    + congruence.
    + injection Hat as ->. apply Hno. right. right. by left.
  - apply IH. intros Hin. apply Hno. by right.
Qed.

Lemma wordRun_word (w : list ascii) (c : ascii) (rest : list ascii) :
  forallb isWordChar w = true → isWordChar c = false →
  wordRun (w ++ c :: rest) = (w, c :: rest).
Proof.
  intros Hw Hc. induction w as [|x w IH].
  - cbn [app wordRun]. by rewrite Hc.
  - cbn [forallb] in Hw. apply andb_true_iff in Hw as [Hx Hw].
    cbn [app wordRun]. by rewrite Hx, IH.
Qed.

Lemma dashedAt_found (w : list ascii) (d1 d2 y1 y2 y3 y4 : ascii)
    (rest : list ascii) :
  w ≠ [] → forallb isWordChar w = true →
  forallb JS.isDigit [d1; d2; y1; y2; y3; y4] = true →
  dashedAt (w ++ "-"%char :: d1 :: d2 :: "-"%char :: y1 :: y2 :: y3 :: y4
            :: rest)
  = Some (JS.str w, JS.str [d1; d2], JS.str [y1; y2; y3; y4]).
Proof.
  intros Hne Hw Hd. unfold dashedAt. rewrite wordRun_word by done.
  destruct w as [|x w]; [done|]. by rewrite Hd.
Qed.

(** Where the run of word characters is not followed by a hyphen, the
    dashed pattern does not match. *)
Lemma dashedAt_no_hyphen (w : list ascii) (c : ascii) (rest : list ascii) :
  forallb isWordChar w = true → isWordChar c = false → c ≠ "-"%char →
  dashedAt (w ++ c :: rest) = None.
Proof.
  intros Hw Hc Hdash. unfold dashedAt. rewrite wordRun_word by done.
  destruct w as [|x w]; [done|].
  do 7 (destruct rest as [|? rest]; [done|]).
  assert (JS.eqc "-" c = false) as ->.
  { destruct (JS.eqc "-" c) eqn:E; [|done]. by apply eqc_true in E. }
  by rewrite andb_false_r.
Qed.

Lemma lookupMonth_key (word month : string) :
  (word, month) ∈ months → lookupMonth word = Some month.
Proof.
  intros Hin. apply list_elem_of_In in Hin. unfold months in Hin.
  cbn [In] in Hin.
  repeat (destruct Hin as [Hin|Hin]; [by injection Hin as <- <-|]).
  done.
Qed.

Lemma lookupMonth_other (word : string) :
  (∀ month, (word, month) ∉ months) → lookupMonth word = None.
Proof.
  intros Hno. unfold lookupMonth.
  destruct (List.find _ months) as [[k m]|] eqn:Hfind; [|done].
  apply find_some in Hfind as [Hin Heq]. cbn [fst] in Heq.
  apply String.eqb_eq in Heq as ->. exfalso. apply (Hno m).
  by apply list_elem_of_In.
Qed.

Lemma months_filled (word month : string) :
  (word, month) ∈ months → JS.or_else (Some month) "01" = month.
Proof.
  intros Hin. apply list_elem_of_In in Hin. unfold months in Hin.
  cbn [In] in Hin.
  repeat (destruct Hin as [Hin|Hin]; [by injection Hin as <- <-|]).
  done.
Qed.

Section NormalizerFacts.
Context {R : Runtime}.

(** X20.  A text that holds [dd.mm.yyyy] (two, two and four digits)
    after a beginning without a point is read as that day:
    [parseEbayDate] answers [yyyy-mm-ddT00:00:00.000Z], whatever follows
    the year and without checking that the day and the month exist; a
    time of day in the text is dropped. *)
Theorem parseEbayDate_dotted (pre rest : string)
    (d1 d2 m1 m2 y1 y2 y3 y4 : ascii) :
  forallb JS.isDigit [d1; d2; m1; m2; y1; y2; y3; y4] = true →
  "."%char ∉ JS.chars pre →
  parseEbayDate
    (pre +:+ JS.str [d1; d2; "."%char; m1; m2; "."%char; y1; y2; y3; y4]
     +:+ rest)
  = JS.str [y1; y2; y3; y4] +:+ "-" +:+ JS.str [m1; m2] +:+ "-"
    +:+ JS.str [d1; d2] +:+ "T00:00:00.000Z".
Proof.
  intros Hd Hpre. unfold parseEbayDate.
  set (text := pre +:+ _ +:+ rest).
  assert (JS.chars text
          = JS.chars pre ++ d1 :: d2 :: "."%char :: m1 :: m2 :: "."%char
            :: y1 :: y2 :: y3 :: y4 :: JS.chars rest) as Htext.
  { unfold text. by rewrite !chars_app, chars_str. }
  assert (JS.truthy text = true) as ->.
  { apply truthy_length. unfold JS.length. rewrite Htext, length_app.
    cbn [length]. lia. }
  cbn [negb]. rewrite Htext.
  pose proof Hd as Hdigits. cbn [forallb] in Hdigits.
  apply andb_true_iff in Hdigits as [H1 Hdigits].
  apply andb_true_iff in Hdigits as [H2 _].
  rewrite findDotted_skip by (done || by apply isDigit_not_dot).
  cbn [findDotted]. by rewrite dottedAt_found.
Qed.

End NormalizerFacts.

Lemma parseEbayDate_dotted_witness :
  @parseEbayDate noParse "12.03.2024 14:30" = "2024-03-12T00:00:00.000Z".
Proof.
  apply (@parseEbayDate_dotted noParse "" " 14:30"
           "1"%char "2"%char "0"%char "3"%char
           "2"%char "0"%char "2"%char "4"%char).
  - reflexivity.
  - cbn. apply not_elem_of_nil.
Defined.

Lemma findDashed_cons (c : ascii) (l : list ascii) :
  findDashed (c :: l)
  = match dashedAt (c :: l) with
    | Some found => Some found
    | None => findDashed l
    end.
Proof. done. Qed.

Section MonthFacts.
Context {R : Runtime}.

(** X21.  A text [<word>-dd-yyyy] (a word of letters, digits and
    underscores, two and four digits, no point after the year) is read
    by [parseEbayDate] as [yyyy-<month>-ddT00:00:00.000Z].  The month is
    the number the table [months] gives for the word, written exactly as
    in the table.  For a word of at most three characters that the table
    does not have, which includes a month name in other capitals, it is
    [01].  The word is matched by [\w+], which has no umlaut: of
    [Mär-dd-yyyy] only the [r] is the word, so the entry [Mär] of the
    table is not reached and the month is [01] as well. *)
Theorem parseEbayDate_month_names (word rest : string)
    (d1 d2 y1 y2 y3 y4 : ascii) :
  word ≠ "" →
  forallb isWordChar (JS.chars word) = true →
  forallb JS.isDigit [d1; d2; y1; y2; y3; y4] = true →
  "."%char ∉ JS.chars rest →
  let date (w month : string) :=
    parseEbayDate (w +:+ "-" +:+ JS.str [d1; d2] +:+ "-"
                   +:+ JS.str [y1; y2; y3; y4] +:+ rest)
    = JS.str [y1; y2; y3; y4] +:+ "-" +:+ month +:+ "-" +:+ JS.str [d1; d2]
      +:+ "T00:00:00.000Z" in
  (∀ month, (word, month) ∈ months → date word month)
  ∧ ((∀ month, (word, month) ∉ months) → (JS.length word ≤ 3)%nat →
     date word "01")
  ∧ date ("M" +:+ ae +:+ "r") "01".
Proof.
  intros Hne Hw Hd Hrest. cbn zeta.
  pose proof Hd as Hdigits. cbn [forallb] in Hdigits.
  repeat (apply andb_true_iff in Hdigits as [?%isDigit_not_dot Hdigits]).
  assert (∀ w : string, "."%char ∉ JS.chars w →
            "."%char ∉ JS.chars w ++ "-"%char :: d1 :: d2 :: "-"%char :: y1
                       :: y2 :: y3 :: y4 :: JS.chars rest) as Hnodot.
  { intros w Hwd Hin. apply elem_of_app in Hin as [Hin|Hin]; [done|].
    repeat (apply elem_of_cons in Hin as [Hin|Hin];
            [subst; done || congruence|]).
    done. }
  assert (∀ w : string,
            JS.chars (w +:+ "-" +:+ JS.str [d1; d2] +:+ "-"
                      +:+ JS.str [y1; y2; y3; y4] +:+ rest)
            = JS.chars w ++ "-"%char :: d1 :: d2 :: "-"%char :: y1 :: y2
              :: y3 :: y4 :: JS.chars rest) as Htext.
  { intros w. by rewrite !chars_app, !chars_str. }
  assert (∀ w : string,
            JS.truthy (w +:+ "-" +:+ JS.str [d1; d2] +:+ "-"
                       +:+ JS.str [y1; y2; y3; y4] +:+ rest) = true)
    as Htruthy.
  { intros w. apply truthy_length. unfold JS.length.
    rewrite Htext, length_app. cbn [length]. lia. }
  assert ("."%char ∉ JS.chars word) as Hworddot.
  { intros Hin. rewrite forallb_forall in Hw.
    apply list_elem_of_In, Hw in Hin. done. }
  assert (JS.chars word ≠ []) as Hchars.
  { intros Hnil. apply Hne. by rewrite <- (str_chars word), Hnil. }
  assert (∀ month,
            JS.or_else (lookupMonth word) "01" = month →
            parseEbayDate (word +:+ "-" +:+ JS.str [d1; d2] +:+ "-"
                           +:+ JS.str [y1; y2; y3; y4] +:+ rest)
            = JS.str [y1; y2; y3; y4] +:+ "-" +:+ month +:+ "-"
              +:+ JS.str [d1; d2] +:+ "T00:00:00.000Z") as Hword.
  { intros month Hmonth. unfold parseEbayDate.
    rewrite Htruthy. cbn [negb]. rewrite Htext.
    rewrite findDotted_none by by apply Hnodot.
    destruct (JS.chars word) as [|c w] eqn:Hcw; [done|].
    cbn [app findDashed]. change (c :: w ++ ?l) with ((c :: w) ++ l).
    rewrite dashedAt_found by done.
    by rewrite <- Hcw, str_chars, Hmonth. }
  split; [|split].
  - intros month Hin. apply Hword.
    rewrite (lookupMonth_key word month Hin).
    by apply (months_filled word).
  - intros Hno _. apply Hword. by rewrite lookupMonth_other.
  - unfold parseEbayDate. rewrite Htruthy. cbn [negb]. rewrite Htext.
    rewrite findDotted_none.
    2: { apply Hnodot. compute_done. }
    change (JS.chars ("M" +:+ ae +:+ "r") ++ ?l)
      with ("M"%char :: ascii_of_nat 228 :: "r"%char :: l).
    set (tail := JS.chars rest).
    pose proof (dashedAt_no_hyphen ["M"%char] (ascii_of_nat 228)
                  ("r"%char :: "-"%char :: d1 :: d2 :: "-"%char :: y1 :: y2
                   :: y3 :: y4 :: tail)) as Hfirst.
    pose proof (dashedAt_no_hyphen [] (ascii_of_nat 228)
                  ("r"%char :: "-"%char :: d1 :: d2 :: "-"%char :: y1 :: y2
                   :: y3 :: y4 :: tail)) as Hsecond.
    pose proof (dashedAt_found ["r"%char] d1 d2 y1 y2 y3 y4 tail) as Hthird.
    cbn [app] in Hfirst, Hsecond, Hthird.
    rewrite findDashed_cons, Hfirst by done.
    rewrite findDashed_cons, Hsecond by done.
    by rewrite findDashed_cons, Hthird.
Qed.

End MonthFacts.

Lemma parseEbayDate_month_names_witness :
  (∀ month, ("Okt", month) ∈ months →
     @parseEbayDate noParse "Okt-05-2024" = "2024-" +:+ month +:+ "-05T00:00:00.000Z")
  ∧ ((∀ month, ("Okt", month) ∉ months) → (JS.length "Okt" ≤ 3)%nat →
     @parseEbayDate noParse "Okt-05-2024" = "2024-01-05T00:00:00.000Z")
  ∧ @parseEbayDate noParse ("M" +:+ ae +:+ "r-05-2024")
    = "2024-01-05T00:00:00.000Z".
Proof.
  apply (@parseEbayDate_month_names noParse "Okt" ""
           "0"%char "5"%char "2"%char "0"%char "2"%char "4"%char).
  - discriminate.
  - reflexivity.
  - reflexivity.
  - cbn. apply not_elem_of_nil.
Defined.

Lemma filter_swap {A} (p q : A → bool) (l : list A) :
  List.filter p (List.filter q l) = List.filter q (List.filter p l).
Proof.
  induction l as [|x l IH]; [done|]. cbn [List.filter].
  destruct (p x) eqn:Hp, (q x) eqn:Hq; cbn [List.filter];
    rewrite ?Hp, ?Hq, IH; done.
Qed.

Section PriceFacts.
Context {R : Runtime}.

(** X22.  [parsePrice] deletes every point before it reads the number,
    so two non-empty texts that differ only in their points are read as
    the same number: a price written with a decimal point, [19.99], is
    read as the number of [1999].  When the cleaned text is no number,
    each text is returned as it was given. *)
Theorem parsePrice_ignores_points (s s' : string) :
  s ≠ "" → s' ≠ "" →
  JS.removeAll (JS.eqc "."%char) s = JS.removeAll (JS.eqc "."%char) s' →
  match parseFloat_toFixed
          (JS.replaceFirst ","%char "."%char
             (JS.removeAll currencyNoise
                (JS.removeAll (JS.eqc "."%char) s))) with
  | Some num => parsePrice s = num ∧ parsePrice s' = num
  | None => parsePrice s = s ∧ parsePrice s' = s'
  end.
Proof.
  intros Hs Hs' Hsame.
  assert (∀ t, JS.removeAll (JS.eqc "."%char) (JS.removeAll currencyNoise t)
               = JS.removeAll currencyNoise
                   (JS.removeAll (JS.eqc "."%char) t)) as Hswap.
  { intros t. unfold JS.removeAll. rewrite !chars_str. f_equal.
    apply filter_swap. }
  unfold parsePrice.
  apply truthy_nonempty in Hs, Hs'. rewrite Hs, Hs'. cbn [negb].
  rewrite !Hswap, <- Hsame.
  by destruct (parseFloat_toFixed _).
Qed.

End PriceFacts.

Lemma parsePrice_ignores_points_witness :
  @parsePrice centsRuntime "19.99" = "1999.00"
  ∧ @parsePrice centsRuntime "1999" = "1999.00".
Proof.
  apply (@parsePrice_ignores_points centsRuntime "19.99" "1999").
  - discriminate.
  - discriminate.
  - reflexivity.
Defined.

(** ** Remote order client: the login token *)

Ltac client_proj :=
  cbn [Client.world Client.env Client.clock Client.clockReads
       Client.cachedAccessToken Client.tokenExpiresAt
       Client.AMAZON_SP_REFRESH_TOKEN Client.AMAZON_SP_CLIENT_ID
       Client.AMAZON_SP_CLIENT_SECRET Net.server Net.requests Net.log
       fst snd].

Ltac client_run :=
  cbv [mbind M_bind mret M_ret gets modify throw Client.getAccessToken
       Client.tokenValid Client.dateNow Client.setToken
       Client.invalidateAccessToken Client.lift Net.fetch];
  cbn [Client.world Client.env Client.clock Client.clockReads
       Client.cachedAccessToken Client.tokenExpiresAt JS.truthy_opt
       Client.lessThan Net.server Net.requests Net.log].

(** The branches of a login request, once the cache has been ruled
    out. *)
Ltac refresh_cases Hreuse :=
  match goal with
  | |- context [JS.truthy_opt ?refresh] =>
      destruct (JS.truthy_opt refresh) eqn:?
  end;
  [match goal with
   | |- context [negb (JS.truthy_opt ?client)] =>
       destruct (JS.truthy_opt client) eqn:?
   end;
   [match goal with
    | |- context [negb (JS.truthy_opt ?secret)] =>
        destruct (JS.truthy_opt secret) eqn:?
    end|]|];
  cbn [negb orb andb forallb]; cbv beta; client_proj;
  [match goal with
   | |- context [Client.ok ?answer] => destruct (Client.ok answer) eqn:?
   end;
   cbn [negb];
   [match goal with
    | |- context [Client.json ?body] =>
        destruct (Client.json body) as [?|?] eqn:?
    end;
    [|match goal with
      | |- context [Client.access_token ?data] =>
          destruct (Client.access_token data) as [[|? ?]|] eqn:?
      end;
      cbn [JS.truthy_opt JS.truthy negb default from_option]]|]
  |..];
  cbv beta; client_proj;
  repeat apply conj; client_proj; try done; try lia;
  try (intros expires1 He Hlt; cbv [Datatypes.id];
       match goal with
       | |- _ ?st = (inr ?t, _) =>
           exact (Hreuse t st expires1 ltac:(discriminate) eq_refl He Hlt)
       end).

(** The branches of a login request, for the statement of paths. *)
Ltac login_paths :=
  match goal with
  | |- context [JS.truthy_opt ?refresh] =>
      destruct (JS.truthy_opt refresh) eqn:?
  end;
  [match goal with
   | |- context [negb (JS.truthy_opt ?client)] =>
       destruct (JS.truthy_opt client) eqn:?
   end;
   [match goal with
    | |- context [negb (JS.truthy_opt ?secret)] =>
        destruct (JS.truthy_opt secret) eqn:?
    end|]|];
  cbn [negb orb andb forallb]; cbv beta; client_proj;
  (split; intros _; [intros [=]; eexists; by repeat split
                    |intros [=]]);
  match goal with
  | |- context [Client.ok ?answer] => destruct (Client.ok answer) eqn:?
  end;
  cbn [negb];
  [match goal with
   | |- context [Client.json ?body] =>
       destruct (Client.json body) as [?|?] eqn:?
   end;
   [|match goal with
     | |- context [Client.access_token ?data] =>
         destruct (Client.access_token data) as [[|? ?]|] eqn:?
     end;
     cbn [JS.truthy_opt JS.truthy negb default from_option]]|];
  eexists _, _; (split; [reflexivity|]); client_proj;
  (split; [done|]); (split; [done|]);
  cbv [Datatypes.id];
  (split; [done|]); (split; [done|]);
  first
    [ by left
    | by (right; left)
    | (right; right; split; [done|]; split; [done|];
       eexists; split; [reflexivity|];
       by match goal with
          | H : Client.access_token _ = _ |- _ => rewrite H
          end)
    | (split; [done|]; eexists; split; [reflexivity|];
       split; [eassumption|]; cbn [Nat.sub]; by rewrite ?Nat.sub_0_r) ].

Lemma truthy_or_else (v : option string) :
  JS.truthy (JS.or_else v "") = JS.truthy_opt v.
Proof. destruct v as [[|c v]|]; done. Qed.

Section ClientFacts.
Context {W : Client.Wire}.

(** The outcomes of [getAccessToken]. *)
Lemma getAccessToken_cases (forceRefresh : bool) (s : Client.State) :
  let answer :=
    Net.server (Client.world s) Client.LWA_TOKEN_ENDPOINT
               (Net.requests (Client.world s)) in
  let secrets :=
    [ Client.AMAZON_SP_REFRESH_TOKEN (Client.env s);
      Client.AMAZON_SP_CLIENT_ID (Client.env s);
      Client.AMAZON_SP_CLIENT_SECRET (Client.env s) ] in
  match Client.getAccessToken forceRefresh s with
  | (inr token, s1) =>
      token ≠ ""
      ∧ Client.cachedAccessToken s1 = Some token
      ∧ (Net.requests (Client.world s1)
         ≤ S (Net.requests (Client.world s)))%nat
      ∧ (∀ expires,
           Client.tokenExpiresAt s1 = Some expires →
           Client.clock s1 (Client.clockReads s1) < expires →
           Client.getAccessToken false s1
           = (inr token, (Client.dateNow s1).2))
      ∧ (forceRefresh = true →
         Net.requests (Client.world s1) = S (Net.requests (Client.world s))
         ∧ ∃ data,
             Client.json (Net.body answer) = inr data
             ∧ Client.access_token data = Some token
             ∧ Client.tokenExpiresAt s1
               = (fun seconds =>
                    Client.clock s (Client.clockReads s)
                    + (seconds - 60) * 1000) <$> Client.expires_in data)
  | (inl e, s1) =>
      Client.cachedAccessToken s1 = None
      ∧ Client.tokenExpiresAt s1 = Some 0
      ∧ (Net.requests (Client.world s1)
         ≤ S (Net.requests (Client.world s)))%nat
      ∧ (forallb JS.truthy_opt secrets = false →
         e = Client.credentialsMissing ∧ Client.world s1 = Client.world s)
  end.
Proof.
  cbn zeta.
  assert (∀ (t : string) (s1 : Client.State) (expires : Z),
            t ≠ "" → Client.cachedAccessToken s1 = Some t →
            Client.tokenExpiresAt s1 = Some expires →
            Client.clock s1 (Client.clockReads s1) < expires →
            Client.getAccessToken false s1
            = (inr t, (Client.dateNow s1).2)) as Hreuse.
  { intros t s1 expires Ht Hc He Hlt.
    destruct s1 as [w1 e1 c1 n1 cached1 expires1].
    cbn [Client.cachedAccessToken Client.tokenExpiresAt Client.clock
         Client.clockReads] in Hc, He, Hlt. subst cached1 expires1.
    apply truthy_nonempty in Ht. apply Z.ltb_lt in Hlt.
    client_run. rewrite Ht. cbn [negb andb]. client_run. by rewrite Hlt. }
  destruct s as [w [refresh client secret] c n cached expires].
  set (again := Client.getAccessToken false) in *.
  client_run. cbn [forallb]. rewrite andb_true_r.
  destruct (negb forceRefresh && JS.truthy_opt cached) eqn:Htry.
  - apply andb_true_iff in Htry as [Hforce Hcached].
    apply negb_true_iff in Hforce as ->.
    apply truthy_opt_filled in Hcached as (t & -> & Ht).
    client_run.
    destruct (Client.lessThan (c n) expires) eqn:Hvalid.
    + cbn [default from_option]. repeat apply conj; client_proj;
        try done; try lia.
      intros expires1 He Hlt. subst expires.
      match goal with
      | |- again ?st = _ => exact (Hreuse t st expires1 Ht eq_refl eq_refl Hlt)
      end.
    + client_run. rewrite !truthy_or_else. client_proj.
      refresh_cases Hreuse.
  - client_run. rewrite !truthy_or_else. client_proj.
    refresh_cases Hreuse.
    intros _. split; [done|]. by eexists.
Qed.

(** The paths of [getAccessToken], by what decides them: the cache, the
    secrets and the answer to the login request. *)
Lemma getAccessToken_paths (forceRefresh : bool) (s : Client.State) :
  let answer :=
    Net.server (Client.world s) Client.LWA_TOKEN_ENDPOINT
               (Net.requests (Client.world s)) in
  let secrets :=
    [ Client.AMAZON_SP_REFRESH_TOKEN (Client.env s);
      Client.AMAZON_SP_CLIENT_ID (Client.env s);
      Client.AMAZON_SP_CLIENT_SECRET (Client.env s) ] in
  let hit :=
    negb forceRefresh && JS.truthy_opt (Client.cachedAccessToken s)
    && Client.lessThan (Client.clock s (Client.clockReads s))
                       (Client.tokenExpiresAt s) in
  (hit = true →
     ∃ token, Client.cachedAccessToken s = Some token ∧ token ≠ ""
              ∧ Client.getAccessToken forceRefresh s
                = (inr token, (Client.dateNow s).2))
  ∧ (hit = false → forallb JS.truthy_opt secrets = false →
       ∃ s1, Client.getAccessToken forceRefresh s
             = (inl Client.credentialsMissing, s1)
             ∧ Client.world s1 = Client.world s
             ∧ Client.cachedAccessToken s1 = None
             ∧ Client.tokenExpiresAt s1 = Some 0)
  ∧ (hit = false → forallb JS.truthy_opt secrets = true →
       ∃ out s1,
         Client.getAccessToken forceRefresh s = (out, s1)
         ∧ Net.requests (Client.world s1) = S (Net.requests (Client.world s))
         ∧ Net.log (Client.world s1)
           = Net.log (Client.world s)
             ++ [Net.Requested Client.LWA_TOKEN_ENDPOINT]
         ∧ match out with
           | inr token =>
               Client.ok answer = true
               ∧ token ≠ ""
               ∧ Client.cachedAccessToken s1 = Some token
               ∧ ∃ data,
                   Client.json (Net.body answer) = inr data
                   ∧ Client.access_token data = Some token
                   ∧ Client.tokenExpiresAt s1
                     = (fun seconds =>
                          Client.clock s (Client.clockReads s1 - 1)
                          + (seconds - 60) * 1000) <$> Client.expires_in data
           | inl e =>
               Client.cachedAccessToken s1 = None
               ∧ Client.tokenExpiresAt s1 = Some 0
               ∧ ((Client.ok answer = false
                   ∧ e = Client.loginRefused (Net.status answer))
                  ∨ (Client.ok answer = true
                     ∧ Client.json (Net.body answer) = inl e)
                  ∨ (Client.ok answer = true
                     ∧ e = Client.noAccessToken
                     ∧ ∃ data,
                         Client.json (Net.body answer) = inr data
                         ∧ JS.truthy_opt (Client.access_token data) = false))
           end).
Proof.
  cbn zeta.
  destruct s as [w [refresh client secret] c n cached expires].
  client_run. cbn [forallb]. rewrite andb_true_r.
  destruct (negb forceRefresh && JS.truthy_opt cached) eqn:Htry.
  - client_run.
    destruct (Client.lessThan (c n) expires) eqn:Hvalid; cbn [andb].
    + split; [|split; intros [=]]. intros _.
      apply andb_true_iff in Htry as [Hforce Hcached].
      apply truthy_opt_filled in Hcached as (t & -> & Ht).
      exists t. by repeat split.
    + client_run. rewrite !truthy_or_else. client_proj.
      split; [intros [=]|].
      login_paths.
  - client_run. rewrite !truthy_or_else. client_proj. cbn [andb].
    split; [intros [=]|].
    login_paths.
Qed.

(** X23.  [getAccessToken] makes at most one request.  A token it
    returns is not empty and is the cached one afterwards, and a
    following call that does not force a refresh returns it again without
    a request, as long as the clock reads less than [tokenExpiresAt].
    After a forced refresh that value is the reading of the clock plus
    [expires_in - 60] seconds.  When the call throws, the cache is empty
    afterwards, also if it held a token before.  Which path a call takes
    is decided by the cache, the secrets and the login answer.  A call
    that does not force a refresh, with a token in the cache and the
    clock below [tokenExpiresAt], returns the cached token and changes
    nothing but the count of clock readings.  Every other call empties
    the cache and reads the three secrets: when one of them is missing
    or empty it throws the configuration error without a request; with
    all three it makes exactly one request, to the login endpoint.  It
    returns a token only if the answer is a success whose body decodes
    and holds a non-empty [access_token], which is then the token and
    the cache, valid until the last reading of the clock plus
    [expires_in - 60] seconds.  An answer that is no success makes it
    throw the login error for the status, a body that does not decode
    the decoding error, and a body without a token the error for a
    missing token. *)
Theorem getAccessToken_outcome (forceRefresh : bool) (s : Client.State) :
  let answer :=
    Net.server (Client.world s) Client.LWA_TOKEN_ENDPOINT
               (Net.requests (Client.world s)) in
  let secrets :=
    [ Client.AMAZON_SP_REFRESH_TOKEN (Client.env s);
      Client.AMAZON_SP_CLIENT_ID (Client.env s);
      Client.AMAZON_SP_CLIENT_SECRET (Client.env s) ] in
  let hit :=
    negb forceRefresh && JS.truthy_opt (Client.cachedAccessToken s)
    && Client.lessThan (Client.clock s (Client.clockReads s))
                       (Client.tokenExpiresAt s) in
  match Client.getAccessToken forceRefresh s with
  | (inr token, s1) =>
      token ≠ ""
      ∧ Client.cachedAccessToken s1 = Some token
      ∧ (Net.requests (Client.world s1)
         ≤ S (Net.requests (Client.world s)))%nat
      ∧ (∀ expires,
           Client.tokenExpiresAt s1 = Some expires →
           Client.clock s1 (Client.clockReads s1) < expires →
           Client.getAccessToken false s1
           = (inr token, (Client.dateNow s1).2))
      ∧ (forceRefresh = true →
         Net.requests (Client.world s1) = S (Net.requests (Client.world s))
         ∧ ∃ data,
             Client.json (Net.body answer) = inr data
             ∧ Client.access_token data = Some token
             ∧ Client.tokenExpiresAt s1
               = (fun seconds =>
                    Client.clock s (Client.clockReads s)
                    + (seconds - 60) * 1000) <$> Client.expires_in data)
  | (inl e, s1) =>
      Client.cachedAccessToken s1 = None
      ∧ Client.tokenExpiresAt s1 = Some 0
      ∧ (Net.requests (Client.world s1)
         ≤ S (Net.requests (Client.world s)))%nat
      ∧ (forallb JS.truthy_opt secrets = false →
         e = Client.credentialsMissing ∧ Client.world s1 = Client.world s)
  end
  ∧ (hit = true →
       ∃ token, Client.cachedAccessToken s = Some token ∧ token ≠ ""
                ∧ Client.getAccessToken forceRefresh s
                  = (inr token, (Client.dateNow s).2))
  ∧ (hit = false → forallb JS.truthy_opt secrets = false →
       ∃ s1, Client.getAccessToken forceRefresh s
             = (inl Client.credentialsMissing, s1)
             ∧ Client.world s1 = Client.world s
             ∧ Client.cachedAccessToken s1 = None
             ∧ Client.tokenExpiresAt s1 = Some 0)
  ∧ (hit = false → forallb JS.truthy_opt secrets = true →
       ∃ out s1,
         Client.getAccessToken forceRefresh s = (out, s1)
         ∧ Net.requests (Client.world s1) = S (Net.requests (Client.world s))
         ∧ Net.log (Client.world s1)
           = Net.log (Client.world s)
             ++ [Net.Requested Client.LWA_TOKEN_ENDPOINT]
         ∧ (∀ token, out = inr token →
              Client.ok answer = true
              ∧ token ≠ ""
              ∧ Client.cachedAccessToken s1 = Some token
              ∧ ∃ data,
                  Client.json (Net.body answer) = inr data
                  ∧ Client.access_token data = Some token
                  ∧ Client.tokenExpiresAt s1
                    = (fun seconds =>
                         Client.clock s (Client.clockReads s1 - 1)
                         + (seconds - 60) * 1000) <$> Client.expires_in data)
         ∧ (Client.ok answer = false →
              out = inl (Client.loginRefused (Net.status answer)))
         ∧ (Client.ok answer = true →
              ∀ syntaxError, Client.json (Net.body answer) = inl syntaxError →
                out = inl syntaxError)
         ∧ (Client.ok answer = true →
              ∀ data, Client.json (Net.body answer) = inr data →
                if JS.truthy_opt (Client.access_token data)
                then out = inr (default "" (Client.access_token data))
                else out = inl Client.noAccessToken)).
Proof.
  cbn zeta. split; [apply getAccessToken_cases|].
  pose proof (getAccessToken_paths forceRefresh s) as (Hhit & Hmiss & Hlogin).
  split; [exact Hhit|]. split; [exact Hmiss|].
  intros Hno Hall.
  destruct (Hlogin Hno Hall) as (out & s1 & Hrun & Hreq & Hlog & Hout).
  exists out, s1. split; [exact Hrun|]. split; [exact Hreq|].
  split; [exact Hlog|].
  destruct out as [e|token].
  - destruct Hout as (_ & _ & [[Hok ->]|[[Hok Hjson]|(Hok & -> & data & Hjson & Hdata)]]).
    + repeat apply conj; try done; intros; congruence.
    + repeat apply conj; try done; intros; congruence.
    + repeat apply conj; try done; try (intros; congruence).
      intros _ data' Hjson'. assert (data' = data) as -> by congruence.
      by rewrite Hdata.
  - destruct Hout as (Hok & Hne & Hcached & data & Hjson & Hdata & Hexp).
    repeat apply conj; try (intros; congruence).
    + intros token' [= <-]. repeat apply conj; try done. by exists data.
    + intros _ data' Hjson'. assert (data' = data) as -> by congruence.
      rewrite Hdata. cbn [JS.truthy_opt default from_option].
      apply truthy_nonempty in Hne. by rewrite Hne.
Qed.

(** A rate-limited request, run on the network of a client state. *)
Lemma lift_fetchWithRetry (url : string) (maxRetries : nat)
    (s : Client.State) :
  ∃ (out : string + Net.Response) (w1 : Net.World),
    Client.lift (Net.fetchWithRetry url maxRetries) s
    = (out, {| Client.world := w1; Client.env := Client.env s;
               Client.clock := Client.clock s;
               Client.clockReads := Client.clockReads s;
               Client.cachedAccessToken := Client.cachedAccessToken s;
               Client.tokenExpiresAt := Client.tokenExpiresAt s |})
    ∧ (Net.requests w1 ≤ maxRetries + Net.requests (Client.world s))%nat
    ∧ (∀ res, out = inr res → Net.status res ≠ 429).
Proof.
  unfold Client.lift, Net.fetchWithRetry.
  destruct (retryLoop_bounded url maxRetries 0 (Client.world s))
    as (out & w1 & made & events & -> & _ & Hreq & _ & Hout).
  exists out, w1. split; [done|]. rewrite Hreq.
  destruct out as [e|res].
  - destruct Hout as (_ & -> & _). split; [lia|done].
  - destruct Hout as (Hmade & _ & Hok & _). split; [lia|].
    by intros ? [= <-].
Qed.

(** X24.  [callOrdersApi] makes at most seven requests and never
    returns an answer with status 429.  Unless the orders API answers
    403, the call ends with the first rate-limited request and leaves
    the cached token and the clock alone.  After a 403 it refreshes the
    token once, whatever the cache holds; if that fails the error is
    thrown, otherwise the URL is requested once more and that outcome is
    the result, also when it is a 403 again. *)
Theorem callOrdersApi_outcome (token query : string) (s : Client.State) :
  let url :=
    Client.SP_API_EU_ENDPOINT +:+ "/orders/v0/orders?" +:+ query in
  let request := Client.lift (Net.fetchWithRetry url Net.defaultMaxRetries) in
  let refused :=
    match (request s).1 with
    | inr res => Net.status res =? 403
    | inl _ => false
    end in
  let result := Client.callOrdersApi token query s in
  (Net.requests (Client.world result.2)
   ≤ 7 + Net.requests (Client.world s))%nat
  ∧ (∀ res, result.1 = inr res → Net.status res ≠ 429)
  ∧ (refused = false →
     result = request s
     ∧ Client.cachedAccessToken result.2 = Client.cachedAccessToken s
     ∧ Client.tokenExpiresAt result.2 = Client.tokenExpiresAt s
     ∧ Client.clockReads result.2 = Client.clockReads s)
  ∧ (refused = true →
     match Client.getAccessToken true (request s).2 with
     | (inl e, s2) => result = (inl e, s2)
     | (inr _, s2) => result = request s2
     end).
Proof.
  cbn zeta. unfold Client.callOrdersApi.
  set (url := Client.SP_API_EU_ENDPOINT +:+ "/orders/v0/orders?" +:+ query).
  rewrite bind_run.
  destruct (lift_fetchWithRetry url Net.defaultMaxRetries s)
    as (out & w1 & -> & Hreq & Hok).
  cbn [fst snd]. destruct out as [e|res].
  { cbn [fst snd Client.world Client.cachedAccessToken Client.tokenExpiresAt
         Client.clockReads].
    repeat apply conj; try done. unfold Net.defaultMaxRetries in Hreq. lia. }
  destruct (Net.status res =? 403) eqn:Hrefused.
  2: { cbn [fst snd Client.world Client.cachedAccessToken
            Client.tokenExpiresAt Client.clockReads mret M_ret].
       repeat apply conj; try done.
       unfold Net.defaultMaxRetries in Hreq. lia. }
  rewrite bind_run.
  set (s1 := {| Client.world := w1; Client.env := Client.env s;
                Client.clock := Client.clock s;
                Client.clockReads := Client.clockReads s;
                Client.cachedAccessToken := Client.cachedAccessToken s;
                Client.tokenExpiresAt := Client.tokenExpiresAt s |}).
  pose proof (getAccessToken_cases true s1) as Hlogin. cbn zeta in Hlogin.
  destruct (Client.getAccessToken true s1) as [[e|fresh] s2].
  - destruct Hlogin as (_ & _ & Hone & _).
    cbn [fst snd Client.world s1] in *.
    repeat apply conj; try done. unfold Net.defaultMaxRetries in Hreq. lia.
  - destruct Hlogin as (_ & _ & Hone & _).
    destruct (lift_fetchWithRetry url Net.defaultMaxRetries s2)
      as (out2 & w2 & -> & Hreq2 & Hok2).
    cbn [fst snd Client.world s1] in *.
    repeat apply conj; try done. unfold Net.defaultMaxRetries in *. lia.
Qed.

End ClientFacts.

(** ** Manifest import: the rows an exact match rewrites *)

Lemma shippedRow_again (c t today : string) (o : Order) :
  shippedRow c t today (shippedRow c t today o) = shippedRow c t today o.
Proof. done. Qed.

Lemma map_unchanged {A} (f : A → A) (l : list A) :
  (∀ x, x ∈ l → f x = x) → map f l = l.
Proof.
  induction l as [|x l IH]; intros Hf; [done|]. cbn [map].
  rewrite Hf by by left. f_equal. apply IH. intros y Hy. apply Hf. by right.
Qed.

(** The table after the update of the manifest route for the id [i]. *)
Lemma updateOrder_shipping_rows (i : Z) (c t today : string) (db : Db) :
  ∃ res : option Order,
    updateOrder i (shippingUpdate c t today) db
    = (inr res,
       {| rows := map (fun o => if id o =? i then shippedRow c t today o
                                else o) (rows db);
          nextId := nextId db |}).
Proof.
  unfold updateOrder. rewrite bind_run. unfold gets at 1.
  destruct (selectById i db) as [|current rest] eqn:Hsel.
  - exists None. cbn [mret M_ret]. f_equal. destruct db as [l n].
    cbn [rows nextId]. f_equal. symmetry. apply map_unchanged.
    intros o Ho. destruct (id o =? i) eqn:Hid; [|done]. exfalso.
    assert (In o (selectById i {| rows := l; nextId := n |})) as Hin.
    { apply filter_In. split; [by apply list_elem_of_In|done]. }
    by rewrite Hsel in Hin.
  - rewrite bind_run, dbUpdate_accepts by absent_key.
    eexists. reflexivity.
Qed.

Lemma updateMatching_rows (c t today : string) (matchingOrders : list Order) :
  ∀ (rep : ShippingReport) (db : Db),
    (updateMatching c t today matchingOrders rep db).2
    = {| rows :=
           map (fun o =>
                  if existsb (fun m => id o =? id m) matchingOrders
                  then shippedRow c t today o else o) (rows db);
         nextId := nextId db |}.
Proof.
  unfold updateMatching.
  induction matchingOrders as [|order rest IH]; intros rep db.
  - cbn [forEach mret M_ret snd existsb]. destruct db as [l n].
    cbn [rows nextId]. f_equal. symmetry. by apply map_unchanged.
  - destruct (updateOrder_shipping_rows (id order) c t today db)
      as (res & Hrun).
    cbn [forEach]. rewrite !bind_run, Hrun. cbn [mret M_ret].
    rewrite IH. cbn [rows nextId]. f_equal. rewrite map_map.
    apply map_ext. intros o. cbn [existsb].
    destruct (id o =? id order) eqn:Hid; cbn [orb]; [|done].
    cbn [shippedRow id]. fold (shippedRow c t today o).
    by destruct (existsb _ rest).
Qed.

Lemma same_id_same_row (l : list Order) (o m : Order) :
  NoDup (map id l) → o ∈ l → m ∈ l → id o = id m → o = m.
Proof.
  induction l as [|x l IH]; intros Hnd Ho Hm Hid; [by apply elem_of_nil in Ho|].
  cbn [map] in Hnd. apply NoDup_cons in Hnd as [Hx Hnd].
  apply elem_of_cons in Ho as [->|Ho], Hm as [->|Hm]; try done.
  - exfalso. apply Hx. rewrite Hid. by apply list_elem_of_fmap_2.
  - exfalso. apply Hx. rewrite <- Hid. by apply list_elem_of_fmap_2.
  - by apply IH.
Qed.

Lemma Forall2_map_same {A} (R : A → A → Prop) (f : A → A) (l : list A) :
  (∀ x, x ∈ l → R x (f x)) → Forall2 R l (map f l).
Proof.
  induction l as [|x l IH]; intros Hf; [constructor|]. cbn [map].
  constructor; [apply Hf; by left|]. apply IH. intros y Hy. apply Hf.
  by right.
Qed.



(** ** Manifest import: what the counter [updated] counts *)

Lemma resolvedOrders_identity (allOrders : list Order) (db db' : Db) (r : Row) :
  map identityOf (rows db') = map identityOf (rows db) →
  resolvedOrders allOrders db' r = resolvedOrders allOrders db r.
Proof.
  intros Hframe. unfold resolvedOrders.
  destruct (negb (JS.truthy (referenzOf r))); [done|].
  assert (map (fun o : Order => (id o, orderId o)) (rows db')
          = map (fun o : Order => (id o, orderId o)) (rows db)) as Hkeys.
  { apply (f_equal (map (fun t => (t.1.1.1.1, t.1.1.1.2.1.2)))) in Hframe.
    by rewrite !map_map in Hframe. }
  pose proof (selectByOrderId_keys (referenzOf r) db db' Hkeys) as Hlen.
  destruct (selectByOrderId (referenzOf r) db'),
           (selectByOrderId (referenzOf r) db);
    cbn [length] in Hlen |- *; first [done | lia].
Qed.

Lemma shipRow_counts (today : string) (allOrders : list Order) (r : Row)
    (rep : ShippingReport) (db : Db) :
  ∃ (rep' : ShippingReport) (db' : Db),
    shipRow today allOrders r rep db = (inr rep', db')
    ∧ map identityOf (rows db') = map identityOf (rows db)
    ∧ updated rep' = (updated rep + resolvedOrders allOrders db r)%nat.
Proof.
  destruct (shipRow_outcome today allOrders r rep db)
    as (rep' & db' & Hrun & Hframe & _ & _ & Hcases).
  exists rep', db'. split; [exact Hrun|]. split; [exact Hframe|].
  unfold resolvedOrders.
  destruct Hcases as [(Href & -> & _)|(Href & Hcases)].
  - rewrite Href. cbn. lia.
  - apply truthy_nonempty in Href. rewrite Href. cbn [negb].
    destruct Hcases as [(Hsel & ->)|(Hsel & Hcand)].
    + destruct (selectByOrderId (referenzOf r) db); [done|].
      cbn [updated]. lia.
    + rewrite Hsel.
      destruct Hcand as [(-> & -> & _)|[(one & -> & ->)|(Hlen & -> & _)]].
      * cbn. lia.
      * cbn. lia.
      * destruct (List.filter _ allOrders) as [|one [|two more]];
          cbn in Hlen |- *; lia.
Qed.

(** The loop over the manifest rows adds, for every row, the number of
    orders the row resolves to. *)
Lemma shipRows_count (today : string) (allOrders : list Order)
    (records : list Row) :
  ∀ (rep : ShippingReport) (db : Db),
  ∃ (rep' : ShippingReport) (db' : Db),
    forEach records (shipRow today allOrders) rep db = (inr rep', db')
    ∧ updated rep'
      = (updated rep
         + sum_list (map (resolvedOrders allOrders db) records))%nat.
Proof.
  induction records as [|r records IH]; intros rep db.
  - exists rep, db. split; [done|]. cbn. lia.
  - destruct (shipRow_counts today allOrders r rep db)
      as (rep1 & db1 & Hrun & Hframe & Hone).
    destruct (IH rep1 db1) as (rep' & db' & Hrest & Hsum).
    exists rep', db'. cbn [forEach]. rewrite bind_run, Hrun.
    split; [exact Hrest|].
    rewrite Hsum, Hone. cbn [map sum_list].
    rewrite (map_ext (resolvedOrders allOrders db1)
               (resolvedOrders allOrders db)
               (fun r' => resolvedOrders_identity allOrders db db1 r' Hframe)).
    cbv [Datatypes.id]. lia.
Qed.



(** ** Status after an update, through every path that updates *)

Lemma Forall2_compose {A} (P Q S : A → A → Prop) (l1 l2 l3 : list A) :
  (∀ x y z, P x y → Q y z → S x z) →
  Forall2 P l1 l2 → Forall2 Q l2 l3 → Forall2 S l1 l3.
Proof.
  intros Hc H12. revert l3.
  induction H12 as [|x y l1 l2 Hxy _ IH]; intros l3 H23.
  - inversion H23. constructor.
  - inversion H23 as [|? z ? l3' Hyz Hrest]; subst.
    constructor; [by eapply Hc | by apply IH].
Qed.

(** A later manifest update replaces what an earlier one has written. *)
Lemma shippedRow_over (c t c' t' today : string) (o : Order) :
  shippedRow c' t' today (shippedRow c t today o) = shippedRow c' t' today o.
Proof. done. Qed.

Lemma shippedRow_fields (c t today : string) (o : Order) :
  identityOf (shippedRow c t today o) = identityOf o
  ∧ shippingCarrier (shippedRow c t today o) = JS.or_null c
  ∧ trackingNumber (shippedRow c t today o) = JS.or_null t
  ∧ shippingDate (shippedRow c t today o) = Some today
  ∧ shipper (shippedRow c t today o) = Some "LogoiX"
  ∧ statusConsistent (shippedRow c t today o).
Proof. by repeat split. Qed.

(** The rows after the inner loop of the manifest route: the orders it
    was handed are rewritten, the others are untouched. *)
Lemma updateMatching_writes (c t today ref : string)
    (matchingOrders : list Order) (rep : ShippingReport) (db : Db) :
  ref ≠ "" →
  (∀ o : Order, o ∈ rows db → orderId o = ref →
     existsb (fun m : Order => id o =? id m) matchingOrders = true) →
  ∃ (rep' : ShippingReport) (db' : Db),
    updateMatching c t today matchingOrders rep db = (inr rep', db')
    ∧ Forall2
        (fun before after : Order =>
           (after = before ∧ (ref ≠ "" → orderId before ≠ ref))
           ∨ (ref ≠ "" ∧ after = shippedRow c t today before))
        (rows db) (rows db').
Proof.
  intros Href Hall.
  destruct (updateMatching_frame c t today matchingOrders rep db)
    as (db' & Hrun & _).
  pose proof (updateMatching_rows c t today matchingOrders rep db) as Hrows.
  rewrite Hrun in Hrows. cbn [snd] in Hrows.
  eexists _, db'. split; [exact Hrun|].
  rewrite Hrows. cbn [rows]. apply Forall2_map_same. intros o Ho.
  destruct (existsb _ matchingOrders) eqn:Hw; [by right|].
  left. split; [done|]. intros _ Hoid.
  by rewrite (Hall o Ho Hoid) in Hw.
Qed.

(** The rows after one manifest row: an order is rewritten with the
    values of the row, or it is untouched, and then its order number is
    not the reference of the row. *)
Lemma shipRow_writes (today : string) (allOrders : list Order) (r : Row)
    (rep : ShippingReport) (db : Db) :
  ∃ (rep' : ShippingReport) (db' : Db),
    shipRow today allOrders r rep db = (inr rep', db')
    ∧ Forall2
        (fun before after : Order =>
           (after = before
            ∧ (referenzOf r ≠ "" → orderId before ≠ referenzOf r))
           ∨ (referenzOf r ≠ ""
              ∧ after
                = shippedRow
                    (JS.trim (JS.or_else (r !! "Lieferant") ""))
                    (JS.trim (JS.or_else (r !! "Paketnummer Lieferant") ""))
                    today before))
        (rows db) (rows db').
Proof.
  assert (∀ (P : Prop) (rep' : ShippingReport),
            (∀ o : Order, o ∈ rows db → P → orderId o ≠ referenzOf r) →
            ∃ (rep'' : ShippingReport) (db' : Db),
              (inr rep', db) = (inr rep'' : DbError + ShippingReport, db')
              ∧ Forall2
                  (fun before after : Order =>
                     (after = before ∧ (P → orderId before ≠ referenzOf r))
                     ∨ (P
                        ∧ after
                          = shippedRow
                              (JS.trim (JS.or_else (r !! "Lieferant") ""))
                              (JS.trim
                                 (JS.or_else (r !! "Paketnummer Lieferant")
                                    ""))
                              today before))
                  (rows db) (rows db')) as Hsame.
  { intros P rep' Hno. exists rep', db. split; [done|].
    rewrite <- (map_id (rows db)) at 2. apply Forall2_map_same.
    intros o Ho. left. split; [done|]. by apply Hno. }
  unfold shipRow.
  destruct (JS.truthy (referenzOf r)) eqn:Href; cbn [negb].
  2: { apply truthy_false_iff in Href.
       apply (Hsame (referenzOf r ≠ "") rep). by intros o _ ?. }
  apply truthy_nonempty in Href.
  rewrite bind_run. unfold getOrdersByOrderId, gets.
  set (carrier := JS.trim (JS.or_else (r !! "Lieferant") "")).
  set (trackingNum := JS.trim (JS.or_else (r !! "Paketnummer Lieferant") "")).
  set (candidates := List.filter _ allOrders).
  destruct (selectByOrderId (referenzOf r) db) as [|m ms] eqn:Hsel.
  - assert (∀ o : Order, o ∈ rows db → orderId o ≠ referenzOf r) as Hno.
    { intros o Ho Hoid.
      assert (In o (selectByOrderId (referenzOf r) db)) as Hin.
      { apply filter_In. split; [by apply list_elem_of_In|].
        by apply String.eqb_eq. }
      by rewrite Hsel in Hin. }
    cbn [length Nat.eqb andb].
    destruct (JS.truthy (csvNameOf r) || JS.truthy (csvPhoneOf r));
      [|apply (Hsame (referenzOf r ≠ "") (pushNotFound (referenzOf r) rep));
        by intros o Ho _; apply Hno].
    destruct candidates as [|one [|two more]].
    + apply (Hsame (referenzOf r ≠ "") (pushNotFound (referenzOf r) rep)).
      intros o Ho _. by apply Hno.
    + apply (updateMatching_writes carrier trackingNum today (referenzOf r));
        [done|]. intros o Ho Hoid. by destruct (Hno o Ho).
    + apply (Hsame (referenzOf r ≠ "") (pushAmbiguous (referenzOf r) rep)).
      intros o Ho _. by apply Hno.
  - cbn [length Nat.eqb andb].
    apply (updateMatching_writes carrier trackingNum today (referenzOf r));
      [done|].
    intros o Ho Hoid. apply existsb_exists. exists o.
    split; [|by apply Z.eqb_refl]. rewrite <- Hsel.
    apply filter_In. split; [by apply list_elem_of_In|].
    by apply String.eqb_eq.
Qed.

(** The rows after the loop over the manifest. *)
Lemma shipRows_write (today : string) (allOrders : list Order)
    (records : list Row) :
  ∀ (rep : ShippingReport) (db : Db),
  ∃ (rep' : ShippingReport) (db' : Db),
    forEach records (shipRow today allOrders) rep db = (inr rep', db')
    ∧ Forall2
        (fun before after : Order =>
           (after = before
            ∧ ∀ r, r ∈ records → referenzOf r ≠ "" →
                   orderId before ≠ referenzOf r)
           ∨ (∃ r, r ∈ records ∧ referenzOf r ≠ ""
                ∧ after
                  = shippedRow
                      (JS.trim (JS.or_else (r !! "Lieferant") ""))
                      (JS.trim (JS.or_else (r !! "Paketnummer Lieferant") ""))
                      today before))
        (rows db) (rows db').
Proof.
  induction records as [|r records IH]; intros rep db.
  - exists rep, db. split; [done|].
    rewrite <- (map_id (rows db)) at 2. apply Forall2_map_same.
    intros o Ho. left. split; [done|]. intros r Hr. by apply elem_of_nil in Hr.
  - destruct (shipRow_writes today allOrders r rep db)
      as (rep1 & db1 & Hrun & Hone).
    destruct (IH rep1 db1) as (rep' & db' & Hrest & Hmore).
    exists rep', db'. cbn [forEach]. rewrite bind_run, Hrun.
    split; [exact Hrest|].
    refine (Forall2_compose _ _ _ _ _ _ _ Hone Hmore).
    intros before mid after [[-> Hno]|[Href ->]] [[-> Hnone]|(r' & Hr' & Href' & ->)].
    + left. split; [done|]. intros r0 [->|Hr0]%elem_of_cons; auto.
    + right. exists r'. split; [by right|done].
    + right. exists r. split; [by left|done].
    + right. exists r'. split; [by right|]. split; [done|].
      apply shippedRow_over.
Qed.

Section DerivedStatus.
Context {D : Driver}.


End DerivedStatus.


